(** * videospeed: controller lifecycle and media discovery

    A shallow embedding of [src/core/video-controller.js] (class
    [VideoController]) and of the media element observer (class
    [MediaElementObserver]), with the properties of the controller
    lifecycle, the element validator and the tree scanner.

    JavaScript objects live in a store indexed by references; numbers are
    rationals (every finite double is one, and the settings are read from
    JSON storage, which holds neither [NaN] nor infinities); an exception
    is an outcome of the computation that keeps the effects made so far. *)

From Stdlib Require Import QArith Qround Qabs ZArith String DecimalString.
From stdpp Require Import gmap strings list.

Local Open Scope string_scope.
Local Close Scope Q_scope.

(** ** JavaScript values *)

Module JS.

(** [ToBoolean] on a number: zero is falsy. *)
Definition truthy (q : Q) : bool := negb (Qeq_bool q 0).

(** [x || d] where [x] is a number or [undefined]. *)
Definition or_num (x : option Q) (d : Q) : Q :=
  match x with
  | Some q => if truthy q then q else d
  | None => d
  end.

(** [ToBoolean] on a string: the empty string is falsy. *)
Definition truthy_str (s : string) : bool :=
  if decide (s = "") then false else true.

(** [a || b] on strings. *)
Definition or_str (a b : string) : string :=
  if truthy_str a then a else b.

(** [x < y] on numbers. *)
Definition Qltb (x y : Q) : bool := negb (Qle_bool y x).

(** [x !== y] on numbers. *)
Definition strict_neq (x y : Q) : bool := negb (Qeq_bool x y).

Definition digits (n : Z) : string :=
  NilEmpty.string_of_uint (N.to_uint (Z.to_N n)).

(** [Number.prototype.toFixed(1)] for magnitudes below 10^21 (above,
    ECMAScript switches to exponent notation; playback rates never get
    there): the sign, then the integer [n] nearest to ten times the
    magnitude, the larger one on a tie, printed with one fraction digit. *)
Definition toFixed1 (x : Q) : string :=
  let s := if Qlt_le_dec x 0 then "-" else "" in
  let n := Qfloor (Qabs x * (10 # 1) + (1 # 2)) in
  s ++ digits (n / 10)%Z ++ "." ++ digits (n mod 10)%Z.

(** The exceptions the modelled DOM calls can raise. *)
Inductive error := TypeError | NotFoundError.

End JS.

(** ** The controller lifecycle: [video-controller.js] *)

Module Lifecycle.

(** Identity of a JavaScript object. *)
Definition ref := nat.

(** *** The store *)

(** A bound event handler, [mediaEventAction.bind(this)]: the controller
    it closes over and the field that holds it. *)
Inductive handler := HandlePlay (this : ref) | HandleSeek (this : ref).

#[global] Instance handler_eq_dec : EqDecision handler.
Proof. solve_decision. Defined.

(** The fields of an [HTMLMediaElement] that the controller reads or
    writes; [vsc] is the back-reference [target.vsc]. *)
Record media_el := {
  currentSrc : string;
  src : string;
  playbackRate : Q;
  vsc : option ref;
  listeners : list (string * handler);
}.

(** The options handed to [ShadowDOMManager.createShadowDOM]. *)
Record shadow_init := {
  top : string;
  left : string;
  speed_text : string;
  opacity : Q;
  buttonSize : Q;
}.

Inductive node_kind := ElementNode | FragmentNode | DocumentNode.

(** A DOM node; a media element is a node whose [media] part is set, the
    overlay wrapper one whose [shadow] part is set. *)
Record dom_node := {
  kind : node_kind;
  parentNode : option ref;
  childNodes : list ref;
  classList : list string;
  media : option media_el;
  shadow : option shadow_init;
}.

(** One entry of [settings.speeds]. *)
Record speed_entry := { speed : option Q }.

Record settings := {
  speeds : gmap string speed_entry;
  rememberSpeed : bool;
  forceLastSavedSpeed : bool;
  lastSpeed : option Q;
  startHidden : bool;
  controllerOpacity : Q;
  controllerButtonSize : Q;
}.

(** The shared [VideoSpeedConfig] object. Modelled from the spec: the
    class is missing from the sources; the spec gives it a key-binding
    store with get and set and a tracked-element registry with add and
    remove. *)
Record config := {
  cfg_settings : settings;
  keyBindings : gmap string (option Q);
  mediaElements : gset ref;
}.

(** The fields of a [VideoController] instance ([config], [actionHandler]
    and [controlsManager] are the shared objects of the world; the two
    indicator handles belong to the presentation layer). *)
Record controller := {
  video : ref;
  parent : option ref;
  div : option ref;
  handlePlay : option handler;
  handleSeek : option handler;
  targetObserver : option ref;
}.

(** A [MutationObserver] built by [setupMutationObserver]: the controller
    its callback closes over, and what it observes. *)
Record observer := {
  owner : ref;
  observing : list (ref * list string);
}.

Record custom_event := {
  ev_type : string;
  bubbles : bool;
  composed : bool;
  detail_origin : string;
  detail_speed : string;
}.

(** A record delivered to a mutation observer callback. *)
Record mutation := {
  m_type : string;
  m_attributeName : string;
  m_target : ref;
}.

(** A line written through [logger]: the fixed text, and the interpolated
    value when there is one. *)
Inductive log_msg :=
| Msg (text : string)
| MsgNum (text : string) (q : Q)
| MsgStr (text : string) (s : string).

Record world := {
  nodes : gmap ref dom_node;
  ctrls : gmap ref controller;
  observers : gmap ref observer;
  cfg : config;
  dispatched : list (ref * custom_event);
  setSpeedCalls : list (ref * Q);
  console : list log_msg;
}.

(** *** Field updates *)

Definition set_parentNode (p : option ref) (n : dom_node) : dom_node :=
  {| kind := kind n; parentNode := p; childNodes := childNodes n;
     classList := classList n; media := media n; shadow := shadow n |}.

Definition set_childNodes (l : list ref) (n : dom_node) : dom_node :=
  {| kind := kind n; parentNode := parentNode n; childNodes := l;
     classList := classList n; media := media n; shadow := shadow n |}.

Definition set_classList (l : list string) (n : dom_node) : dom_node :=
  {| kind := kind n; parentNode := parentNode n; childNodes := childNodes n;
     classList := l; media := media n; shadow := shadow n |}.

Definition set_media (m : option media_el) (n : dom_node) : dom_node :=
  {| kind := kind n; parentNode := parentNode n; childNodes := childNodes n;
     classList := classList n; media := m; shadow := shadow n |}.

Definition set_shadow (s : option shadow_init) (n : dom_node) : dom_node :=
  {| kind := kind n; parentNode := parentNode n; childNodes := childNodes n;
     classList := classList n; media := media n; shadow := s |}.

Definition set_playbackRate (q : Q) (v : media_el) : media_el :=
  {| currentSrc := currentSrc v; src := src v; playbackRate := q;
     vsc := vsc v; listeners := listeners v |}.

Definition set_vsc (c : option ref) (v : media_el) : media_el :=
  {| currentSrc := currentSrc v; src := src v; playbackRate := playbackRate v;
     vsc := c; listeners := listeners v |}.

Definition set_listeners (l : list (string * handler)) (v : media_el) : media_el :=
  {| currentSrc := currentSrc v; src := src v; playbackRate := playbackRate v;
     vsc := vsc v; listeners := l |}.

Definition set_div (d : option ref) (c : controller) : controller :=
  {| video := video c; parent := parent c; div := d;
     handlePlay := handlePlay c; handleSeek := handleSeek c;
     targetObserver := targetObserver c |}.

Definition set_handlers (p s : option handler) (c : controller) : controller :=
  {| video := video c; parent := parent c; div := div c;
     handlePlay := p; handleSeek := s; targetObserver := targetObserver c |}.

Definition set_targetObserver (o : option ref) (c : controller) : controller :=
  {| video := video c; parent := parent c; div := div c;
     handlePlay := handlePlay c; handleSeek := handleSeek c;
     targetObserver := o |}.

Definition set_keyBindings (k : gmap string (option Q)) (c : config) : config :=
  {| cfg_settings := cfg_settings c; keyBindings := k;
     mediaElements := mediaElements c |}.

Definition set_mediaElements (s : gset ref) (c : config) : config :=
  {| cfg_settings := cfg_settings c; keyBindings := keyBindings c;
     mediaElements := s |}.

Definition with_nodes (f : gmap ref dom_node → gmap ref dom_node) (w : world) : world :=
  {| nodes := f (nodes w); ctrls := ctrls w; observers := observers w;
     cfg := cfg w; dispatched := dispatched w;
     setSpeedCalls := setSpeedCalls w; console := console w |}.

Definition with_ctrls (f : gmap ref controller → gmap ref controller) (w : world) : world :=
  {| nodes := nodes w; ctrls := f (ctrls w); observers := observers w;
     cfg := cfg w; dispatched := dispatched w;
     setSpeedCalls := setSpeedCalls w; console := console w |}.

Definition with_observers (f : gmap ref observer → gmap ref observer) (w : world) : world :=
  {| nodes := nodes w; ctrls := ctrls w; observers := f (observers w);
     cfg := cfg w; dispatched := dispatched w;
     setSpeedCalls := setSpeedCalls w; console := console w |}.

Definition with_cfg (f : config → config) (w : world) : world :=
  {| nodes := nodes w; ctrls := ctrls w; observers := observers w;
     cfg := f (cfg w); dispatched := dispatched w;
     setSpeedCalls := setSpeedCalls w; console := console w |}.

Definition with_dispatched (f : list (ref * custom_event) → list (ref * custom_event))
    (w : world) : world :=
  {| nodes := nodes w; ctrls := ctrls w; observers := observers w;
     cfg := cfg w; dispatched := f (dispatched w);
     setSpeedCalls := setSpeedCalls w; console := console w |}.

Definition with_setSpeedCalls (f : list (ref * Q) → list (ref * Q)) (w : world) : world :=
  {| nodes := nodes w; ctrls := ctrls w; observers := observers w;
     cfg := cfg w; dispatched := dispatched w;
     setSpeedCalls := f (setSpeedCalls w); console := console w |}.

Definition with_console (f : list log_msg → list log_msg) (w : world) : world :=
  {| nodes := nodes w; ctrls := ctrls w; observers := observers w;
     cfg := cfg w; dispatched := dispatched w;
     setSpeedCalls := setSpeedCalls w; console := f (console w) |}.

(** *** Computations: a state and exception monad *)

Inductive outcome (A : Type) :=
| Ok (a : A)
| Throw (e : JS.error).

Arguments Ok {A} a.
Arguments Throw {A} e.

Definition M (A : Type) : Type := world → outcome A * world.

Definition ret {A} (a : A) : M A := λ w, (Ok a, w).

Definition bind {A B} (m : M A) (k : A → M B) : M B :=
  λ w, match m w with
       | (Ok a, w1) => k a w1
       | (Throw e, w1) => (Throw e, w1)
       end.

#[global] Instance M_ret : MRet M := @ret.
#[global] Instance M_bind : MBind M := λ A B k m, bind m k.

Definition throw {A} (e : JS.error) : M A := λ w, (Throw e, w).
Definition get : M world := λ w, (Ok w, w).
Definition modify (f : world → world) : M unit := λ w, (Ok tt, f w).

(** Reading a property of [null] or [undefined] is a [TypeError]. *)
Definition deref {A} (x : option A) : M A :=
  match x with
  | Some a => mret a
  | None => throw JS.TypeError
  end.

Definition log (m : log_msg) : M unit := modify (with_console (λ l, (l ++ [m])%list)).

Definition get_node (r : ref) : M dom_node := w ← get; deref (nodes w !! r).
Definition get_media (r : ref) : M media_el := n ← get_node r; deref (media n).
Definition get_ctrl (r : ref) : M controller := w ← get; deref (ctrls w !! r).
Definition get_settings : M settings := w ← get; mret (cfg_settings (cfg w)).

Definition update_node (r : ref) (f : dom_node → dom_node) : M unit :=
  modify (with_nodes (alter f r)).

Definition on_media (f : media_el → media_el) (n : dom_node) : dom_node :=
  set_media (f <$> media n) n.

Definition update_media (r : ref) (f : media_el → media_el) : M unit :=
  update_node r (on_media f).

Definition update_ctrl (r : ref) (f : controller → controller) : M unit :=
  modify (with_ctrls (alter f r)).

(** [list.forEach(f)]. *)
Fixpoint forEach {A} (f : A → M unit) (l : list A) : M unit :=
  match l with
  | [] => mret tt
  | x :: l' => f x;; forEach f l'
  end.

(** *** DOM operations *)

Definition new_node (k : node_kind) : dom_node :=
  {| kind := k; parentNode := None; childNodes := []; classList := [];
     media := None; shadow := None |}.

(** A node created by the document starts detached, at a fresh identity. *)
Definition createNode (k : node_kind) : M ref :=
  w ← get;
  let r := fresh (dom (nodes w)) in
  modify (with_nodes (insert r (new_node k)));;
  mret r.

Definition createElement : M ref := createNode ElementNode.
Definition createDocumentFragment : M ref := createNode FragmentNode.

(** [node.parentElement]: the parent when it is an element. *)
Definition parentElement_of (ns : gmap ref dom_node) (n : dom_node) : option ref :=
  p ← parentNode n;
  pn ← ns !! p;
  match kind pn with
  | ElementNode => Some p
  | _ => None
  end.

Fixpoint next_after (r : ref) (l : list ref) : option ref :=
  match l with
  | [] => None
  | x :: l' => if decide (x = r) then head l' else next_after r l'
  end.

(** [node.nextSibling]. *)
Definition nextSibling_of (ns : gmap ref dom_node) (r : ref) (n : dom_node) : option ref :=
  p ← parentNode n;
  pn ← ns !! p;
  next_after r (childNodes pn).

(** [node.firstChild]. *)
Definition firstChild_of (n : dom_node) : option ref := head (childNodes n).

Definition without (r : ref) (l : list ref) : list ref :=
  List.filter (λ x, negb (bool_decide (x = r))) l.

(** Take a node out of its parent's children; nothing to do when it has
    no parent. This is also [ChildNode.remove()]. *)
Definition detach (r : ref) : M unit :=
  n ← get_node r;
  match parentNode n with
  | Some p =>
      update_node p (λ pn, set_childNodes (without r (childNodes pn)) pn);;
      update_node r (set_parentNode None)
  | None => mret tt
  end.

Definition appendChild (p child : ref) : M unit :=
  _ ← get_node p;
  detach child;;
  update_node p (λ pn, set_childNodes (childNodes pn ++ [child])%list pn);;
  update_node child (set_parentNode (Some p)).

(** The children of [l] with [new] placed before [r], at the end when
    there is no reference child. *)
Fixpoint place_before (new : list ref) (r : option ref) (l : list ref) : list ref :=
  match l with
  | [] => new
  | x :: l' =>
      if bool_decide (r = Some x) then (new ++ x :: l')%list
      else x :: place_before new r l'
  end.

(** [parent.insertBefore(node, child)]: a fragment hands over its
    children and is left empty; a reference child that is not a child of
    [parent] is a [NotFoundError]. *)
Definition insertBefore (p new : ref) (child : option ref) : M unit :=
  pn ← get_node p;
  nn ← get_node new;
  match child with
  | Some r =>
      if bool_decide (r ∈ childNodes pn) then mret tt else throw JS.NotFoundError
  | None => mret tt
  end;;
  let moved :=
    match kind nn with
    | FragmentNode => childNodes nn
    | _ => [new]
    end in
  match kind nn with
  | FragmentNode => update_node new (set_childNodes [])
  | _ => detach new
  end;;
  update_node p (λ pn, set_childNodes (place_before moved child (childNodes pn)) pn);;
  forEach (λ m, update_node m (set_parentNode (Some p))) moved.

(** [element.classList.add(c)] and [.remove(c)]: a token list holds each
    class once. *)
Definition classList_add (r : ref) (c : string) : M unit :=
  _ ← get_node r;
  update_node r (λ n, if bool_decide (c ∈ classList n) then n
                      else set_classList (classList n ++ [c])%list n).

Definition classList_remove (r : ref) (c : string) : M unit :=
  _ ← get_node r;
  update_node r (λ n, set_classList
                        (List.filter (λ x, negb (bool_decide (x = c))) (classList n)) n).

(** [target.addEventListener(type, h)] registers a handler once;
    [removeEventListener] drops it and ignores one that is not there. *)
Definition addEventListener (target : ref) (type : string) (h : handler) : M unit :=
  _ ← get_media target;
  update_media target (λ v, if bool_decide ((type, h) ∈ listeners v) then v
                            else set_listeners (listeners v ++ [(type, h)])%list v).

Definition removeEventListener (target : ref) (type : string) (h : handler) : M unit :=
  _ ← get_media target;
  update_media target
    (λ v, set_listeners
            (List.filter (λ x, negb (bool_decide (x = (type, h)))) (listeners v)) v).

(** [target.dispatchEvent(e)]: the event is handed to the page (and to
    whoever listens for it there), which this file records. *)
Definition dispatchEvent (target : ref) (e : custom_event) : M unit :=
  _ ← get_media target;
  modify (with_dispatched (λ l, (l ++ [(target, e)])%list)).

(** [new MutationObserver(callback)], [observe] and [disconnect]. *)
Definition new_MutationObserver (this : ref) : M ref :=
  w ← get;
  let o := fresh (dom (observers w)) in
  modify (with_observers (insert o {| owner := this; observing := [] |}));;
  mret o.

Definition observe (o target : ref) (attributeFilter : list string) : M unit :=
  modify (with_observers
            (alter (λ ob, {| owner := owner ob;
                             observing := (observing ob ++ [(target, attributeFilter)])%list |})
                   o)).

Definition disconnect (o : ref) : M unit :=
  modify (with_observers (alter (λ ob, {| owner := owner ob; observing := [] |}) o)).

(** *** Collaborators outside [video-controller.js] *)

(** What [siteHandlerManager.getControllerPosition] answers. *)
Record positioning := {
  insertionPoint : option ref;
  insertionMethod : string;
  targetParent : option ref;
}.

(** The functions the controller imports or reaches through [window.VSC]
    and whose code is elsewhere: [getBaseURL] of [utils/url.js], the site
    handler manager and the shadow DOM manager. *)
Class Externals := {
  getBaseURL : string → string;
  getControllerPosition : option ref → ref → positioning;
  calculatePosition : ref → string * string;
}.

(** Modelled from the spec: [config.getKeyBinding] and
    [config.setKeyBinding], the key-binding get and set of the missing
    [VideoSpeedConfig]. *)
Definition getKeyBinding (action : string) : M (option Q) :=
  w ← get; mret (default None (keyBindings (cfg w) !! action)).

Definition setKeyBinding (action : string) (value : option Q) : M unit :=
  modify (with_cfg (λ c, set_keyBindings (<[action := value]> (keyBindings c)) c)).

(** Modelled from the spec: [config.addMediaElement] and
    [config.removeMediaElement], the add and remove of the tracked-element
    registry of the missing [VideoSpeedConfig]. *)
Definition addMediaElement (e : ref) : M unit :=
  modify (with_cfg (λ c, set_mediaElements ({[e]} ∪ mediaElements c) c)).

Definition removeMediaElement (e : ref) : M unit :=
  modify (with_cfg (λ c, set_mediaElements (mediaElements c ∖ {[e]}) c)).

(** [actionHandler.setSpeed(video, rate)]: the call is recorded; what the
    action handler does with it is its own business. *)
Definition setSpeed (target : ref) (rate : Q) : M unit :=
  modify (with_setSpeedCalls (λ l, (l ++ [(target, rate)])%list)).

(** [ShadowDOMManager.createShadowDOM(wrapper, options)]. *)
Definition createShadowDOM (wrapper : ref) (o : shadow_init) : M unit :=
  _ ← get_node wrapper;
  update_node wrapper (set_shadow (Some o)).

(** [settings.speeds[url]?.speed]. *)
Definition stored_speed (s : settings) (url : string) : option Q :=
  e ← speeds s !! url; speed e.

(** *** The methods of [VideoController] *)

Section VideoController.

Context `{Externals}.

(** [initializeSpeed], first half: the local [targetSpeed] and the reset
    key binding. *)
Definition resolveTargetSpeed (this : ref) : M Q :=
  c ← get_ctrl this;
  v ← get_media (video c);
  s ← get_settings;
  let videoSrc := JS.or_str (currentSrc v) (src v) in
  let storedVideoSpeed := JS.or_num (stored_speed s (getBaseURL videoSrc)) 1 in
  if rememberSpeed s then
    targetSpeed ←
      (if JS.truthy storedVideoSpeed then
         log (MsgNum "Using stored speed for video: " storedVideoSpeed);;
         mret storedVideoSpeed
       else
         match lastSpeed s with
         | Some l =>
             if JS.truthy l then log (MsgNum "Using lastSpeed: " l);; mret l
             else mret 1%Q
         | None => mret 1%Q
         end);
    setKeyBinding "reset" (Some targetSpeed);;
    mret targetSpeed
  else
    log (Msg "rememberSpeed disabled - using 1.0x speed");;
    fast ← getKeyBinding "fast";
    setKeyBinding "reset" fast;;
    mret 1%Q.

(** The event that [initializeSpeed] announces a rate with. *)
Definition ratechange (targetSpeed : Q) : custom_event :=
  {| ev_type := "ratechange"; bubbles := true; composed := true;
     detail_origin := "videoSpeed"; detail_speed := JS.toFixed1 targetSpeed |}.

(** [initializeSpeed], second half: the rate is announced or assigned. *)
Definition applySpeed (this : ref) (targetSpeed : Q) : M unit :=
  c ← get_ctrl this;
  s ← get_settings;
  log (MsgNum "Setting initial playbackRate to: " targetSpeed);;
  if forceLastSavedSpeed s && JS.strict_neq targetSpeed 1 then
    log (Msg "forceLastSavedSpeed enabled - dispatching ratechange event");;
    dispatchEvent (video c) (ratechange targetSpeed)
  else
    _ ← get_media (video c);
    update_media (video c) (set_playbackRate targetSpeed).

Definition initializeSpeed (this : ref) : M unit :=
  targetSpeed ← resolveTargetSpeed this;
  applySpeed this targetSpeed.

Definition insertIntoDOM (this wrapper : ref) : M unit :=
  fragment ← createDocumentFragment;
  appendChild fragment wrapper;;
  c ← get_ctrl this;
  w ← get;
  let positioning := getControllerPosition (parent c) (video c) in
  (if decide (insertionMethod positioning = "beforeParent") then
     point ← deref (insertionPoint positioning);
     pn ← get_node point;
     target ← deref (parentElement_of (nodes w) pn);
     insertBefore target fragment (Some point)
   else if decide (insertionMethod positioning = "afterParent") then
     point ← deref (insertionPoint positioning);
     pn ← get_node point;
     target ← deref (parentElement_of (nodes w) pn);
     insertBefore target fragment (nextSibling_of (nodes w) point pn)
   else
     point ← deref (insertionPoint positioning);
     pn ← get_node point;
     insertBefore point fragment (firstChild_of pn));;
  log (MsgStr "Controller inserted using " (insertionMethod positioning)).

Definition initializeControls (this : ref) : M ref :=
  log (Msg "initializeControls Begin");;
  c ← get_ctrl this;
  v ← get_media (video c);
  let speed := JS.toFixed1 (playbackRate v) in
  let position := calculatePosition (video c) in
  log (MsgStr "Speed variable set to: " speed);;
  wrapper ← createElement;
  classList_add wrapper "vsc-controller";;
  (if JS.truthy_str (currentSrc v) then mret tt
   else classList_add wrapper "vsc-nosource");;
  s ← get_settings;
  (if startHidden s then classList_add wrapper "vsc-hidden"
   else classList_add wrapper "vcs-show");;
  createShadowDOM wrapper
    {| top := position.1; left := position.2; speed_text := speed;
       opacity := controllerOpacity s; buttonSize := controllerButtonSize s |};;
  insertIntoDOM this wrapper;;
  log (Msg "initializeControls End");;
  mret wrapper.

(** The closure [mediaEventAction] of [setupEventHandlers], run for an
    event whose target is [target]. *)
Definition mediaEventAction (this target : ref) : M unit :=
  t ← get_media target;
  s ← get_settings;
  let url := getBaseURL (currentSrc t) in
  let storedSpeed := JS.or_num (stored_speed s url) 1 in
  storedSpeed ←
    (if negb (rememberSpeed s) then
       storedSpeed ←
         (if negb (JS.truthy storedSpeed) then
            log (Msg "Overwriting stored speed to 1.0 (rememberSpeed not enabled)");;
            mret (1 : Q)
          else mret storedSpeed);
       log (Msg "Setting reset keybinding to fast");;
       fast ← getKeyBinding "fast";
       setKeyBinding "reset" fast;;
       mret storedSpeed
     else mret storedSpeed);
  log (MsgNum "Explicitly setting playbackRate to: " storedSpeed);;
  setSpeed target storedSpeed.

Definition setupEventHandlers (this : ref) : M unit :=
  c ← get_ctrl this;
  update_ctrl this (set_handlers (Some (HandlePlay this)) (Some (HandleSeek this)));;
  addEventListener (video c) "play" (HandlePlay this);;
  addEventListener (video c) "seeked" (HandleSeek this).

(** The body of the callback of [setupMutationObserver] for one record. *)
Definition onMutation (this : ref) (m : mutation) : M unit :=
  if bool_decide (m_type m = "attributes")
     && (bool_decide (m_attributeName m = "src")
         || bool_decide (m_attributeName m = "currentSrc")) then
    log (Msg "mutation of A/V element");;
    c ← get_ctrl this;
    t ← get_media (m_target m);
    if negb (JS.truthy_str (src t)) && negb (JS.truthy_str (currentSrc t)) then
      controller ← deref (div c);
      classList_add controller "vsc-nosource"
    else
      controller ← deref (div c);
      classList_remove controller "vsc-nosource"
  else mret tt.

Definition observerCallback (this : ref) (mutations : list mutation) : M unit :=
  forEach (onMutation this) mutations.

Definition setupMutationObserver (this : ref) : M unit :=
  c ← get_ctrl this;
  o ← new_MutationObserver this;
  update_ctrl this (set_targetObserver (Some o));;
  observe o (video c) ["src"; "currentSrc"].

(** The constructor; [new VideoController(target, parent, config,
    actionHandler)] evaluates to what it returns. *)
Definition create (target : ref) (parent : option ref) : M ref :=
  t ← get_media target;
  match vsc t with
  | Some existing => mret existing
  | None =>
      w ← get;
      n ← get_node target;
      let this := fresh (dom (ctrls w)) in
      modify (with_ctrls (insert this
        {| video := target;
           parent := match parentElement_of (nodes w) n with
                     | Some p => Some p
                     | None => parent
                     end;
           div := None; handlePlay := None; handleSeek := None;
           targetObserver := None |}));;
      addMediaElement target;;
      initializeSpeed this;;
      d ← initializeControls this;
      update_ctrl this (set_div (Some d));;
      setupEventHandlers this;;
      setupMutationObserver this;;
      update_media target (set_vsc (Some this));;
      log (Msg "VideoController initialized for video element");;
      mret this
  end.

Definition remove (this : ref) : M unit :=
  log (Msg "Removing VideoController");;
  c ← get_ctrl this;
  match div c with
  | Some d =>
      n ← get_node d;
      match parentNode n with
      | Some _ => detach d
      | None => mret tt
      end
  | None => mret tt
  end;;
  match handlePlay c with
  | Some h => removeEventListener (video c) "play" h
  | None => mret tt
  end;;
  match handleSeek c with
  | Some h => removeEventListener (video c) "seeked" h
  | None => mret tt
  end;;
  match targetObserver c with
  | Some o => disconnect o
  | None => mret tt
  end;;
  removeMediaElement (video c);;
  update_media (video c) (set_vsc None);;
  log (Msg "VideoController removed successfully").

(** Modelled from the spec: [destroy(handle)], the entry point by handle.
    Its code (the caller that reaches the controller through the
    back-reference of the element) is missing from the sources; [remove]
    above is the method it ends in. *)
Definition destroy (e : ref) : M unit :=
  t ← get_media e;
  match vsc t with
  | Some this => remove this
  | None => mret tt
  end.

(** The host delivers an event of type [type] at [target]: the handlers
    registered for it run in order. *)
Definition deliver (type : string) (target : ref) : M unit :=
  t ← get_media target;
  forEach (λ l, match l.2 with
                | HandlePlay this | HandleSeek this => mediaEventAction this target
                end)
          (List.filter (λ l, bool_decide (l.1 = type)) (listeners t)).

End VideoController.

(** *** Stating the properties *)

Section Statements.

Context `{Externals}.

Definition keeps (R : relation world) {A} (m : M A) : Prop := ∀ w, R w (m w).2.

(** A relation on two stores: every object of the first is in the second,
    and a view of it is the same there. *)
Definition follows {A V} (view : A → V) (m m' : gmap ref A) : Prop :=
  ∀ r a, m !! r = Some a → ∃ a', m' !! r = Some a' ∧ view a' = view a.

(** The relation on worlds made of a view of the nodes, a view of the
    controllers and a view of the rest. *)
Definition kept {V C U} (nview : dom_node → V) (cview : controller → C)
    (wview : world → U) : relation world :=
  λ w w', follows nview (nodes w) (nodes w')
          ∧ follows cview (ctrls w) (ctrls w')
          ∧ wview w' = wview w.

(** The views the properties below look at. *)
Definition has_media (n : dom_node) : bool :=
  match media n with
  | Some _ => true
  | None => false
  end.

Definition rate_view (n : dom_node) : option (string * string * Q) :=
  (λ v, (currentSrc v, src v, playbackRate v)) <$> media n.

(** The playback rate of an element. *)
Definition rate (w : world) (e : ref) : option Q :=
  n ← nodes w !! e; playbackRate <$> media n.

Definition attached (w : world) (e c : ref) : Prop :=
  ∃ n v, nodes w !! e = Some n ∧ media n = Some v ∧ vsc v = Some c.

Definition storedVideoSpeed (s : settings) (v : media_el) : Q :=
  JS.or_num (stored_speed s (getBaseURL (JS.or_str (currentSrc v) (src v)))) 1.

Definition targetSpeed (s : settings) (v : media_el) : Q :=
  if rememberSpeed s then
    if JS.truthy (storedVideoSpeed s v) then storedVideoSpeed s v
    else match lastSpeed s with
         | Some l => if JS.truthy l then l else 1%Q
         | None => 1%Q
         end
  else 1%Q.

Definition resetBinding (w : world) (v : media_el) : option Q :=
  let s := cfg_settings (cfg w) in
  if rememberSpeed s then Some (targetSpeed s v)
  else default None (keyBindings (cfg w) !! "fast").

(** The constructor from [initializeControls] on. *)
Definition construct_rest (this target : ref) : M ref :=
  d ← initializeControls this;
  update_ctrl this (set_div (Some d));;
  setupEventHandlers this;;
  setupMutationObserver this;;
  update_media target (set_vsc (Some this));;
  log (Msg "VideoController initialized for video element");;
  mret this.

(** The controller object as the constructor first fills it. *)
Definition new_controller (w : world) (target : ref) (p : option ref)
    (n : dom_node) : controller :=
  {| video := target;
     parent := match parentElement_of (nodes w) n with
               | Some p' => Some p'
               | None => p
               end;
     div := None; handlePlay := None; handleSeek := None;
     targetObserver := None |}.

(** [initializeControls] from the insertion on. *)
Definition overlay_rest (this wrapper : ref) : M ref :=
  insertIntoDOM this wrapper;;
  log (Msg "initializeControls End");;
  mret wrapper.

(** A controller object of the world whose element and overlay are objects
    of the world too. *)
Definition live (w : world) (this : ref) (c : controller) : Prop :=
  ctrls w !! this = Some c
  ∧ (∃ n v, nodes w !! video c = Some n ∧ media n = Some v)
  ∧ (∀ d, div c = Some d → is_Some (nodes w !! d)).

(** What [remove] leaves behind: the overlay out of the tree, the element
    without back-reference and without the two handlers, the observer
    disconnected, the element out of the registry. *)
Definition destroyed (w : world) (this : ref) (c : controller) : Prop :=
  (∀ d, div c = Some d → ∃ nd, nodes w !! d = Some nd ∧ parentNode nd = None)
  ∧ (∃ n v, nodes w !! video c = Some n ∧ media n = Some v ∧ vsc v = None
            ∧ (∀ h, handlePlay c = Some h → ("play", h) ∉ listeners v)
            ∧ (∀ h, handleSeek c = Some h → ("seeked", h) ∉ listeners v))
  ∧ (∀ o ob, targetObserver c = Some o → observers w !! o = Some ob →
             observing ob = [])
  ∧ video c ∉ mediaElements (cfg w).

(** The update of the element that dropping one handler amounts to. *)
Definition unlisten (type : string) (oh : option handler) (v : media_el) : media_el :=
  match oh with
  | Some h =>
      set_listeners
        (List.filter (λ x, negb (bool_decide (x = (type, h)))) (listeners v)) v
  | None => v
  end.

Definition unobserve (o : option ref) (m : gmap ref observer) : gmap ref observer :=
  match o with
  | Some o => alter (λ ob, {| owner := owner ob; observing := [] |}) o m
  | None => m
  end.

(** A record that the observer of [setupMutationObserver] can be handed:
    a change of a source attribute of the element. *)
Definition source_mutation (e : ref) (m : mutation) : Prop :=
  m_type m = "attributes"
  ∧ (m_attributeName m = "src" ∨ m_attributeName m = "currentSrc")
  ∧ m_target m = e.

(** The store after a callback: only the class list of the overlay moved. *)
Definition only_overlay_classes (w w' : world) : Prop :=
  ctrls w' = ctrls w ∧ observers w' = observers w ∧ cfg w' = cfg w
  ∧ dispatched w' = dispatched w ∧ setSpeedCalls w' = setSpeedCalls w
  ∧ (∀ r, media <$> nodes w' !! r = media <$> nodes w !! r)
  ∧ (∀ r, parentNode <$> nodes w' !! r = parentNode <$> nodes w !! r).

Definition src_view (n : dom_node) : option (string * string) :=
  (λ v, (currentSrc v, src v)) <$> media n.

(** [insertIntoDOM] once the fragment holds the wrapper. *)
Definition place_overlay (this fragment : ref) : M unit :=
  c ← get_ctrl this;
  w ← get;
  let positioning := getControllerPosition (parent c) (video c) in
  (if decide (insertionMethod positioning = "beforeParent") then
     point ← deref (insertionPoint positioning);
     pn ← get_node point;
     target ← deref (parentElement_of (nodes w) pn);
     insertBefore target fragment (Some point)
   else if decide (insertionMethod positioning = "afterParent") then
     point ← deref (insertionPoint positioning);
     pn ← get_node point;
     target ← deref (parentElement_of (nodes w) pn);
     insertBefore target fragment (nextSibling_of (nodes w) point pn)
   else
     point ← deref (insertionPoint positioning);
     pn ← get_node point;
     insertBefore point fragment (firstChild_of pn));;
  log (MsgStr "Controller inserted using " (insertionMethod positioning)).

(** An insertion point the directive cannot use: none at all, or, for the
    two directives that insert next to it, one that is out of the tree. *)
Definition unusable_point (w : world) (pos : positioning) : Prop :=
  insertionPoint pos = None
  ∨ ∃ pt pn, insertionPoint pos = Some pt ∧ nodes w !! pt = Some pn
             ∧ parentNode pn = None
             ∧ (insertionMethod pos = "beforeParent"
                ∨ insertionMethod pos = "afterParent").

(** The tree of the first world is in the second as it was. *)
Definition tree_kept (w w' : world) : Prop :=
  ∀ r n, nodes w !! r = Some n →
    ∃ n', nodes w' !! r = Some n'
          ∧ kind n' = kind n ∧ parentNode n' = parentNode n
          ∧ childNodes n' = childNodes n ∧ classList n' = classList n
          ∧ shadow n' = shadow n.

End Statements.

(** *** Sample pages *)

(** A site handler in the manner of the default one: the overlay goes in
    as the first child of the parent of the element. *)
Definition base_site : Externals :=
  {| getBaseURL := λ url, url;
     getControllerPosition := λ parent _,
       {| insertionPoint := parent; insertionMethod := "firstChild";
          targetParent := parent |};
     calculatePosition := λ _, ("0px", "0px") |}.

Definition element (p : option ref) (children : list ref) : dom_node :=
  {| kind := ElementNode; parentNode := p; childNodes := children;
     classList := []; media := None; shadow := None |}.

Definition clip (current direct : string) : media_el :=
  {| currentSrc := current; src := direct; playbackRate := 1; vsc := None;
     listeners := [] |}.

Definition sample_settings (remember force : bool)
    (stored : gmap string speed_entry) (last : option Q) : settings :=
  {| speeds := stored; rememberSpeed := remember; forceLastSavedSpeed := force;
     lastSpeed := last; startHidden := false; controllerOpacity := (3 # 10)%Q;
     controllerButtonSize := (14 # 1)%Q |}.

Definition sample_world (ns : gmap ref dom_node) (s : settings) : world :=
  {| nodes := ns; ctrls := ∅; observers := ∅;
     cfg := {| cfg_settings := s;
               keyBindings := {[ "fast" := Some (18 # 10)%Q ]};
               mediaElements := ∅ |};
     dispatched := []; setSpeedCalls := []; console := [] |}.

(** A document whose body holds one video, at reference 2. *)
Definition page (s : settings) (v : media_el) : world :=
  sample_world
    {[ 0 := {| kind := DocumentNode; parentNode := None; childNodes := [1];
               classList := []; media := None; shadow := None |};
       1 := element (Some 0) [2];
       2 := {| kind := ElementNode; parentNode := Some 1; childNodes := [];
               classList := []; media := Some v; shadow := None |} ]}
    s.

(** A document whose video, at reference 2, is the direct child of a
    shadow root (reference 5): it has a parent node and no parent element. *)
Definition shadow_page (s : settings) (v : media_el) : world :=
  sample_world
    {[ 0 := {| kind := DocumentNode; parentNode := None; childNodes := [1];
               classList := []; media := None; shadow := None |};
       1 := element (Some 0) [];
       5 := {| kind := FragmentNode; parentNode := None; childNodes := [2];
               classList := []; media := None; shadow := None |};
       2 := {| kind := ElementNode; parentNode := Some 5; childNodes := [];
               classList := []; media := Some v; shadow := None |} ]}
    s.

Definition movie : string := "https://example.org/movie.mp4".

Definition stored_twice : gmap string speed_entry :=
  {[ movie := {| speed := Some (2 # 1)%Q |} ]}.

Definition src_changed : mutation :=
  {| m_type := "attributes"; m_attributeName := "src"; m_target := 2 |}.

Definition video_node (p : ref) (v : media_el) : dom_node :=
  {| kind := ElementNode; parentNode := Some p; childNodes := [];
     classList := []; media := Some v; shadow := None |}.

(** The element once controller 0 is attached to it. *)
Definition watched (v : media_el) : media_el :=
  set_listeners [("play", HandlePlay 0); ("seeked", HandleSeek 0)]
    (set_vsc (Some 0) v).

(** The controller that [create] builds on [page]. *)
Definition first_controller : controller :=
  {| video := 2; parent := Some 1; div := Some 3;
     handlePlay := Some (HandlePlay 0); handleSeek := Some (HandleSeek 0);
     targetObserver := Some 0 |}.

(** Remember-speed on, nothing stored for the source, a last-used rate of 2. *)
Definition lastSpeed_page : world :=
  page (sample_settings true false ∅ (Some (2 # 1)%Q)) (clip movie movie).

(** Remember-speed and force-last-saved-speed on, a stored rate of 2. *)
Definition forced_page : world :=
  page (sample_settings true true stored_twice None) (clip movie movie).

(** Remember-speed off, a stored rate of 2. *)
Definition forgetful_page : world :=
  page (sample_settings false false stored_twice None) (clip movie movie).

(** An element with a source attribute and no current source yet. *)
Definition pending_page : world :=
  page (sample_settings false false ∅ None) (clip "" movie).

Definition boundary_page : world :=
  shadow_page (sample_settings false false ∅ None) (clip movie movie).

(** [forgetful_page] once the controller is attached. *)
Definition playing_page : world := (@create base_site 2 None forgetful_page).2.

(** *** More statements *)

(** The records the callback of [setupMutationObserver] acts on. *)
Definition relevant (m : mutation) : bool :=
  bool_decide (m_type m = "attributes")
  && (bool_decide (m_attributeName m = "src")
      || bool_decide (m_attributeName m = "currentSrc")).

(** What a source mutation does to the overlay, given the media state of
    the element it is about. *)
Definition toggle_nosource (t : media_el) (n : dom_node) : dom_node :=
  if negb (JS.truthy_str (src t)) && negb (JS.truthy_str (currentSrc t)) then
    if bool_decide ("vsc-nosource" ∈ classList n) then n
    else set_classList (classList n ++ ["vsc-nosource"])%list n
  else
    set_classList
      (List.filter (λ x, negb (bool_decide (x = "vsc-nosource"))) (classList n)) n.

(** The update of the element that adding one handler amounts to. *)
Definition listen (type : string) (h : handler) (v : media_el) : media_el :=
  if bool_decide ((type, h) ∈ listeners v) then v
  else set_listeners (listeners v ++ [(type, h)])%list v.

(** The kind, the parent and the children of a node: its place in the
    tree. *)
Definition shape (n : dom_node) : node_kind * option ref * list ref :=
  (kind n, parentNode n, childNodes n).

Section Placement.

Context `{Externals}.

(** The overlay as [initializeControls] builds it for an element in media
    state [v]: its classes in the order they are added, and the options of
    its shadow tree. *)
Definition overlay_classes (v : media_el) (s : settings) : list string :=
  ("vsc-controller"
   :: (if JS.truthy_str (currentSrc v) then [] else ["vsc-nosource"])
   ++ [if startHidden s then "vsc-hidden" else "vcs-show"])%list.

Definition overlay_options (target : ref) (v : media_el) (s : settings) : shadow_init :=
  {| top := (calculatePosition target).1; left := (calculatePosition target).2;
     speed_text := JS.toFixed1 (playbackRate v);
     opacity := controllerOpacity s; buttonSize := controllerButtonSize s |}.

Definition new_overlay (target : ref) (v : media_el) (s : settings) : dom_node :=
  {| kind := ElementNode; parentNode := None; childNodes := [];
     classList := overlay_classes v s; media := None;
     shadow := Some (overlay_options target v s) |}.

(** The media state of a new element once [initializeSpeed] is over: the
    rate is the target, unless the target was announced. *)
Definition sped (s : settings) (v : media_el) : media_el :=
  if forceLastSavedSpeed s && JS.strict_neq (targetSpeed s v) 1 then v
  else set_playbackRate (targetSpeed s v) v.

(** Where [insertIntoDOM] puts the overlay: the node it inserts into and
    the child it inserts before, none for the end. *)
Definition insertion (ns : gmap ref dom_node) (pos : positioning)
    : option (ref * option ref) :=
  pt ← insertionPoint pos;
  pn ← ns !! pt;
  if decide (insertionMethod pos = "beforeParent") then
    pp ← parentElement_of ns pn; Some (pp, Some pt)
  else if decide (insertionMethod pos = "afterParent") then
    pp ← parentElement_of ns pn; Some (pp, nextSibling_of ns pt pn)
  else Some (pt, firstChild_of pn).

(** The controller once the constructor is over. *)
Definition built_controller (w : world) (target : ref) (p : option ref)
    (n : dom_node) : controller :=
  {| video := target;
     parent := parent (new_controller w target p n);
     div := Some (fresh (dom (nodes w)));
     handlePlay := Some (HandlePlay (fresh (dom (ctrls w))));
     handleSeek := Some (HandleSeek (fresh (dom (ctrls w))));
     targetObserver := Some (fresh (dom (observers w))) |}.

End Placement.

(** The document once [remove] has taken the overlay of a controller out:
    its parent loses it as a child and it loses its parent; nothing moves
    when the controller has no overlay or the overlay has no parent. *)
Definition overlay_gone (c : controller) (ns : gmap ref dom_node)
    : gmap ref dom_node :=
  match div c with
  | Some d =>
      match ns !! d with
      | Some nd =>
          match parentNode nd with
          | Some pp =>
              alter (set_parentNode None) d
                (alter (λ pn, set_childNodes (without d (childNodes pn)) pn) pp ns)
          | None => ns
          end
      | None => ns
      end
  | None => ns
  end.

(** The media state of the element once [remove] has dropped the two
    handlers and the back-reference. *)
Definition unheard (c : controller) (v : media_el) : media_el :=
  set_vsc None (unlisten "seeked" (handleSeek c) (unlisten "play" (handlePlay c) v)).

(** *** More sample pages *)

(** Site handlers that put the overlay next to the parent of the element. *)
Definition before_site : Externals :=
  {| getBaseURL := λ url, url;
     getControllerPosition := λ parent _,
       {| insertionPoint := parent; insertionMethod := "beforeParent";
          targetParent := parent |};
     calculatePosition := λ _, ("0px", "0px") |}.

Definition after_site : Externals :=
  {| getBaseURL := λ url, url;
     getControllerPosition := λ parent _,
       {| insertionPoint := parent; insertionMethod := "afterParent";
          targetParent := parent |};
     calculatePosition := λ _, ("0px", "0px") |}.

(** A document whose body (reference 1) holds a player (reference 4) with
    one video (reference 2), followed by a footer (reference 6). *)
Definition player_page (s : settings) (v : media_el) : world :=
  sample_world
    {[ 0 := {| kind := DocumentNode; parentNode := None; childNodes := [1];
               classList := []; media := None; shadow := None |};
       1 := element (Some 0) [4; 6];
       4 := element (Some 1) [2];
       6 := element (Some 1) [];
       2 := video_node 4 v ]}
    s.

Definition plain_player_page : world :=
  player_page (sample_settings false false ∅ None) (clip movie movie).

(** Remember-speed on, a rate of 2 stored under the source attribute of an
    element that has no current source yet. *)
Definition stored_pending_page : world :=
  page (sample_settings true false stored_twice None) (clip "" movie).

(** Remember-speed on, a stored rate of 2, the controller attached. *)
Definition remembering_page : world :=
  (@create base_site 2 None
     (page (sample_settings true false stored_twice None) (clip movie movie))).2.

Definition child_added : mutation :=
  {| m_type := "childList"; m_attributeName := ""; m_target := 2 |}.

(** *** The registry and the back-references *)

(** The controller an element refers back to, if any. *)
Definition backref (n : dom_node) : option ref := v ← media n; vsc v.

Definition controlled (w : world) (e : ref) : option ref :=
  n ← nodes w !! e; backref n.

(** Every element that refers back to a controller is in the registry. *)
Definition tracked (w : world) : Prop :=
  ∀ e c, controlled w e = Some c → e ∈ mediaElements (cfg w).

(** Two worlds with the same back-references and the same registry. *)
Definition same_backrefs (w w' : world) : Prop :=
  (∀ e, controlled w' e = controlled w e)
  ∧ mediaElements (cfg w') = mediaElements (cfg w).

End Lifecycle.

(** ** Finding media elements: the media element observer *)

Module Scan.

(** *** The document *)

(** What [getComputedStyle] and [getBoundingClientRect] answer. *)
Record computed_style := {
  display : string;
  visibility : string;
  opacity : string;
}.

Record rect := { width : Q; height : Q }.

(** A node of a document: its identity, its name and type, the
    properties the validator reads, its children, the open shadow root it
    hosts (identity and children), and for a frame whether reading
    [contentDocument] throws and the document it gives. *)
#[local] Unset Elimination Schemes.

Inductive node := Node {
  nid : nat;
  nodeName : string;
  nodeType : nat;
  isConnected : bool;
  style : computed_style;
  readyState : nat;
  boundingClientRect : rect;
  childNodes : list node;
  shadowRoot : option (nat * list node);
  crossOrigin : bool;
  contentDocument : option node;
}.

#[local] Set Elimination Schemes.

Definition ELEMENT_NODE : nat := 1.

Inductive log_msg :=
| Debug (text : string)
| DebugSize (w h : Q)
| DebugNum (text : string) (n : nat)
| Info (text : string) (n : nat)
| InfoFound (filtered unique : nat)
| Warn (text : string) (selector : string).

(** The [MediaElementObserver] instance: the calls it has made to
    [mutationObserver.observeShadowRoot] when one is installed, the
    shadow roots it keeps for later, and what it logged. *)
Record scanner := {
  audioBoolean : bool;
  mutationObserver : option (list nat);
  pendingShadowRoots : option (gset nat);
  console : list log_msg;
}.

Definition logged (m : log_msg) (s : scanner) : scanner :=
  {| audioBoolean := audioBoolean s; mutationObserver := mutationObserver s;
     pendingShadowRoots := pendingShadowRoots s;
     console := (console s ++ [m])%list |}.

(** The site handler and the helpers of other files: the adapter's
    special elements, exclusion verdict and container selectors,
    [document.querySelectorAll] on an adapter selector ([None] when the
    selector is malformed and the call throws) and
    [DomUtils.findMediaElements]. *)
Class Externals := {
  detectSpecialVideos : node → list node;
  shouldIgnoreVideo : node → bool;
  getVideoContainerSelectors : list string;
  querySelectorAll : node → string → option (list node);
  findMediaElements : node → bool → list node;
}.

(** *** Traversal *)

Definition mediaTagNodeNames (audioEnabled : bool) : list string :=
  if audioEnabled then ["VIDEO"; "AUDIO"] else ["VIDEO"].

Definition ignoredNodes : list string := ["#text"; "STYLE"; "SCRIPT"].

(** The filter of [traverse] on the children it recurses into. *)
Definition descend (child : node) : bool :=
  bool_decide (nodeType child = ELEMENT_NODE)
  && negb (bool_decide (nodeName child ∈ ignoredNodes)).

(** What the closure [traverse] does, step by step: it pushes an element
    onto [mediaElements] or hands a shadow root to [_observeShadowRoot]. *)
Inductive step :=
| Push (element : node)
| Observe (shadowRoot : nat).

(** The closure [traverse], as the steps it takes in order. *)
Fixpoint traverse (names : list string) (element : node) : list step :=
  ((if bool_decide (nodeName element ∈ names) then [Push element] else [])
   ++ match shadowRoot element with
      | Some (root, _) => [Observe root]
      | None => []
      end
   ++ flat_map (λ child, if descend child then traverse names child else [])
               (childNodes element)
   ++ match shadowRoot element with
      | Some (_, shadowChildren) =>
          flat_map (λ child, if descend child then traverse names child else [])
                   shadowChildren
      | None => []
      end)%list.

Definition pushed (steps : list step) : list node :=
  omap (λ s, match s with Push e => Some e | Observe _ => None end) steps.

Definition observed (steps : list step) : list nat :=
  omap (λ s, match s with Push _ => None | Observe r => Some r end) steps.

Definition _observeShadowRoot (s : scanner) (shadowRoot : nat) : scanner :=
  match mutationObserver s with
  | Some calls =>
      logged (Debug "Shadow root observer set up during traversal")
        {| audioBoolean := audioBoolean s;
           mutationObserver := Some (calls ++ [shadowRoot])%list;
           pendingShadowRoots := pendingShadowRoots s; console := console s |}
  | None =>
      logged (Debug "Shadow root queued for later observation")
        {| audioBoolean := audioBoolean s; mutationObserver := None;
           pendingShadowRoots :=
             Some ({[shadowRoot]} ∪ default ∅ (pendingShadowRoots s));
           console := console s |}
  end.

Definition _traverseForShadowRootsAndMedia (rootElement : node) (audioEnabled : bool)
    (s : scanner) : list node * scanner :=
  let steps := traverse (mediaTagNodeNames audioEnabled) rootElement in
  (pushed steps, foldl _observeShadowRoot s (observed steps)).

(** *** Selectors over the light tree *)

(** The descendants of a node through [childNodes], in document order. *)
Fixpoint descendants (n : node) : list node :=
  flat_map (λ child, child :: descendants child) (childNodes n).

(** [root.querySelectorAll] on a list of tag names and
    [getElementsByTagName]: the descendant elements of these names. *)
Definition byTagName (names : list string) (root : node) : list node :=
  filter (λ n, nodeType n = ELEMENT_NODE ∧ nodeName n ∈ names) (descendants root).

(** [[...new Set(l)]]: the first occurrence of each identity, in order. *)
Fixpoint unique (l : list node) : list node :=
  match l with
  | [] => []
  | x :: l' => x :: filter (λ y, nid y ≠ nid x) (unique l')
  end.

(** *** The scans *)

Section MediaElementObserver.

Context `{Externals}.

Definition scanForMedia (document : node) (s : scanner) : list node * scanner :=
  let audioEnabled := audioBoolean s in
  let regularMedia := byTagName (mediaTagNodeNames audioEnabled) document in
  let shadow := _traverseForShadowRootsAndMedia document audioEnabled s in
  let siteSpecificMedia := detectSpecialVideos document in
  let uniqueMedia := unique (regularMedia ++ shadow.1 ++ siteSpecificMedia)%list in
  let filteredMedia := filter (λ media, negb (shouldIgnoreVideo media)) uniqueMedia in
  (filteredMedia,
   logged (InfoFound (length filteredMedia) (length uniqueMedia)) shadow.2).

Definition scanIframes (document : node) (s : scanner) : list node * scanner :=
  foldl (λ acc frame,
           if crossOrigin frame then
             (acc.1, logged (Debug "Cannot access iframe content (cross-origin)") acc.2)
           else
             match contentDocument frame with
             | Some childDocument =>
                 let iframeMedia := scanForMedia childDocument acc.2 in
                 ((acc.1 ++ iframeMedia.1)%list,
                  logged (DebugNum "media elements in iframe" (length iframeMedia.1))
                         iframeMedia.2)
             | None => acc
             end)
        ([], s) (byTagName ["IFRAME"] document).

Definition scanSiteSpecificContainers (document : node) (s : scanner)
    : list node * scanner :=
  let audioEnabled := audioBoolean s in
  foldl (λ acc selector,
           match querySelectorAll document selector with
           | Some containers =>
               ((acc.1 ++ flat_map (λ container, findMediaElements container audioEnabled)
                                   containers)%list, acc.2)
           | None => (acc.1, logged (Warn "Invalid selector" selector) acc.2)
           end)
        ([], s) getVideoContainerSelectors.

Definition scanAll (document : node) (s : scanner) : list node * scanner :=
  let regularMedia := scanForMedia document s in
  let containerMedia := scanSiteSpecificContainers document regularMedia.2 in
  let iframeMedia := scanIframes document containerMedia.2 in
  let uniqueMedia := unique (regularMedia.1 ++ containerMedia.1 ++ iframeMedia.1)%list in
  (uniqueMedia, logged (Info "Total unique media elements found" (length uniqueMedia))
                       iframeMedia.2).

(** *** The validator *)

Definition isValidMediaElement (media : node) (s : scanner) : bool * scanner :=
  if negb (isConnected media) then
    (false, logged (Debug "Video not in DOM") s)
  else if bool_decide (display (style media) = "none")
          || bool_decide (visibility (style media) = "hidden")
          || bool_decide (opacity (style media) = "0") then
    (false, logged (Debug "Video not visible") s)
  else if bool_decide (readyState media < 2) then
    let s1 := logged (Debug "Video still loading, skipping size checks") s in
    if shouldIgnoreVideo media then
      (false, logged (Debug "Video ignored by site handler (during loading)") s1)
    else (true, s1)
  else
    let rect := boundingClientRect media in
    if JS.Qltb (width rect) (50 # 1) || JS.Qltb (height rect) (50 # 1) then
      (false, logged (DebugSize (width rect) (height rect)) s)
    else if shouldIgnoreVideo media then
      (false, logged (Debug "Video ignored by site handler") s)
    else (true, s).

(** [setMutationObserver(mutationObserver)]: a new observer is installed,
    the shadow roots kept so far are handed to it, and the set is
    emptied; when no set was ever made the observer starts with no call.
    (A JavaScript [Set] is walked in insertion order; the finite set here
    is walked in the order of [elements].) *)
Definition setMutationObserver (s : scanner) : scanner :=
  match pendingShadowRoots s with
  | Some pending =>
      logged (DebugNum "pending shadow roots" (size pending))
        {| audioBoolean := audioBoolean s;
           mutationObserver := Some (elements pending);
           pendingShadowRoots := Some ∅; console := console s |}
  | None =>
      {| audioBoolean := audioBoolean s; mutationObserver := Some [];
         pendingShadowRoots := None; console := console s |}
  end.

End MediaElementObserver.

(** *** Stating the properties *)

Section Statements.

Context `{Externals}.

(** The children of the open shadow root of a node. *)
Definition shadowChildren (n : node) : list node :=
  match shadowRoot n with
  | Some (_, children) => children
  | None => []
  end.

(** The nodes [traverse] visits from a node, in order. *)
Fixpoint visit (n : node) : list node :=
  n :: (flat_map (λ c, if descend c then visit c else []) (childNodes n)
        ++ match shadowRoot n with
           | Some (_, children) =>
               flat_map (λ c, if descend c then visit c else []) children
           | None => []
           end)%list.

(** Those of them that are reached through light children only. *)
Fixpoint light (n : node) : list node :=
  n :: flat_map (λ c, if descend c then light c else []) (childNodes n).

(** Those of them that lie behind a shadow boundary. *)
Fixpoint encapsulated (n : node) : list node :=
  (flat_map (λ c, if descend c then encapsulated c else []) (childNodes n)
   ++ match shadowRoot n with
      | Some (_, children) =>
          flat_map (λ c, if descend c then visit c else []) children
      | None => []
      end)%list.

(** Every node of the tree of a document, shadow trees included. *)
Fixpoint subtree (n : node) : list node :=
  n :: (flat_map subtree (childNodes n)
        ++ match shadowRoot n with
           | Some (_, children) => flat_map subtree children
           | None => []
           end)%list.

(** A media element the scans report: an element of a wanted name that the
    adapter does not exclude. *)
Definition found (s : scanner) (y : node) : Prop :=
  nodeType y = ELEMENT_NODE
  ∧ nodeName y ∈ mediaTagNodeNames (audioBoolean s)
  ∧ shouldIgnoreVideo y = false.

(** A frame that gives no document: reading it throws, or it has none. *)
Definition closed_frame (f : node) : Prop :=
  crossOrigin f = true ∨ contentDocument f = None.

Definition hidden (media : node) : Prop :=
  display (style media) = "none"
  ∨ visibility (style media) = "hidden"
  ∨ opacity (style media) = "0".

Definition too_small (media : node) : Prop :=
  (width (boundingClientRect media) < 50 # 1)%Q
  ∨ (height (boundingClientRect media) < 50 # 1)%Q.

#[global] Instance found_dec (s : scanner) (y : node) : Decision (found s y).
Proof. unfold found. apply _. Defined.

(** An element of a wanted name that the validator accepts. *)
Definition eligible (s : scanner) (y : node) : Prop :=
  nodeType y = ELEMENT_NODE
  ∧ nodeName y ∈ mediaTagNodeNames (audioBoolean s)
  ∧ (isValidMediaElement y s).1 = true.

#[global] Instance eligible_dec (s : scanner) (y : node) : Decision (eligible s y).
Proof. unfold eligible. apply _. Defined.

End Statements.

(** *** Sample documents *)

(** An adapter that adds nothing and excludes nothing. *)
Definition quiet_site : Externals :=
  {| detectSpecialVideos := λ _, [];
     shouldIgnoreVideo := λ _, false;
     getVideoContainerSelectors := [];
     querySelectorAll := λ _ _, Some [];
     findMediaElements := λ _ _, [] |}.

(** An adapter that excludes every element. *)
Definition strict_site : Externals :=
  {| detectSpecialVideos := λ _, [];
     shouldIgnoreVideo := λ _, true;
     getVideoContainerSelectors := [];
     querySelectorAll := λ _ _, Some [];
     findMediaElements := λ _ _, [] |}.

Definition shown : computed_style :=
  {| display := "block"; visibility := "visible"; opacity := "1" |}.

Definition not_displayed : computed_style :=
  {| display := "none"; visibility := "visible"; opacity := "1" |}.

Definition el (id : nat) (name : string) (st : computed_style) (ready : nat)
    (w h : Q) (children : list node) (sr : option (nat * list node)) : node :=
  {| nid := id; nodeName := name; nodeType := ELEMENT_NODE; isConnected := true;
     style := st; readyState := ready;
     boundingClientRect := {| width := w; height := h |};
     childNodes := children; shadowRoot := sr; crossOrigin := false;
     contentDocument := None |}.

Definition doc (children : list node) : node :=
  {| nid := 0; nodeName := "#document"; nodeType := 9; isConnected := true;
     style := shown; readyState := 0;
     boundingClientRect := {| width := 0; height := 0 |};
     childNodes := children; shadowRoot := None; crossOrigin := false;
     contentDocument := None |}.

Definition new_scanner : scanner :=
  {| audioBoolean := false; mutationObserver := None;
     pendingShadowRoots := None; console := [] |}.

(** A document whose only video is not displayed. *)
Definition hidden_video_page : node :=
  doc [el 1 "HTML" shown 0 800 600
         [el 2 "BODY" shown 0 800 600
            [el 3 "VIDEO" not_displayed 4 640 360 [] None] None] None].

(** A document with one video in the light tree and one behind a shadow
    boundary. *)
Definition two_video_page : node :=
  doc [el 1 "HTML" shown 0 800 600
         [el 2 "BODY" shown 0 800 600
            [el 3 "VIDEO" shown 4 640 360 [] None;
             el 4 "DIV" shown 0 640 360 []
               (Some (10, [el 5 "VIDEO" shown 4 640 360 [] None]))] None] None].

(** A small video that is still loading. *)
Definition loading_thumbnail : node := el 7 "VIDEO" shown 1 10 10 [] None.

(** *** Boundaries, frames and selectors *)

(** The nodes the closure [traverse] gets to from a root: the root, and
    from a node it got to, each child, light or shadow, that is an element
    and has none of the ignored names. *)
Inductive reaches (root : node) : node → Prop :=
| reaches_root : reaches root root
| reaches_child (n c : node) :
    reaches root n → c ∈ (childNodes n ++ shadowChildren n)%list →
    descend c = true → reaches root c.

(** The shadow roots that the hosts of a list carry. *)
Definition roots_of (l : list node) : list nat :=
  omap (λ n, fst <$> shadowRoot n) l.

(** The shadow roots kept for later; none when the set was never made. *)
Definition pending (s : scanner) : gset nat := default ∅ (pendingShadowRoots s).

(** The state of the scanner after some scanning from [s]: the audio
    setting stays, the log grows at its end, and the shadow roots go to
    the observer when one is installed and are kept for later otherwise. *)
Definition continues (s s' : scanner) : Prop :=
  audioBoolean s' = audioBoolean s
  ∧ console s `prefix_of` console s'
  ∧ match mutationObserver s with
    | Some calls =>
        (∃ more, mutationObserver s' = Some (calls ++ more)%list)
        ∧ pendingShadowRoots s' = pendingShadowRoots s
    | None => mutationObserver s' = None ∧ pending s ⊆ pending s'
    end.

Section Isolation.

Context `{Externals}.

(** The candidates of the document scan: the media elements of the light
    tree, those the traversal gets to, and the adapter's special ones. *)
Definition candidate (d : node) (s : scanner) (x : node) : Prop :=
  x ∈ byTagName (mediaTagNodeNames (audioBoolean s)) d
  ∨ (reaches d x ∧ nodeName x ∈ mediaTagNodeNames (audioBoolean s))
  ∨ x ∈ detectSpecialVideos d.

(** What one frame adds to the frame scan. *)
Definition frame_media (s : scanner) (frame : node) : list node :=
  if crossOrigin frame then []
  else match contentDocument frame with
       | Some childDocument => (scanForMedia childDocument s).1
       | None => []
       end.

(** What one selector adds to the container scan, and the warnings the
    malformed selectors of a list leave. *)
Definition selector_media (d : node) (audioEnabled : bool) (selector : string)
    : list node :=
  match querySelectorAll d selector with
  | Some containers =>
      flat_map (λ container, findMediaElements container audioEnabled) containers
  | None => []
  end.

Definition selector_warnings (d : node) (selectors : list string) : list log_msg :=
  omap (λ selector, match querySelectorAll d selector with
                    | Some _ => None
                    | None => Some (Warn "Invalid selector" selector)
                    end) selectors.

End Isolation.

(** *** More sample documents *)

Definition frame (id : nat) (denied : bool) (content : option node) : node :=
  {| nid := id; nodeName := "IFRAME"; nodeType := ELEMENT_NODE; isConnected := true;
     style := shown; readyState := 0;
     boundingClientRect := {| width := 300; height := 150 |};
     childNodes := []; shadowRoot := None; crossOrigin := denied;
     contentDocument := content |}.

Definition framed_video : node := el 8 "VIDEO" shown 4 640 360 [] None.

(** A document with a frame that cannot be read, a frame that can, which
    holds one video, and a video of its own. *)
Definition framed_page : node :=
  doc [el 1 "HTML" shown 0 800 600
         [el 2 "BODY" shown 0 800 600
            [frame 3 true None;
             frame 4 false (Some (doc [el 7 "BODY" shown 0 300 150 [framed_video] None]));
             el 9 "VIDEO" shown 4 640 360 [] None] None] None].

(** An adapter with one malformed selector and one that selects the
    [DIV] elements. *)
Definition selective_site : Externals :=
  {| detectSpecialVideos := λ _, [];
     shouldIgnoreVideo := λ _, false;
     getVideoContainerSelectors := ["[["; "div"];
     querySelectorAll := λ d selector,
       if decide (selector = "div") then Some (byTagName ["DIV"] d) else None;
     findMediaElements := λ container audioEnabled,
       byTagName (mediaTagNodeNames audioEnabled) container |}.

Definition shadow_video : node := el 5 "VIDEO" shown 4 640 360 [] None.

Definition shadow_host : node :=
  el 4 "DIV" shown 0 640 360 [] (Some (10, [shadow_video])).

(** A document with a video inside a [DIV] and a video in the shadow tree
    of another. *)
Definition player_body : node :=
  el 2 "BODY" shown 0 800 600
    [el 6 "DIV" shown 0 640 360 [el 3 "VIDEO" shown 4 640 360 [] None] None;
     shadow_host] None.

Definition player_html : node := el 1 "HTML" shown 0 800 600 [player_body] None.

Definition player_document : node := doc [player_html].

End Scan.

(** ** Properties of the controller lifecycle *)

Module LifecycleProps.

Import Lifecycle.

(** *** Running a computation *)

Lemma bind_run {A B} (m : M A) (k : A → M B) (w : world) :
  (m ≫= k) w = match m w with
               | (Ok a, w1) => k a w1
               | (Throw e, w1) => (Throw e, w1)
               end.
Proof. reflexivity. Qed.

Lemma bind_ok_inv {A B} (m : M A) (k : A → M B) (w w' : world) (b : B) :
  (m ≫= k) w = (Ok b, w') → ∃ a w1, m w = (Ok a, w1) ∧ k a w1 = (Ok b, w').
Proof.
  rewrite bind_run. destruct (m w) as [[a|e] w1]; [eauto | discriminate].
Qed.

(** *** Relations that every step keeps *)

Section Keeps.

Context (R : relation world) `{!PreOrder R}.

Lemma keeps_ret {A} (a : A) : keeps R (mret a).
Proof. intros w. simpl. reflexivity. Qed.

Lemma keeps_throw {A} (e : JS.error) : keeps R (@throw A e).
Proof. intros w. simpl. reflexivity. Qed.

Lemma keeps_get : keeps R get.
Proof. intros w. simpl. reflexivity. Qed.

Lemma keeps_deref {A} (x : option A) : keeps R (deref x).
Proof. destruct x; [apply keeps_ret | apply keeps_throw]. Qed.

Lemma keeps_bind {A B} (m : M A) (k : A → M B) :
  keeps R m → (∀ a, keeps R (k a)) → keeps R (m ≫= k).
Proof.
  intros Hm Hk w. rewrite bind_run. specialize (Hm w).
  destruct (m w) as [[a|e] w1]; simpl in *; [|done].
  etrans; [exact Hm | apply Hk].
Qed.

Lemma keeps_modify (f : world → world) : (∀ w, R w (f w)) → keeps R (modify f).
Proof. intros Hf w. apply Hf. Qed.

Lemma keeps_forEach {A} (f : A → M unit) (l : list A) :
  (∀ a, keeps R (f a)) → keeps R (forEach f l).
Proof.
  intros Hf. induction l as [|a l IH]; simpl.
  - apply keeps_ret.
  - apply keeps_bind; [apply Hf | intros _; apply IH].
Qed.

End Keeps.

Lemma follows_refl {A V} (view : A → V) (m : gmap ref A) : follows view m m.
Proof. intros r a Ha. eauto. Qed.

Lemma follows_trans {A V} (view : A → V) (m1 m2 m3 : gmap ref A) :
  follows view m1 m2 → follows view m2 m3 → follows view m1 m3.
Proof.
  intros H12 H23 r a Ha.
  destruct (H12 r a Ha) as (a2 & Ha2 & E2).
  destruct (H23 r a2 Ha2) as (a3 & Ha3 & E3).
  exists a3. split; [done | congruence].
Qed.

Lemma follows_alter {A V} (view : A → V) (f : A → A) (r : ref) (m : gmap ref A) :
  (∀ a, view (f a) = view a) → follows view m (alter f r m).
Proof.
  intros Hf r' a Ha. destruct (decide (r = r')) as [->|Hne].
  - exists (f a). rewrite lookup_alter_eq, Ha. split; [done | apply Hf].
  - exists a. by rewrite lookup_alter_ne.
Qed.

Lemma follows_fresh {A V} (view : A → V) (x : A) (m : gmap ref A) :
  follows view m (<[fresh (dom m) := x]> m).
Proof.
  intros r a Ha. exists a. split; [|done].
  rewrite lookup_insert_ne; [done|].
  intros <-. apply (is_fresh (dom m)). apply elem_of_dom. eauto.
Qed.

#[local] Instance kept_preorder {V C U} (nview : dom_node → V) (cview : controller → C)
    (wview : world → U) : PreOrder (kept nview cview wview).
Proof.
  split.
  - intros w. repeat split; apply follows_refl.
  - intros w1 w2 w3 (N12 & C12 & W12) (N23 & C23 & W23). repeat split.
    + by eapply follows_trans.
    + by eapply follows_trans.
    + congruence.
Qed.

Section Kept.

Context {V C U : Type} (nview : dom_node → V) (cview : controller → C)
  (wview : world → U).

#[local] Abbreviation R := (kept nview cview wview).

Lemma kept_update_node (r : ref) (f : dom_node → dom_node) :
  (∀ n, nview (f n) = nview n) →
  (∀ g w, wview (with_nodes g w) = wview w) →
  keeps R (update_node r f).
Proof.
  intros Hf Hw w. repeat split; simpl.
  - by apply follows_alter.
  - apply follows_refl.
  - apply Hw.
Qed.

Lemma kept_createNode (k : node_kind) :
  (∀ g w, wview (with_nodes g w) = wview w) → keeps R (createNode k).
Proof.
  intros Hw w. repeat split; simpl.
  - apply follows_fresh.
  - apply follows_refl.
  - apply Hw.
Qed.

Lemma kept_update_ctrl (r : ref) (f : controller → controller) :
  (∀ c, cview (f c) = cview c) →
  (∀ g w, wview (with_ctrls g w) = wview w) →
  keeps R (update_ctrl r f).
Proof.
  intros Hf Hw w. repeat split; simpl.
  - apply follows_refl.
  - by apply follows_alter.
  - apply Hw.
Qed.

Lemma kept_elsewhere (f : world → world) :
  (∀ w, nodes (f w) = nodes w) → (∀ w, ctrls (f w) = ctrls w) →
  (∀ w, wview (f w) = wview w) → keeps R (modify f).
Proof.
  intros Hn Hc Hw w. repeat split; simpl.
  - rewrite Hn. apply follows_refl.
  - rewrite Hc. apply follows_refl.
  - apply Hw.
Qed.

Lemma kept_new_ctrl (x : controller) (w : world) :
  (∀ g w, wview (with_ctrls g w) = wview w) →
  R w (with_ctrls (insert (fresh (dom (ctrls w))) x) w).
Proof.
  intros Hw. repeat split; simpl.
  - apply follows_refl.
  - apply follows_fresh.
  - apply Hw.
Qed.

End Kept.

Ltac view_solve :=
  first
    [ intros; reflexivity
    | let n := fresh "n" in
      intro n; destruct n as [? ? ? ? [[]|] ?]; unfold on_media; simpl;
      repeat case_match; reflexivity
    | let c := fresh "c" in
      intro c; destruct c; simpl; reflexivity ].

Ltac keeps_step :=
  lazymatch goal with
  | |- keeps _ (mret _) => apply keeps_ret; tc_solve
  | |- keeps _ (throw _) => apply keeps_throw; tc_solve
  | |- keeps _ get => apply keeps_get; tc_solve
  | |- keeps _ (deref _) => apply keeps_deref; tc_solve
  | |- keeps _ (createNode _) => apply kept_createNode; [view_solve]
  | |- keeps _ (update_node _ _) => apply kept_update_node; [view_solve | view_solve]
  | |- keeps _ (update_ctrl _ _) => apply kept_update_ctrl; [view_solve | view_solve]
  | |- keeps _ (modify _) => apply kept_elsewhere; [view_solve | view_solve | view_solve]
  | |- keeps _ (forEach _ _) => apply keeps_forEach; [tc_solve | intros ?]
  | |- keeps _ (mbind _ _) => apply keeps_bind; [tc_solve | | intros ?]
  | |- keeps _ (let _ := _ in _) => cbv zeta
  | |- keeps _ (match ?x with _ => _ end) => destruct x
  | |- keeps _ _ =>
      progress unfold createElement, createDocumentFragment, log, get_media, get_node,
        get_ctrl, get_settings, update_media, detach, appendChild, insertBefore,
        classList_add, classList_remove, addEventListener, removeEventListener,
        dispatchEvent, observe, disconnect, getKeyBinding, setKeyBinding,
        addMediaElement, removeMediaElement, setSpeed, createShadowDOM,
        new_MutationObserver, initializeSpeed, resolveTargetSpeed, applySpeed,
        initializeControls, insertIntoDOM, setupEventHandlers, setupMutationObserver
  end.

Ltac keeps_auto := repeat keeps_step.

Lemma keeps_run {A} (R : relation world) (m : M A) (w w' : world) (r : outcome A) :
  keeps R m → m w = (r, w') → R w w'.
Proof. intros K E. specialize (K w). by rewrite E in K. Qed.

Lemma keeps_then {A} (R : relation world) `{!Transitive R} (m : M A)
    (w0 w w' : world) (r : outcome A) :
  R w0 w → keeps R m → m w = (r, w') → R w0 w'.
Proof. intros R0 K E. etrans; [exact R0 | by eapply keeps_run]. Qed.

Lemma bind_of_run {A B} (m : M A) (k : A → M B) (w w1 : world) (a : A) :
  m w = (Ok a, w1) → (m ≫= k) w = k a w1.
Proof. intros E. by rewrite bind_run, E. Qed.

Lemma bind_of_throw {A B} (m : M A) (k : A → M B) (w w1 : world) (e : JS.error) :
  m w = (Throw e, w1) → (m ≫= k) w = (Throw e, w1).
Proof. intros E. by rewrite bind_run, E. Qed.

Lemma bind_get_run {B} (k : world → M B) (w : world) : (get ≫= k) w = k w w.
Proof. reflexivity. Qed.

Lemma bind_modify_run {B} (f : world → world) (k : unit → M B) (w : world) :
  (modify f ≫= k) w = k tt (f w).
Proof. reflexivity. Qed.

Lemma bind_ret_run {A B} (a : A) (k : A → M B) (w : world) : (mret a ≫= k) w = k a w.
Proof. reflexivity. Qed.

Lemma bind_log_run {B} (m : log_msg) (k : unit → M B) (w : world) :
  (log m ≫= k) w = k tt (with_console (λ l, (l ++ [m])%list) w).
Proof. reflexivity. Qed.

Lemma get_node_run (r : ref) (w : world) (n : dom_node) :
  nodes w !! r = Some n → get_node r w = (Ok n, w).
Proof. intros E. unfold get_node. rewrite bind_run. simpl. by rewrite E. Qed.

Lemma get_media_run (r : ref) (w : world) (n : dom_node) (v : media_el) :
  nodes w !! r = Some n → media n = Some v → get_media r w = (Ok v, w).
Proof.
  intros E Ev. unfold get_media. rewrite bind_run, (get_node_run r w n E).
  by rewrite Ev.
Qed.

Lemma get_ctrl_run (r : ref) (w : world) (c : controller) :
  ctrls w !! r = Some c → get_ctrl r w = (Ok c, w).
Proof. intros E. unfold get_ctrl. rewrite bind_run. simpl. by rewrite E. Qed.

Lemma get_settings_run (w : world) : get_settings w = (Ok (cfg_settings (cfg w)), w).
Proof. reflexivity. Qed.

Lemma getKeyBinding_run (a : string) (w : world) :
  getKeyBinding a w = (Ok (default None (keyBindings (cfg w) !! a)), w).
Proof. reflexivity. Qed.

Lemma get_node_ok_inv (r : ref) (w w' : world) (n : dom_node) :
  get_node r w = (Ok n, w') → w' = w ∧ nodes w !! r = Some n.
Proof.
  unfold get_node. rewrite bind_run. simpl.
  destruct (nodes w !! r); simpl; intros [= <- <-]; done.
Qed.

Lemma get_media_ok_inv (r : ref) (w w' : world) (v : media_el) :
  get_media r w = (Ok v, w') →
  w' = w ∧ ∃ n, nodes w !! r = Some n ∧ media n = Some v.
Proof.
  unfold get_media. intros (n & w1 & Hn & Hv)%bind_ok_inv.
  apply get_node_ok_inv in Hn as [-> Hn].
  destruct (media n) eqn:E; simpl in Hv; [|discriminate].
  injection Hv as <- <-. eauto.
Qed.

Lemma get_ctrl_ok_inv (r : ref) (w w' : world) (c : controller) :
  get_ctrl r w = (Ok c, w') → w' = w ∧ ctrls w !! r = Some c.
Proof.
  unfold get_ctrl. rewrite bind_run. simpl.
  destruct (ctrls w !! r); simpl; intros [= <- <-]; done.
Qed.

Ltac bind_inv H :=
  repeat match type of H with
         | (_ ≫= _) _ = (Ok _, _) =>
             let a := fresh "a" in
             let w := fresh "w" in
             let E := fresh "E" in
             apply bind_ok_inv in H as (a & w & E & H)
         end.

Tactic Notation "ran" constr(R) hyp(E) tactic3(tac) :=
  lazymatch type of E with
  | ?m ?w = (_, ?w') =>
      let K := fresh "K" in
      assert (R w w') as K by (eapply (keeps_run R m); [tac | exact E])
  end.

Tactic Notation "exec" constr(L) := rewrite (bind_of_run _ _ _ _ _ L); cbv beta.

Section Methods.

Context `{Externals}.

#[local] Abbreviation media_kept := (kept has_media (λ _ : controller, tt) (λ _ : world, tt)).

Lemma create_attached (w w' : world) (target c : ref) (p : option ref) :
  create target p w = (Ok c, w') → attached w' target c.
Proof.
  unfold create. intros (t & w1 & Ht & Hk)%bind_ok_inv.
  apply get_media_ok_inv in Ht as (-> & n & Hn & Hv).
  destruct (vsc t) as [existing|] eqn:Evsc.
  { injection Hk as <- <-. by exists n, t. }
  bind_inv Hk.
  injection E as <- <-. injection Hk as <- <-.
  apply get_node_ok_inv in E0 as [-> _].
  set (this := fresh (dom (ctrls w))) in *.
  assert (media_kept w w8) as (K & _ & _).
  { assert (media_kept w w2) by (injection E1 as _ <-; by apply kept_new_ctrl).
    ran media_kept E2 keeps_auto.
    ran media_kept E3 keeps_auto.
    ran media_kept E4 keeps_auto.
    ran media_kept E5 keeps_auto.
    ran media_kept E6 keeps_auto.
    ran media_kept E7 keeps_auto.
    repeat (etrans; [eassumption|]). reflexivity. }
  destruct (K target n Hn) as (n' & Hn' & Hm).
  unfold has_media in Hm. rewrite Hv in Hm.
  destruct (media n') as [v'|] eqn:Ev'; [clear Hm | discriminate].
  injection E8 as _ <-. injection E9 as _ <-.
  exists (on_media (set_vsc (Some this)) n'), (set_vsc (Some this) v').
  simpl. rewrite lookup_alter_eq, Hn'. unfold on_media. simpl. by rewrite Ev'.
Qed.

(** C4. [create] is idempotent: on an element that already has a
    controller attached it returns that controller and leaves the whole
    world as it is (registry, overlay, subscriptions, observers, log); and
    once [create] has returned a controller, calling [create] again, with
    any parent hint, returns the same controller and changes nothing. *)
Theorem create_idempotent (w w' : world) (target c : ref) (p p' : option ref) :
  (attached w target c → create target p w = (Ok c, w))
  ∧ (create target p w = (Ok c, w') →
     attached w' target c ∧ create target p' w' = (Ok c, w')).
Proof.
  assert (∀ w0 p0, attached w0 target c → create target p0 w0 = (Ok c, w0)) as A.
  { intros w0 p0 (n & v & Hn & Hv & Hc). unfold create.
    rewrite bind_run, (get_media_run _ _ _ _ Hn Hv). by rewrite Hc. }
  split; [by auto|].
  intros Hc. apply create_attached in Hc. auto.
Qed.

Lemma resolveTargetSpeed_run (w : world) (this : ref) (c : controller)
    (n : dom_node) (v : media_el) :
  ctrls w !! this = Some c → nodes w !! video c = Some n → media n = Some v →
  ∃ w1, resolveTargetSpeed this w = (Ok (targetSpeed (cfg_settings (cfg w)) v), w1)
        ∧ nodes w1 = nodes w ∧ ctrls w1 = ctrls w ∧ observers w1 = observers w
        ∧ dispatched w1 = dispatched w ∧ setSpeedCalls w1 = setSpeedCalls w
        ∧ cfg_settings (cfg w1) = cfg_settings (cfg w)
        ∧ mediaElements (cfg w1) = mediaElements (cfg w)
        ∧ keyBindings (cfg w1) = <["reset" := resetBinding w v]> (keyBindings (cfg w)).
Proof.
  intros Hc Hn Hv. unfold resolveTargetSpeed, resetBinding, targetSpeed, storedVideoSpeed.
  exec (get_ctrl_run _ _ _ Hc). exec (get_media_run _ _ _ _ Hn Hv).
  exec (get_settings_run w).
  destruct (rememberSpeed (cfg_settings (cfg w))).
  - destruct (JS.truthy _); [|destruct (lastSpeed _) as [l|]; [destruct (JS.truthy l)|]];
      eexists; (split; [reflexivity|]); repeat split.
  - eexists. split; [reflexivity|]. repeat split.
Qed.

Lemma applySpeed_run (w : world) (this : ref) (c : controller)
    (n : dom_node) (v : media_el) (t : Q) :
  ctrls w !! this = Some c → nodes w !! video c = Some n → media n = Some v →
  applySpeed this t w =
    (Ok tt,
     if forceLastSavedSpeed (cfg_settings (cfg w)) && JS.strict_neq t 1 then
       with_dispatched (λ l, (l ++ [(video c, ratechange t)])%list)
         (with_console (λ l, ((l ++ [MsgNum "Setting initial playbackRate to: " t])
                                ++ [Msg "forceLastSavedSpeed enabled - dispatching ratechange event"])%list) w)
     else
       with_nodes (alter (on_media (set_playbackRate t)) (video c))
         (with_console (λ l, (l ++ [MsgNum "Setting initial playbackRate to: " t])%list) w)).
Proof.
  intros Hc Hn Hv. unfold applySpeed.
  exec (get_ctrl_run _ _ _ Hc). exec (get_settings_run w).
  rewrite bind_log_run.
  destruct (forceLastSavedSpeed _ && JS.strict_neq t 1).
  - rewrite bind_log_run. unfold dispatchEvent.
    erewrite bind_of_run; [|by eapply get_media_run]. reflexivity.
  - erewrite bind_of_run; [|by eapply get_media_run]. reflexivity.
Qed.

#[local] Abbreviation rates_kept :=
  (kept rate_view (λ _ : controller, tt) (λ w : world, (dispatched w, cfg w))).

(** What [create] has done to a new element once [initializeSpeed] is over. *)
Lemma create_new_run (w : world) (target : ref) (p : option ref)
    (n : dom_node) (v : media_el) :
  nodes w !! target = Some n → media n = Some v → vsc v = None →
  let s := cfg_settings (cfg w) in
  let t := targetSpeed s v in
  let this := fresh (dom (ctrls w)) in
  ∃ w3, create target p w = construct_rest this target w3
        ∧ ctrls w3 = <[this := new_controller w target p n]> (ctrls w)
        ∧ observers w3 = observers w
        ∧ setSpeedCalls w3 = setSpeedCalls w
        ∧ cfg_settings (cfg w3) = s
        ∧ mediaElements (cfg w3) = {[target]} ∪ mediaElements (cfg w)
        ∧ keyBindings (cfg w3) = <["reset" := resetBinding w v]> (keyBindings (cfg w))
        ∧ if forceLastSavedSpeed s && JS.strict_neq t 1 then
            nodes w3 = nodes w
            ∧ dispatched w3 = (dispatched w ++ [(target, ratechange t)])%list
          else
            nodes w3 = alter (on_media (set_playbackRate t)) target (nodes w)
            ∧ dispatched w3 = dispatched w.
Proof.
  intros Hn Hv Hvsc s t this. unfold create.
  exec (get_media_run _ _ _ _ Hn Hv). rewrite Hvsc, bind_get_run.
  exec (get_node_run _ _ _ Hn). rewrite bind_modify_run.
  unfold addMediaElement. rewrite bind_modify_run.
  fold this. fold (new_controller w target p n).
  match goal with |- context [(_ ≫= _) ?w0] => set (w2 := w0) end.
  assert (ctrls w2 !! this = Some (new_controller w target p n)) as Hthis
    by apply lookup_insert_eq.
  destruct (resolveTargetSpeed_run w2 this _ n v Hthis Hn Hv)
    as (w2' & E1 & N1 & C1 & O1 & D1 & S1 & G1 & M1 & B1).
  simpl in *.
  pose proof (applySpeed_run w2' this _ n v t
                ltac:(by rewrite C1) ltac:(by rewrite N1) Hv) as E2.
  fold s t in E1, E2.
  match type of E2 with _ = (_, ?w0) => set (w3 := w0) in * end.
  assert (initializeSpeed this w2 = (Ok tt, w3)) as E.
  { unfold initializeSpeed. by rewrite (bind_of_run _ _ _ _ _ E1). }
  exec E. exists w3. split; [reflexivity|].
  subst w3. rewrite G1. fold s.
  destruct (forceLastSavedSpeed s && JS.strict_neq t 1); simpl;
    rewrite ?N1, ?D1, ?G1, ?M1, ?B1, ?C1, ?O1, ?S1; repeat split; congruence.
Qed.

Lemma create_speed (w : world) (target : ref) (p : option ref)
    (n : dom_node) (v : media_el) :
  nodes w !! target = Some n → media n = Some v → vsc v = None →
  let s := cfg_settings (cfg w) in
  let t := targetSpeed s v in
  ∃ w3, rates_kept w3 (create target p w).2
        ∧ cfg_settings (cfg w3) = s
        ∧ mediaElements (cfg w3) = {[target]} ∪ mediaElements (cfg w)
        ∧ keyBindings (cfg w3) = <["reset" := resetBinding w v]> (keyBindings (cfg w))
        ∧ if forceLastSavedSpeed s && JS.strict_neq t 1 then
            nodes w3 = nodes w
            ∧ dispatched w3 = (dispatched w ++ [(target, ratechange t)])%list
          else
            nodes w3 = alter (on_media (set_playbackRate t)) target (nodes w)
            ∧ dispatched w3 = dispatched w.
Proof.
  intros Hn Hv Hvsc s t.
  destruct (create_new_run w target p n v Hn Hv Hvsc)
    as (w3 & E & _ & _ & _ & ? & ? & ? & ?).
  exists w3. rewrite E. split; [|done].
  assert (keeps rates_kept (construct_rest (fresh (dom (ctrls w))) target)) as K
    by (unfold construct_rest; keeps_auto).
  apply K.
Qed.

Lemma createNode_run (k : node_kind) (w : world) :
  createNode k w
  = (Ok (fresh (dom (nodes w))),
     with_nodes (insert (fresh (dom (nodes w))) (new_node k)) w).
Proof. reflexivity. Qed.

Lemma classList_add_run (w : world) (r : ref) (cl : string) (n : dom_node) :
  nodes w !! r = Some n →
  classList_add r cl w
  = (Ok tt, with_nodes (alter (λ n, if bool_decide (cl ∈ classList n) then n
                                    else set_classList (classList n ++ [cl])%list n) r) w).
Proof. intros Hn. unfold classList_add. exec (get_node_run _ _ _ Hn). reflexivity. Qed.

Lemma createShadowDOM_run (w : world) (r : ref) (o : shadow_init) (n : dom_node) :
  nodes w !! r = Some n →
  createShadowDOM r o w = (Ok tt, with_nodes (alter (set_shadow (Some o)) r) w).
Proof. intros Hn. unfold createShadowDOM. exec (get_node_run _ _ _ Hn). reflexivity. Qed.

Ltac lookup_new :=
  simpl; rewrite ?lookup_alter_eq, lookup_insert_eq; reflexivity.

(** The overlay as [initializeControls] has built it when it is about to
    insert it: a new detached element, marked for a missing source exactly
    when the current source of the element is empty. *)
Lemma overlay_built (w : world) (this : ref) (c0 : controller)
    (n : dom_node) (v : media_el) :
  ctrls w !! this = Some c0 → nodes w !! video c0 = Some n → media n = Some v →
  let wrapper := fresh (dom (nodes w)) in
  ∃ wB X, initializeControls this w = overlay_rest this wrapper wB
    ∧ nodes wB = <[wrapper := X]> (nodes w)
    ∧ kind X = ElementNode ∧ parentNode X = None ∧ childNodes X = []
    ∧ media X = None
    ∧ ("vsc-nosource" ∈ classList X ↔ currentSrc v = "")
    ∧ ctrls wB = ctrls w ∧ observers wB = observers w ∧ cfg wB = cfg w
    ∧ dispatched wB = dispatched w ∧ setSpeedCalls wB = setSpeedCalls w.
Proof.
  intros Hc Hn Hv wrapper. unfold initializeControls.
  rewrite bind_log_run. set (w0 := with_console _ w).
  exec (get_ctrl_run this w0 c0 Hc). exec (get_media_run _ w0 n v Hn Hv).
  rewrite bind_log_run. unfold createElement.
  erewrite (bind_of_run _ _ _ _ _ (createNode_run _ _)). cbv beta.
  change (fresh (dom (nodes _))) with wrapper.
  erewrite bind_of_run; [cbv beta | eapply classList_add_run; lookup_new].
  unfold JS.truthy_str.
  destruct (decide (currentSrc v = "")) as [Es|Es].
  - erewrite bind_of_run; [cbv beta | eapply classList_add_run; lookup_new].
    erewrite (bind_of_run _ _ _ _ _ (get_settings_run _)). cbv beta.
    destruct (startHidden _).
    + erewrite bind_of_run; [cbv beta | eapply classList_add_run; lookup_new].
      erewrite bind_of_run; [cbv beta | eapply createShadowDOM_run; lookup_new].
      eexists _, _. split; [reflexivity|]. simpl. rewrite !alter_insert_eq.
      split; [reflexivity|]. simpl. repeat split; try done. intros _. set_solver.
    + erewrite bind_of_run; [cbv beta | eapply classList_add_run; lookup_new].
      erewrite bind_of_run; [cbv beta | eapply createShadowDOM_run; lookup_new].
      eexists _, _. split; [reflexivity|]. simpl. rewrite !alter_insert_eq.
      split; [reflexivity|]. simpl. repeat split; try done. intros _. set_solver.
  - rewrite bind_ret_run.
    erewrite (bind_of_run _ _ _ _ _ (get_settings_run _)). cbv beta.
    destruct (startHidden _).
    + erewrite bind_of_run; [cbv beta | eapply classList_add_run; lookup_new].
      erewrite bind_of_run; [cbv beta | eapply createShadowDOM_run; lookup_new].
      eexists _, _. split; [reflexivity|]. simpl. rewrite !alter_insert_eq.
      split; [reflexivity|]. simpl. repeat split; try done. set_solver.
    + erewrite bind_of_run; [cbv beta | eapply classList_add_run; lookup_new].
      erewrite bind_of_run; [cbv beta | eapply createShadowDOM_run; lookup_new].
      eexists _, _. split; [reflexivity|]. simpl. rewrite !alter_insert_eq.
      split; [reflexivity|]. simpl. repeat split; try done. set_solver.
Qed.

Lemma rate_follows (w3 w' : world) (e : ref) (n3 : dom_node) :
  follows rate_view (nodes w3) (nodes w') → nodes w3 !! e = Some n3 →
  rate w' e = playbackRate <$> media n3.
Proof.
  intros F Hn3. destruct (F e n3 Hn3) as (n' & Hn' & Hr).
  unfold rate. rewrite Hn'. simpl. unfold rate_view in Hr.
  destruct (media n') as [v'|], (media n3) as [v3|]; simpl in *; congruence.
Qed.



Lemma mediaEventAction_run (w : world) (this target : ref)
    (n : dom_node) (t : media_el) :
  nodes w !! target = Some n → media n = Some t →
  let s := cfg_settings (cfg w) in
  let storedSpeed := JS.or_num (stored_speed s (getBaseURL (currentSrc t))) 1 in
  ∃ w', mediaEventAction this target w = (Ok tt, w')
        ∧ nodes w' = nodes w ∧ ctrls w' = ctrls w ∧ observers w' = observers w
        ∧ dispatched w' = dispatched w
        ∧ setSpeedCalls w' = (setSpeedCalls w ++ [(target, storedSpeed)])%list
        ∧ cfg_settings (cfg w') = s
        ∧ mediaElements (cfg w') = mediaElements (cfg w)
        ∧ keyBindings (cfg w') =
            if rememberSpeed s then keyBindings (cfg w)
            else <["reset" := default None (keyBindings (cfg w) !! "fast")]>
                   (keyBindings (cfg w)).
Proof.
  intros Hn Ht s storedSpeed. unfold mediaEventAction.
  exec (get_media_run _ _ _ _ Hn Ht). exec (get_settings_run w).
  fold s. fold storedSpeed.
  assert (JS.truthy storedSpeed = true) as Htr.
  { unfold storedSpeed, JS.or_num.
    destruct (stored_speed _ _) as [q|]; [|reflexivity].
    by destruct (JS.truthy q) eqn:E. }
  destruct (rememberSpeed s); simpl negb; cbv iota.
  - eexists. split; [reflexivity|]. repeat split.
  - rewrite Htr. simpl negb. cbv iota.
    eexists. split; [reflexivity|]. repeat split.
Qed.

Lemma deliver_run (w w' : world) (this target : ref) (type : string)
    (n : dom_node) (t : media_el) :
  nodes w !! target = Some n → media n = Some t →
  listeners t = [("play", HandlePlay this); ("seeked", HandleSeek this)] →
  type = "play" ∨ type = "seeked" →
  mediaEventAction this target w = (Ok tt, w') →
  deliver type target w = (Ok tt, w').
Proof.
  intros Hn Ht Hl Hty E. unfold deliver.
  exec (get_media_run _ _ _ _ Hn Ht). rewrite Hl.
  destruct Hty as [-> | ->]; simpl; by exec E.
Qed.

(** C3, as amended. While remember-speed is disabled, a play or seek
    notification delivered at a controlled element runs the handler once;
    the handler passes to [setSpeed] the rate stored for the normalized
    current source when there is one (and it is not zero), and 1.0 only
    when there is none; and it sets the reset key binding to the configured
    fast rate on every such event. *)
Theorem handler_when_not_remembering (w : world) (this target : ref)
    (n : dom_node) (t : media_el) (type : string) :
  nodes w !! target = Some n → media n = Some t →
  listeners t = [("play", HandlePlay this); ("seeked", HandleSeek this)] →
  type = "play" ∨ type = "seeked" →
  rememberSpeed (cfg_settings (cfg w)) = false →
  ∃ w', deliver type target w = (Ok tt, w')
        ∧ mediaEventAction this target w = (Ok tt, w')
        ∧ setSpeedCalls w' =
            (setSpeedCalls w
             ++ [(target, JS.or_num (stored_speed (cfg_settings (cfg w))
                                        (getBaseURL (currentSrc t))) 1)])%list
        ∧ keyBindings (cfg w') !! "reset"
          = Some (default None (keyBindings (cfg w) !! "fast")).
Proof.
  intros Hn Ht Hl Hty Hr.
  destruct (mediaEventAction_run w this target n t Hn Ht)
    as (w' & E & _ & _ & _ & _ & S & _ & _ & B).
  exists w'. split; [by eapply deliver_run|]. split; [done|]. split; [done|].
  rewrite B, Hr. apply lookup_insert_eq.
Qed.

End Methods.

(** *** Teardown *)

Lemma alter_view {A V} (view : A → V) (f : A → A) (i j : ref) (m : gmap ref A) :
  (∀ x, view (f x) = view x) → view <$> (alter f i m !! j) = view <$> (m !! j).
Proof.
  intros Hf. destruct (decide (i = j)) as [->|Hne].
  - rewrite lookup_alter_eq. destruct (m !! j); simpl; [by rewrite Hf | done].
  - by rewrite lookup_alter_ne.
Qed.

Lemma fmap_Some_view {A V} (view : A → V) (o : option A) (x : V) :
  view <$> o = Some x → ∃ a, o = Some a ∧ view a = x.
Proof. destruct o; simpl; intros [= <-]; eauto. Qed.

Section Teardown.

Context `{Externals}.

Lemma detach_run (w : world) (d : ref) (nd : dom_node) :
  nodes w !! d = Some nd →
  ∃ w', detach d w = (Ok tt, w')
        ∧ ctrls w' = ctrls w ∧ observers w' = observers w ∧ cfg w' = cfg w
        ∧ dispatched w' = dispatched w ∧ setSpeedCalls w' = setSpeedCalls w
        ∧ console w' = console w
        ∧ (∀ r, media <$> (nodes w' !! r) = media <$> (nodes w !! r))
        ∧ parentNode <$> (nodes w' !! d) = Some None.
Proof.
  intros Hd. unfold detach. exec (get_node_run _ _ _ Hd).
  destruct (parentNode nd) as [p|] eqn:Ep.
  - eexists. split; [reflexivity|]. simpl. repeat split.
    + intros r. rewrite !(alter_view media); [done | by intros [] ..].
    + rewrite lookup_alter_eq.
      destruct (alter _ p (nodes w) !! d) eqn:E; [done|].
      apply (f_equal (fmap media)) in E.
      rewrite (alter_view media) in E by (by intros []).
      by rewrite Hd in E.
  - exists w. repeat split. by rewrite Hd, <- Ep.
Qed.

Lemma on_media_id (g : media_el → media_el) (n : dom_node) :
  (∀ v, media n = Some v → g v = v) → on_media g n = n.
Proof.
  intros Hg. destruct n as [k p ch cl [v|] sh]; unfold on_media; simpl; [|done].
  by rewrite (Hg v).
Qed.

Lemma set_listeners_id (v : media_el) : set_listeners (listeners v) v = v.
Proof. by destruct v. Qed.

Lemma filter_absent {A} `{EqDecision A} (x : A) (l : list A) :
  x ∉ l → List.filter (λ y, negb (bool_decide (y = x))) l = l.
Proof.
  intros Hx. apply forallb_filter_id, forallb_forall. intros y Hy.
  apply negb_true_iff, bool_decide_eq_false. intros ->.
  by apply Hx, list_elem_of_In.
Qed.

Lemma filter_gone {A} `{EqDecision A} (x : A) (l : list A) :
  x ∉ List.filter (λ y, negb (bool_decide (y = x))) l.
Proof.
  intros [_ Hx]%list_elem_of_In%filter_In.
  apply negb_true_iff, bool_decide_eq_false in Hx. done.
Qed.

Lemma filter_still_absent {A} (p : A → bool) (x : A) (l : list A) :
  x ∉ l → x ∉ List.filter p l.
Proof. intros Hx [Hi _]%list_elem_of_In%filter_In. by apply Hx, list_elem_of_In. Qed.

Lemma unlisten_run (w : world) (e : ref) (type : string) (oh : option handler)
    (n : dom_node) (v : media_el) :
  nodes w !! e = Some n → media n = Some v →
  match oh with
  | Some h => removeEventListener e type h
  | None => mret tt
  end w = (Ok tt, with_nodes (alter (on_media (unlisten type oh)) e) w).
Proof.
  intros Hn Hv. destruct oh as [h|]; simpl.
  - unfold removeEventListener. exec (get_media_run _ _ _ _ Hn Hv). reflexivity.
  - unfold mret, M_ret, ret. f_equal. destruct w; unfold with_nodes; simpl. f_equal.
    symmetry. apply alter_id. intros x _. by apply on_media_id.
Qed.

Lemma unobserve_run (w : world) (o : option ref) :
  match o with
  | Some o => disconnect o
  | None => mret tt
  end w = (Ok tt, with_observers (unobserve o) w).
Proof. destruct o; [reflexivity|]. by destruct w. Qed.

Lemma overlay_out_run (w : world) (c : controller) :
  (∀ d, div c = Some d → is_Some (nodes w !! d)) →
  ∃ w', match div c with
        | Some d =>
            n ← get_node d;
            match parentNode n with
            | Some _ => detach d
            | None => mret tt
            end
        | None => mret tt
        end w = (Ok tt, w')
        ∧ ctrls w' = ctrls w ∧ observers w' = observers w ∧ cfg w' = cfg w
        ∧ dispatched w' = dispatched w ∧ setSpeedCalls w' = setSpeedCalls w
        ∧ console w' = console w
        ∧ (∀ r, media <$> (nodes w' !! r) = media <$> (nodes w !! r))
        ∧ (∀ d, div c = Some d → parentNode <$> (nodes w' !! d) = Some None)
        ∧ ((∀ d nd, div c = Some d → nodes w !! d = Some nd → parentNode nd = None)
           → w' = w).
Proof.
  intros Hd. destruct (div c) as [d|] eqn:Ed.
  2: { exists w. repeat split; done. }
  destruct (Hd d eq_refl) as [nd Hnd]. exec (get_node_run _ _ _ Hnd).
  destruct (parentNode nd) as [p|] eqn:Ep.
  - destruct (detach_run w d nd Hnd) as (w' & E & ? & ? & ? & ? & ? & ? & ? & ?).
    exists w'. repeat split; try done.
    + by intros ? [= <-].
    + intros Hno. specialize (Hno d nd eq_refl Hnd). congruence.
  - exists w. repeat split; try done. intros ? [= <-]. by rewrite Hnd, <- Ep.
Qed.

Lemma world_eq (w w' : world) :
  nodes w = nodes w' → ctrls w = ctrls w' → observers w = observers w' →
  cfg w = cfg w' → dispatched w = dispatched w' →
  setSpeedCalls w = setSpeedCalls w' → console w = console w' → w = w'.
Proof. destruct w, w'; simpl; intros; by subst. Qed.

(** What [remove] does to the store. *)
Lemma remove_run (w : world) (this : ref) (c : controller) :
  live w this c →
  ∃ w1, remove this w = (Ok tt, w1) ∧ live w1 this c ∧ destroyed w1 this c
        ∧ (destroyed w this c →
           w1 = with_console (λ l, (l ++ [Msg "Removing VideoController";
                                          Msg "VideoController removed successfully"])%list) w).
Proof.
  intros (Hc & (n & v & Hn & Hv) & Hd). unfold remove.
  rewrite bind_log_run. set (w0 := with_console _ w).
  exec (get_ctrl_run this w0 c Hc).
  destruct (overlay_out_run w0 c Hd)
    as (wa & Ea & Ca & Oa & Ga & Da & Sa & La & Ma & Pa & Ia).
  exec Ea.
  assert (∃ na, nodes wa !! video c = Some na ∧ media na = Some v) as (na & Hna & Hva).
  { specialize (Ma (video c)). simpl in Ma. rewrite Hn in Ma. simpl in Ma.
    rewrite Hv in Ma. by apply fmap_Some_view in Ma. }
  exec (unlisten_run wa (video c) "play" (handlePlay c) na v Hna Hva).
  set (P := unlisten "play" (handlePlay c)) in *.
  set (S := unlisten "seeked" (handleSeek c)) in *.
  assert (nodes (with_nodes (alter (on_media P) (video c)) wa) !! video c
          = Some (on_media P na)) as Hnb.
  { simpl. by rewrite lookup_alter_eq, Hna. }
  assert (media (on_media P na) = Some (P v)) as Hvb.
  { unfold on_media. simpl. by rewrite Hva. }
  exec (unlisten_run _ (video c) "seeked" (handleSeek c) _ _ Hnb Hvb).
  fold S.
  erewrite (bind_of_run _ _ _ _ _ (unobserve_run _ (targetObserver c))). cbv beta.
  unfold removeMediaElement. rewrite bind_modify_run.
  unfold update_media, update_node. rewrite bind_modify_run. cbv beta.
  eexists. split; [reflexivity|].
  assert (nodes wa !! video c = Some na →
          alter (on_media (set_vsc None)) (video c)
            (alter (on_media S) (video c) (alter (on_media P) (video c) (nodes wa)))
          !! video c = Some (on_media (set_vsc None) (on_media S (on_media P na)))) as Hlook.
  { intros E. by rewrite !lookup_alter_eq, E. }
  assert (media (on_media (set_vsc None) (on_media S (on_media P na)))
          = Some (set_vsc None (S (P v)))) as Hmed.
  { unfold on_media. simpl. by rewrite Hva. }
  assert (∀ d, parentNode <$>
               alter (on_media (set_vsc None)) (video c)
                 (alter (on_media S) (video c) (alter (on_media P) (video c) (nodes wa)))
               !! d = parentNode <$> nodes wa !! d) as Hpar.
  { intros d. by rewrite !(alter_view parentNode) by (by intros []). }
  split; [|split].
  - (* live *)
    split; [by simpl; rewrite Ca|]. split.
    + eexists _, _. simpl. split; [by apply Hlook | by apply Hmed].
    + intros d Ed. simpl. pose proof (Pa d Ed) as Hp. rewrite <- Hpar in Hp.
      apply fmap_Some_view in Hp as (nd & -> & _). eauto.
  - (* destroyed *)
    split; [|split; [|split]].
    + intros d Ed. simpl. pose proof (Pa d Ed) as Hp. rewrite <- Hpar in Hp.
      by apply fmap_Some_view in Hp.
    + eexists _, _. simpl. split; [by apply Hlook|]. split; [by apply Hmed|].
      split; [reflexivity|]. subst P S. split.
      * intros h ->. destruct (handleSeek c); simpl.
        -- apply filter_still_absent. apply filter_gone.
        -- apply filter_gone.
      * intros h ->. apply filter_gone.
    + intros o ob ->. simpl. rewrite Oa. simpl. rewrite lookup_alter_eq.
      destruct (observers w !! o); simpl; [|done]. by intros [= <-].
    + simpl. rewrite Ga. simpl. set_solver.
  - (* nothing left to do *)
    intros (Dd & (n' & v' & Hn' & Hv' & Hvsc & Hp & Hs) & Do & Dm).
    rewrite Hn in Hn'. injection Hn' as <-. rewrite Hv in Hv'. injection Hv' as <-.
    assert (wa = w0) as ->.
    { apply Ia. intros d nd Ed Hnd. destruct (Dd d Ed) as (nd' & Hnd' & Hpn).
      simpl in Hnd. congruence. }
    simpl in Hna. rewrite Hn in Hna. injection Hna as <-.
    assert (∀ type oh, (∀ h, oh = Some h → (type, h) ∉ listeners v) →
            unlisten type oh v = v) as Hun.
    { intros type [h|] Hh; [|done]. simpl.
      rewrite filter_absent by auto. apply set_listeners_id. }
    subst P S.
    assert (∀ type oh, (∀ h, oh = Some h → (type, h) ∉ listeners v) →
            on_media (unlisten type oh) n = n) as Hon.
    { intros type oh Hh. apply on_media_id. intros v0 E0.
      rewrite Hv in E0. injection E0 as <-. by apply Hun. }
    assert (on_media (set_vsc None) n = n) as HVn.
    { apply on_media_id. intros v0 E0. rewrite Hv in E0. injection E0 as <-.
      destruct v; simpl in *. by subst. }
    apply world_eq; simpl; try done.
    + rewrite (alter_id (on_media (unlisten "play" (handlePlay c))))
        by (intros x E0; rewrite Hn in E0; injection E0 as <-; by apply Hon).
      rewrite (alter_id (on_media (unlisten "seeked" (handleSeek c))))
        by (intros x E0; rewrite Hn in E0; injection E0 as <-; by apply Hon).
      by rewrite (alter_id (on_media (set_vsc None)))
        by (intros x E0; rewrite Hn in E0; by injection E0 as <-).
    + destruct (targetObserver c) as [o|] eqn:Eo; simpl; [|done].
      apply alter_id. intros ob Hob. pose proof (Do o ob eq_refl Hob) as Eob.
      destruct ob as [ow obs]. simpl in *. by subst.
    + destruct (cfg w) as [st kb me]. unfold set_mediaElements. simpl in *.
      f_equal. set_solver.
    + by rewrite <- app_assoc.
Qed.

(** C5. Teardown never raises and is idempotent: on a controller of the
    world [remove] returns normally (whether or not the overlay is still in
    the tree); a second [remove] returns normally and changes nothing but
    the two lines it logs; after it, [destroy] on the element is a no-op;
    and [destroy] on an element that has no controller, never created or
    already destroyed, is a no-op that raises nothing. *)
Theorem remove_twice_is_noop (w : world) (this : ref) (c : controller) :
  live w this c →
  ∃ w1, remove this w = (Ok tt, w1)
        ∧ remove this w1
          = (Ok tt, with_console
                      (λ l, (l ++ [Msg "Removing VideoController";
                                   Msg "VideoController removed successfully"])%list) w1)
        ∧ destroy (video c) w1 = (Ok tt, w1)
        ∧ (∀ e n v, nodes w !! e = Some n → media n = Some v → vsc v = None →
                    destroy e w = (Ok tt, w)).
Proof.
  intros L. destruct (remove_run w this c L) as (w1 & E1 & L1 & D1 & _).
  exists w1. split; [done|].
  destruct (remove_run w1 this c L1) as (w2 & E2 & _ & _ & N2).
  split; [by rewrite E2, (N2 D1)|].
  assert (∀ w0 e n v, nodes w0 !! e = Some n → media n = Some v → vsc v = None →
                      destroy e w0 = (Ok tt, w0)) as A.
  { intros w0 e n v Hn Hv Hvsc. unfold destroy.
    exec (get_media_run _ _ _ _ Hn Hv). by rewrite Hvsc. }
  split; [|by apply A].
  destruct D1 as (_ & (n & v & Hn & Hv & Hvsc & _) & _). by eapply A.
Qed.

(** *** The source observer *)

Lemma classList_remove_run (w : world) (r : ref) (cl : string) (n : dom_node) :
  nodes w !! r = Some n →
  classList_remove r cl w
  = (Ok tt, with_nodes (alter (λ n, set_classList
        (List.filter (λ x, negb (bool_decide (x = cl))) (classList n)) n) r) w).
Proof. intros Hn. unfold classList_remove. exec (get_node_run _ _ _ Hn). reflexivity. Qed.

Lemma onMutation_run (w : world) (this e d : ref) (c : controller)
    (nd n : dom_node) (t : media_el) (m : mutation) :
  ctrls w !! this = Some c → div c = Some d → nodes w !! d = Some nd →
  nodes w !! e = Some n → media n = Some t → source_mutation e m →
  ∃ w' nd', onMutation this m w = (Ok tt, w') ∧ only_overlay_classes w w'
            ∧ nodes w' !! d = Some nd'
            ∧ ("vsc-nosource" ∈ classList nd' ↔ src t = "" ∧ currentSrc t = "").
Proof.
  intros Hc Hd Hnd Hn Ht (Hty & Hat & Htg). unfold onMutation.
  replace (bool_decide (m_type m = "attributes")
           && (bool_decide (m_attributeName m = "src")
               || bool_decide (m_attributeName m = "currentSrc"))) with true.
  2: { rewrite bool_decide_eq_true_2 by done. destruct Hat as [-> | ->]; reflexivity. }
  rewrite bind_log_run. set (w0 := with_console _ w).
  exec (get_ctrl_run this w0 c Hc). rewrite Htg.
  exec (get_media_run e w0 n t Hn Ht). rewrite Hd. unfold deref.
  unfold JS.truthy_str.
  destruct (decide (src t = "")) as [Es|Es];
    [destruct (decide (currentSrc t = "")) as [Ec|Ec]|]; cbn [negb andb].
  - rewrite bind_ret_run, (classList_add_run w0 d _ nd Hnd).
    eexists _, _. split; [reflexivity|]. simpl. split; [|split].
    + repeat split; try reflexivity; intros r;
        apply alter_view; intros []; simpl; by case_match.
    + rewrite lookup_alter_eq, Hnd. reflexivity.
    + split; [done|]. intros _. case_bool_decide; [done|].
      simpl. apply elem_of_app. right. by apply list_elem_of_singleton.
  - rewrite bind_ret_run, (classList_remove_run w0 d _ nd Hnd).
    eexists _, _. split; [reflexivity|]. simpl. split; [|split].
    + repeat split; try reflexivity; intros r; apply alter_view; by intros [].
    + rewrite lookup_alter_eq, Hnd. reflexivity.
    + split; [|by intros [_ ?]]. simpl. intros Hin. by apply filter_gone in Hin.
  - rewrite bind_ret_run, (classList_remove_run w0 d _ nd Hnd).
    eexists _, _. split; [reflexivity|]. simpl. split; [|split].
    + repeat split; try reflexivity; intros r; apply alter_view; by intros [].
    + rewrite lookup_alter_eq, Hnd. reflexivity.
    + split; [|by intros [? _]]. simpl. intros Hin. by apply filter_gone in Hin.
Qed.

Lemma only_overlay_classes_trans (w1 w2 w3 : world) :
  only_overlay_classes w1 w2 → only_overlay_classes w2 w3 →
  only_overlay_classes w1 w3.
Proof.
  intros (? & ? & ? & ? & ? & M1 & P1) (? & ? & ? & ? & ? & M2 & P2).
  repeat split; congruence.
Qed.

Lemma observerCallback_run (mutations : list mutation) (w : world) (this e d : ref)
    (c : controller) (nd n : dom_node) (t : media_el) :
  ctrls w !! this = Some c → div c = Some d → nodes w !! d = Some nd →
  nodes w !! e = Some n → media n = Some t →
  mutations ≠ [] → Forall (source_mutation e) mutations →
  ∃ w' nd', observerCallback this mutations w = (Ok tt, w')
            ∧ only_overlay_classes w w'
            ∧ nodes w' !! d = Some nd'
            ∧ ("vsc-nosource" ∈ classList nd' ↔ src t = "" ∧ currentSrc t = "").
Proof.
  unfold observerCallback.
  revert w nd n. induction mutations as [|m l IH]; [done|].
  intros w nd n Hc Hd Hnd Hn Ht _ Hall.
  apply Forall_cons in Hall as [Hm Hl].
  destruct (onMutation_run w this e d c nd n t m Hc Hd Hnd Hn Ht Hm)
    as (w1 & nd1 & E1 & F1 & Hnd1 & Hcls1).
  simpl. exec E1. destruct l as [|m' l'].
  { exists w1, nd1. done. }
  pose proof F1 as (C1 & _ & _ & _ & _ & M1 & _).
  assert (∃ n1, nodes w1 !! e = Some n1 ∧ media n1 = Some t) as (n1 & Hn1 & Ht1).
  { specialize (M1 e). rewrite Hn in M1. simpl in M1. rewrite Ht in M1.
    by apply fmap_Some_view in M1. }
  destruct (IH w1 nd1 n1 ltac:(by rewrite C1) Hd Hnd1 Hn1 Ht1 ltac:(done) Hl)
    as (w2 & nd2 & E2 & F2 & Hnd2 & Hcls2).
  exists w2, nd2. split; [done|]. split; [|done].
  by eapply only_overlay_classes_trans.
Qed.

(** C9. When the source observer of a controlled element is handed a
    non-empty batch of source-attribute mutations of that element, its
    callback returns normally and afterwards the overlay carries the
    no-source class if and only if both the direct source and the current
    source of the element are empty; the element keeps its media state and
    back-reference, the controller, the observers and the configuration
    (with the registry) are unchanged. *)
Theorem source_mutation_tracks_no_source (w : world) (this e d : ref)
    (c : controller) (nd n : dom_node) (t : media_el) (mutations : list mutation) :
  ctrls w !! this = Some c → video c = e → div c = Some d →
  nodes w !! d = Some nd → nodes w !! e = Some n → media n = Some t →
  vsc t = Some this →
  mutations ≠ [] → Forall (source_mutation e) mutations →
  ∃ w' nd' n', observerCallback this mutations w = (Ok tt, w')
    ∧ nodes w' !! d = Some nd'
    ∧ ("vsc-nosource" ∈ classList nd' ↔ src t = "" ∧ currentSrc t = "")
    ∧ nodes w' !! e = Some n' ∧ media n' = Some t
    ∧ ctrls w' !! this = Some c
    ∧ observers w' = observers w ∧ cfg w' = cfg w.
Proof.
  intros Hc _ Hd Hnd Hn Ht _ Hne Hall.
  destruct (observerCallback_run mutations w this e d c nd n t Hc Hd Hnd Hn Ht Hne Hall)
    as (w' & nd' & E & (C & O & G & _ & _ & M & _) & Hnd' & Hcls).
  specialize (M e). rewrite Hn in M. simpl in M. rewrite Ht in M.
  apply fmap_Some_view in M as (n' & Hn' & Ht').
  exists w', nd', n'.
  split; [done|]. split; [done|]. split; [done|]. split; [done|].
  split; [done|]. split; [by rewrite C|]. done.
Qed.

End Teardown.

Section Overlay.

Context `{Externals}.

#[local] Abbreviation classes_kept := (kept classList div (λ _ : world, tt)).
#[local] Abbreviation srcs_kept := (kept src_view (λ _ : controller, tt) (λ _ : world, tt)).


Lemma appendChild_run (w : world) (p child : ref) (np nc : dom_node) :
  nodes w !! p = Some np → nodes w !! child = Some nc → parentNode nc = None →
  appendChild p child w
  = (Ok tt, with_nodes (alter (set_parentNode (Some p)) child)
              (with_nodes (alter (λ pn, set_childNodes (childNodes pn ++ [child])%list pn) p)
                 w)).
Proof.
  intros Hp Hc Hpar. unfold appendChild. exec (get_node_run _ _ _ Hp).
  unfold detach.
  erewrite bind_of_run; [cbv beta|].
  2: { exec (get_node_run _ _ _ Hc). rewrite Hpar. reflexivity. }
  reflexivity.
Qed.

Lemma fragment_ready (wB : world) (this wrapper : ref) (X : dom_node)
    (m : gmap ref dom_node) :
  nodes wB = <[wrapper := X]> m → parentNode X = None →
  let fragment := fresh (dom (nodes wB)) in
  ∃ wF, insertIntoDOM this wrapper wB = place_overlay this fragment wF
        ∧ nodes wF = <[fragment := set_childNodes [wrapper] (new_node FragmentNode)]>
                       (<[wrapper := set_parentNode (Some fragment) X]> m)
        ∧ fragment ≠ wrapper
        ∧ ctrls wF = ctrls wB ∧ observers wF = observers wB ∧ cfg wF = cfg wB
        ∧ dispatched wF = dispatched wB ∧ setSpeedCalls wF = setSpeedCalls wB
        ∧ console wF = console wB.
Proof.
  intros NB HX fragment.
  assert (fragment ≠ wrapper) as Hne.
  { intros Heq. apply (is_fresh (dom (nodes wB))). fold fragment. rewrite Heq, NB.
    apply elem_of_dom. rewrite lookup_insert_eq. eauto. }
  unfold insertIntoDOM, createDocumentFragment.
  erewrite (bind_of_run _ _ _ _ _ (createNode_run _ _)). cbv beta.
  fold fragment.
  erewrite bind_of_run; [cbv beta|].
  2: { eapply (appendChild_run _ fragment wrapper).
       - simpl. apply lookup_insert_eq.
       - simpl. rewrite lookup_insert_ne, NB, lookup_insert_eq by done. reflexivity.
       - done. }
  eexists. split; [reflexivity|]. simpl. rewrite NB. split; [|done].
  rewrite alter_insert_eq. simpl.
  rewrite alter_insert_ne, alter_insert_eq by done. reflexivity.
Qed.

Lemma place_overlay_throws (w : world) (this fragment : ref) (c : controller) :
  ctrls w !! this = Some c →
  unusable_point w (getControllerPosition (parent c) (video c)) →
  place_overlay this fragment w = (Throw JS.TypeError, w).
Proof.
  intros Hc Hbad. unfold place_overlay.
  exec (get_ctrl_run _ _ _ Hc). rewrite bind_get_run.
  set (pos := getControllerPosition (parent c) (video c)) in *.
  erewrite bind_of_throw; [reflexivity|].
  destruct Hbad as [Hnone | (pt & pn & Hpt & Hpn & Hpar & Hm)].
  - rewrite Hnone. by repeat case_decide.
  - assert (parentElement_of (nodes w) pn = None) as Hpe.
    { unfold parentElement_of. by rewrite Hpar. }
    rewrite Hpt.
    assert (∀ k : ref → M unit,
              (deref (Some pt) ≫= k) w = k pt w) as Hderef by reflexivity.
    destruct Hm as [Hm|Hm]; rewrite Hm; repeat (case_decide; try done);
      rewrite Hderef; exec (get_node_run _ _ _ Hpn); by rewrite Hpe.
Qed.


End Overlay.

(** *** The properties at the sample pages *)

Section SamplePages.

#[local] Existing Instance base_site.




(** C3, as stated, fails: with remember-speed off and a rate of 2 stored
    for the source, a play notification hands 2 to [setSpeed]. *)
Lemma play_passes_the_stored_rate :
  rememberSpeed (cfg_settings (cfg playing_page)) = false
  ∧ (deliver "play" 2 playing_page).1 = Ok tt
  ∧ setSpeedCalls (deliver "play" 2 playing_page).2 = [(2, (2 # 1)%Q)]
  ∧ Qeq_bool (2 # 1) 1 = false.
Proof. repeat split; vm_compute; reflexivity. Qed.

Lemma handler_when_not_remembering_witness :
  ∃ w', deliver "seeked" 2 playing_page = (Ok tt, w')
        ∧ keyBindings (cfg w') !! "reset" = Some (Some (18 # 10)%Q).
Proof.
  destruct (handler_when_not_remembering playing_page 0 2
              (video_node 1 (watched (clip movie movie)))
              (watched (clip movie movie)) "seeked")
    as (w' & E & _ & _ & B).
  - vm_compute; reflexivity.
  - vm_compute; reflexivity.
  - vm_compute; reflexivity.
  - right. reflexivity.
  - vm_compute; reflexivity.
  - exists w'. split; [exact E | exact B].
Defined.

Lemma create_idempotent_witness :
  create 2 (Some 1) playing_page = (Ok 0, playing_page).
Proof.
  refine (proj2 (proj2 (create_idempotent forgetful_page playing_page 2 0 None (Some 1)) _)).
  vm_compute; reflexivity.
Defined.

Lemma remove_twice_is_noop_witness :
  ∃ w1, remove 0 playing_page = (Ok tt, w1)
        ∧ remove 0 w1
          = (Ok tt, with_console
                      (λ l, (l ++ [Msg "Removing VideoController";
                                   Msg "VideoController removed successfully"])%list) w1)
        ∧ destroy 2 w1 = (Ok tt, w1).
Proof.
  destruct (remove_twice_is_noop playing_page 0 first_controller)
    as (w1 & E1 & E2 & E3 & _).
  - split; [vm_compute; reflexivity|]. split.
    + exists (video_node 1 (watched (clip movie movie))), (watched (clip movie movie)).
      split; vm_compute; reflexivity.
    + intros d [= <-]. vm_compute. eauto.
  - exists w1. split; [exact E1|]. split; [exact E2 | exact E3].
Defined.


Lemma source_mutation_tracks_no_source_witness :
  ∃ w' nd', observerCallback 0 [src_changed] playing_page = (Ok tt, w')
            ∧ nodes w' !! 3 = Some nd'
            ∧ ("vsc-nosource" ∉ classList nd')
            ∧ ctrls w' !! 0 = Some first_controller.
Proof.
  destruct (source_mutation_tracks_no_source playing_page 0 2 3 first_controller
              {| kind := ElementNode; parentNode := Some 1; childNodes := [];
                 classList := ["vsc-controller"; "vcs-show"]; media := None;
                 shadow := Some {| top := "0px"; left := "0px"; speed_text := "1.0";
                                   opacity := (3 # 10)%Q; buttonSize := (14 # 1)%Q |} |}
              (video_node 1 (watched (clip movie movie)))
              (watched (clip movie movie)) [src_changed])
    as (w' & nd' & n' & E & Hnd & Hiff & _ & _ & Hc & _).
  - vm_compute; reflexivity.
  - reflexivity.
  - reflexivity.
  - vm_compute; reflexivity.
  - vm_compute; reflexivity.
  - reflexivity.
  - reflexivity.
  - done.
  - repeat constructor.
  - exists w', nd'. split; [exact E|]. split; [exact Hnd|]. split; [|exact Hc].
    rewrite Hiff. intros [Hs _]. discriminate Hs.
Defined.


End SamplePages.

(** *** More on the first rate and on the handlers *)

Section Rates.

Context `{Externals}.

#[local] Abbreviation parents_kept :=
  (kept (λ _ : dom_node, tt) parent (λ _ : world, tt)).

(** X1. With remember-speed disabled the first rate is 1.0 whatever is
    stored: [create] on a new element resolves 1.0, assigns it to the
    playback rate without announcing it (also when force-last-saved-speed
    is set), and sets the reset key binding to the binding of the fast
    key. *)
Theorem create_without_remembering (w : world) (target : ref) (p : option ref)
    (n : dom_node) (v : media_el) :
  nodes w !! target = Some n → media n = Some v → vsc v = None →
  rememberSpeed (cfg_settings (cfg w)) = false →
  let w' := (create target p w).2 in
  targetSpeed (cfg_settings (cfg w)) v = 1%Q
  ∧ rate w' target = Some 1%Q
  ∧ dispatched w' = dispatched w
  ∧ keyBindings (cfg w') !! "reset"
    = Some (default None (keyBindings (cfg w) !! "fast")).
Proof.
  intros Hn Hv Hvsc Hr w'.
  assert (targetSpeed (cfg_settings (cfg w)) v = 1%Q) as Ht.
  { unfold targetSpeed. by rewrite Hr. }
  destruct (create_speed w target p n v Hn Hv Hvsc)
    as (w3 & (F & _ & W) & _ & _ & B3 & S3).
  fold w' in F, W. injection W as D C.
  rewrite Ht in S3. replace (JS.strict_neq 1 1) with false in S3 by reflexivity.
  rewrite andb_false_r in S3. destruct S3 as [N3 D3].
  split; [done|]. split; [|split; [congruence|]].
  - erewrite (rate_follows w3 w' target _ F).
    2: { rewrite N3, lookup_alter_eq, Hn. reflexivity. }
    simpl. by rewrite Hv.
  - rewrite C, B3, lookup_insert_eq. unfold resetBinding. by rewrite Hr.
Qed.

(** X2. With remember-speed enabled and a rate other than zero stored for
    the normalized source, [create] on a new element resolves that rate,
    whatever the last-used rate is, and sets the reset key binding to it.
    The key is the normalized current source, and the normalized source
    attribute when the current source is empty. The rate is announced when
    force-last-saved-speed is set and it differs from 1.0, and assigned
    otherwise. *)
Theorem create_uses_stored_rate (w : world) (target : ref) (p : option ref)
    (n : dom_node) (v : media_el) (r : Q) :
  nodes w !! target = Some n → media n = Some v → vsc v = None →
  let s := cfg_settings (cfg w) in
  rememberSpeed s = true →
  stored_speed s (getBaseURL (if decide (currentSrc v = "") then src v
                              else currentSrc v)) = Some r →
  JS.truthy r = true →
  let w' := (create target p w).2 in
  targetSpeed s v = r
  ∧ keyBindings (cfg w') !! "reset" = Some (Some r)
  ∧ if forceLastSavedSpeed s && JS.strict_neq r 1 then
      rate w' target = Some (playbackRate v)
      ∧ dispatched w' = (dispatched w ++ [(target, ratechange r)])%list
    else rate w' target = Some r ∧ dispatched w' = dispatched w.
Proof.
  intros Hn Hv Hvsc s Hr Hs Htr w'.
  assert (targetSpeed s v = r) as Ht.
  { unfold targetSpeed, storedVideoSpeed, JS.or_str, JS.truthy_str.
    rewrite Hr. destruct (decide (currentSrc v = "")); rewrite Hs; simpl;
      by rewrite !Htr. }
  destruct (create_speed w target p n v Hn Hv Hvsc)
    as (w3 & (F & _ & W) & _ & _ & B3 & S3).
  fold s in S3. fold w' in F, W. injection W as D C. rewrite Ht in S3.
  split; [done|]. split.
  { rewrite C, B3, lookup_insert_eq. unfold resetBinding. fold s.
    by rewrite Hr, Ht. }
  destruct (forceLastSavedSpeed s && JS.strict_neq r 1); destruct S3 as [N3 D3].
  - split; [|congruence].
    rewrite (rate_follows w3 w' target n F); [by rewrite Hv | by rewrite N3].
  - split; [|congruence].
    erewrite (rate_follows w3 w' target _ F).
    2: { rewrite N3, lookup_alter_eq, Hn. reflexivity. }
    simpl. by rewrite Hv.
Qed.

(** X3. With remember-speed enabled a play or seek notification hands to
    [setSpeed] the rate stored for the normalized current source at the
    time of the event, and 1.0 when none (or zero) is stored; the source
    attribute and the last-used rate play no part. The handler touches
    neither the key bindings nor anything else of the configuration, nor
    the document. A seek followed by a play resolves the rate twice and
    makes two calls. *)
Theorem handler_when_remembering (w : world) (this target : ref)
    (n : dom_node) (t : media_el) :
  nodes w !! target = Some n → media n = Some t →
  listeners t = [("play", HandlePlay this); ("seeked", HandleSeek this)] →
  rememberSpeed (cfg_settings (cfg w)) = true →
  let r := JS.or_num (stored_speed (cfg_settings (cfg w))
                        (getBaseURL (currentSrc t))) 1 in
  ∃ w1 w2, deliver "seeked" target w = (Ok tt, w1)
    ∧ setSpeedCalls w1 = (setSpeedCalls w ++ [(target, r)])%list
    ∧ cfg w1 = cfg w ∧ nodes w1 = nodes w ∧ ctrls w1 = ctrls w
    ∧ deliver "play" target w1 = (Ok tt, w2)
    ∧ setSpeedCalls w2 = (setSpeedCalls w ++ [(target, r); (target, r)])%list
    ∧ cfg w2 = cfg w ∧ nodes w2 = nodes w.
Proof.
  intros Hn Ht Hl Hr r.
  assert (∀ w0, nodes w0 = nodes w → cfg w0 = cfg w →
            ∃ w', mediaEventAction this target w0 = (Ok tt, w')
                  ∧ setSpeedCalls w' = (setSpeedCalls w0 ++ [(target, r)])%list
                  ∧ cfg w' = cfg w ∧ nodes w' = nodes w ∧ ctrls w' = ctrls w0) as Hrun.
  { intros w0 Hn0 Hg0. rewrite <- Hn0 in Hn.
    destruct (mediaEventAction_run w0 this target n t Hn Ht)
      as (w' & E & N & C & _ & _ & S & G & Me & K).
    exists w'. rewrite Hg0 in S, G, Me, K. rewrite Hr in K.
    split; [done|]. split; [done|]. split; [|split; [congruence | done]].
    destruct (cfg w') as [a b c], (cfg w) as [a' b' c']. simpl in *. congruence. }
  destruct (Hrun w eq_refl eq_refl) as (w1 & E1 & S1 & G1 & N1 & C1).
  destruct (Hrun w1 N1 G1) as (w2 & E2 & S2 & G2 & N2 & C2).
  exists w1, w2. split; [eapply deliver_run; eauto|].
  split; [done|]. split; [done|]. split; [done|]. split; [done|].
  split; [rewrite <- N1 in Hn; eapply deliver_run; eauto|].
  split; [|done]. by rewrite S2, S1, <- app_assoc.
Qed.

(** X4. The parent hint counts only for an element that has no parent
    element: on an element with a parent element [create] does the same
    whatever hint it is given, and the controller it builds for a new
    element holds that parent element. *)
Theorem create_prefers_parent_element (w : world) (target pe : ref)
    (n : dom_node) (p p' : option ref) :
  nodes w !! target = Some n → parentElement_of (nodes w) n = Some pe →
  create target p w = create target p' w
  ∧ ∀ c w', create target p w = (Ok c, w') → ¬ attached w target c →
            parent <$> ctrls w' !! c = Some (Some pe).
Proof.
  intros Hn Hpe.
  assert (∀ q, media n = None → create target q w = (Throw JS.TypeError, w)) as Hnone.
  { intros q Hm. unfold create, get_media.
    rewrite bind_run, bind_run, (get_node_run _ _ _ Hn). by rewrite Hm. }
  destruct (media n) as [v|] eqn:Hv; [|by rewrite !Hnone].
  destruct (vsc v) as [existing|] eqn:Hvsc.
  { assert (∀ q, create target q w = (Ok existing, w)) as Hex.
    { intros q. unfold create.
      rewrite bind_run, (get_media_run _ _ _ _ Hn Hv). by rewrite Hvsc. }
    rewrite !Hex. split; [done|]. intros c w' [= <- <-] Hna. destruct Hna.
    by exists n, v. }
  split.
  - assert (∀ q, create target q w = create target (Some pe) w) as Hq.
    { intros q. unfold create.
      rewrite !(bind_of_run _ _ _ _ _ (get_media_run _ _ _ _ Hn Hv)). cbv beta.
      rewrite Hvsc, !bind_get_run.
      rewrite !(bind_of_run _ _ _ _ _ (get_node_run _ _ _ Hn)). cbv beta.
      by rewrite Hpe. }
    by rewrite (Hq p), (Hq p').
  - intros c w' Hc _.
    destruct (create_new_run w target p n v Hn Hv Hvsc) as (w3 & E & C3 & _).
    set (this := fresh (dom (ctrls w))) in *. rewrite E in Hc.
    assert (parents_kept w3 w') as (_ & F & _).
    { ran parents_kept Hc ltac:(unfold construct_rest; keeps_auto). done. }
    assert (c = this) as ->.
    { unfold construct_rest in Hc. bind_inv Hc. by injection Hc as <- _. }
    destruct (F this (new_controller w target p n)) as (c' & Hc' & Hp);
      [by rewrite C3, lookup_insert_eq|].
    rewrite Hc'. simpl. rewrite Hp. unfold new_controller. simpl. by rewrite Hpe.
Qed.

End Rates.

(** *** More on the source observer *)

Section SourceObserver.

Context `{Externals}.

Lemma onMutation_other (this : ref) (m : mutation) (w : world) :
  relevant m = false → onMutation this m w = (Ok tt, w).
Proof. unfold onMutation, relevant. by intros ->. Qed.

Lemma onMutation_exact (w : world) (this e d : ref) (c : controller)
    (nd n : dom_node) (t : media_el) (m : mutation) :
  ctrls w !! this = Some c → div c = Some d → nodes w !! d = Some nd →
  nodes w !! e = Some n → media n = Some t → source_mutation e m →
  onMutation this m w
  = (Ok tt, with_nodes (alter (toggle_nosource t) d)
              (with_console (λ l, (l ++ [Msg "mutation of A/V element"])%list) w)).
Proof.
  intros Hc Hd Hnd Hn Ht (Hty & Hat & Htg). unfold onMutation.
  replace (bool_decide (m_type m = "attributes")
           && (bool_decide (m_attributeName m = "src")
               || bool_decide (m_attributeName m = "currentSrc"))) with true.
  2: { rewrite bool_decide_eq_true_2 by done. destruct Hat as [-> | ->]; reflexivity. }
  rewrite bind_log_run. set (w0 := with_console _ w).
  exec (get_ctrl_run this w0 c Hc). rewrite Htg.
  exec (get_media_run e w0 n t Hn Ht). rewrite Hd. unfold deref, toggle_nosource.
  destruct (negb (JS.truthy_str (src t)) && negb (JS.truthy_str (currentSrc t))).
  - by rewrite bind_ret_run, (classList_add_run w0 d _ nd Hnd).
  - by rewrite bind_ret_run, (classList_remove_run w0 d _ nd Hnd).
Qed.

Lemma filter_idem {A} (p : A → bool) (l : list A) :
  List.filter p (List.filter p l) = List.filter p l.
Proof.
  induction l as [|x l IH]; [done|]. simpl.
  destruct (p x) eqn:E; simpl; by rewrite ?E, IH.
Qed.

Lemma toggle_nosource_idem (t : media_el) (n : dom_node) :
  toggle_nosource t (toggle_nosource t n) = toggle_nosource t n.
Proof.
  unfold toggle_nosource.
  destruct (negb (JS.truthy_str (src t)) && negb (JS.truthy_str (currentSrc t))).
  - destruct (decide ("vsc-nosource" ∈ classList n)) as [Hin|Hin].
    + by rewrite !(bool_decide_eq_true_2 _ Hin).
    + rewrite !(bool_decide_eq_false_2 _ Hin). simpl.
      rewrite bool_decide_eq_true_2; [done|].
      apply elem_of_app. right. by apply list_elem_of_singleton.
  - simpl. by rewrite filter_idem.
Qed.

Lemma toggle_nosource_media (t : media_el) (n : dom_node) :
  media (toggle_nosource t n) = media n.
Proof. unfold toggle_nosource. by repeat case_match. Qed.

Lemma toggle_nosource_NoDup (t : media_el) (n : dom_node) :
  NoDup (classList n) → NoDup (classList (toggle_nosource t n)).
Proof.
  intros Hnd. unfold toggle_nosource.
  destruct (negb (JS.truthy_str (src t)) && negb (JS.truthy_str (currentSrc t))).
  - case_bool_decide as Hin; [done|]. simpl. apply NoDup_app.
    split; [done|]. split; [|apply NoDup_singleton].
    intros x Hx ->%list_elem_of_singleton. done.
  - simpl. apply NoDup_ListNoDup, List.NoDup_filter. by apply NoDup_ListNoDup.
Qed.

(** X5. The callback of the source observer acts on source-attribute
    records only: a batch gives the same outcome and the same world as the
    batch without its other records, in the same order; a batch with no
    such record, the empty batch included, changes nothing and logs
    nothing. *)
Theorem observerCallback_skips_other_records (this : ref) (mutations : list mutation)
    (w : world) :
  observerCallback this mutations w
  = observerCallback this (List.filter relevant mutations) w
  ∧ (Forall (λ m, relevant m = false) mutations →
     observerCallback this mutations w = (Ok tt, w)).
Proof.
  unfold observerCallback. split.
  - revert w. induction mutations as [|m l IH]; intros w; [done|]. simpl.
    destruct (relevant m) eqn:Hm; simpl.
    + rewrite !bind_run. destruct (onMutation this m w) as [[[]|e] w1]; [apply IH | done].
    + rewrite (bind_of_run _ _ _ _ _ (onMutation_other this m w Hm)). apply IH.
  - revert w. induction mutations as [|m l IH]; intros w Hall; [done|].
    apply Forall_cons in Hall as [Hm Hl]. simpl.
    rewrite (bind_of_run _ _ _ _ _ (onMutation_other this m w Hm)). by apply IH.
Qed.

(** X6. The no-source mark settles: handing the same source mutation of a
    controlled element to the callback twice leaves the document, the
    controllers, the observers and the configuration exactly as handing it
    once, with one more line in the log; and an overlay whose classes are
    distinct keeps them distinct, so the mark is never there twice. *)
Theorem source_mutation_settles (w : world) (this e d : ref) (c : controller)
    (nd n : dom_node) (t : media_el) (m : mutation) :
  ctrls w !! this = Some c → div c = Some d → nodes w !! d = Some nd →
  nodes w !! e = Some n → media n = Some t → source_mutation e m →
  ∃ w1 w2 nd1, observerCallback this [m] w = (Ok tt, w1)
    ∧ observerCallback this [m; m] w = (Ok tt, w2)
    ∧ nodes w2 = nodes w1 ∧ ctrls w2 = ctrls w1 ∧ observers w2 = observers w1
    ∧ cfg w2 = cfg w1
    ∧ console w2 = (console w1 ++ [Msg "mutation of A/V element"])%list
    ∧ nodes w1 !! d = Some nd1
    ∧ (NoDup (classList nd) → NoDup (classList nd1)).
Proof.
  intros Hc Hd Hnd Hn Ht Hm.
  pose proof (onMutation_exact w this e d c nd n t m Hc Hd Hnd Hn Ht Hm) as E1.
  set (w1 := with_nodes _ _) in E1.
  assert (nodes w1 !! d = Some (toggle_nosource t nd)) as Hnd1.
  { unfold w1. simpl. by rewrite lookup_alter_eq, Hnd. }
  assert (∃ n1, nodes w1 !! e = Some n1 ∧ media n1 = Some t) as (n1 & Hn1 & Ht1).
  { unfold w1. simpl. destruct (decide (d = e)) as [->|Hne].
    - rewrite lookup_alter_eq, Hn. eexists. split; [reflexivity|].
      by rewrite toggle_nosource_media.
    - rewrite lookup_alter_ne by done. eauto. }
  pose proof (onMutation_exact w1 this e d c _ n1 t m Hc Hd Hnd1 Hn1 Ht1 Hm) as E2.
  exists w1, (with_nodes (alter (toggle_nosource t) d)
                (with_console (λ l, (l ++ [Msg "mutation of A/V element"])%list) w1)),
    (toggle_nosource t nd).
  unfold observerCallback. cbn [forEach].
  split; [by rewrite (bind_of_run _ _ _ _ _ E1)|].
  split; [by rewrite (bind_of_run _ _ _ _ _ E1), (bind_of_run _ _ _ _ _ E2)|].
  simpl. split.
  { rewrite alter_alter_eq. apply alter_ext. intros x _. apply toggle_nosource_idem. }
  repeat split; [by rewrite lookup_alter_eq, Hnd|]. apply toggle_nosource_NoDup.
Qed.

End SourceObserver.

(** *** The constructor when the overlay can be placed *)

Section Construction.

Context `{Externals}.

Ltac lookup_made :=
  simpl; rewrite ?lookup_alter_eq, lookup_insert_eq; reflexivity.

(** Evaluate the membership tests on class lists that are known. *)
Ltac decide_closed :=
  repeat
    (match goal with
     | |- context [@bool_decide ?P ?D] =>
         let b := eval vm_compute in (@bool_decide P D) in
         lazymatch b with
         | true => change (@bool_decide P D) with true
         | false => change (@bool_decide P D) with false
         end
     end; cbv iota).

Lemma overlay_dressed (w : world) (this : ref) (c0 : controller)
    (n : dom_node) (v : media_el) :
  ctrls w !! this = Some c0 → nodes w !! video c0 = Some n → media n = Some v →
  let wrapper := fresh (dom (nodes w)) in
  ∃ wB, initializeControls this w = overlay_rest this wrapper wB
    ∧ nodes wB = <[wrapper := new_overlay (video c0) v (cfg_settings (cfg w))]> (nodes w)
    ∧ ctrls wB = ctrls w ∧ observers wB = observers w ∧ cfg wB = cfg w
    ∧ dispatched wB = dispatched w ∧ setSpeedCalls wB = setSpeedCalls w.
Proof.
  intros Hc Hn Hv wrapper. unfold initializeControls.
  rewrite bind_log_run. set (w0 := with_console _ w).
  exec (get_ctrl_run this w0 c0 Hc). exec (get_media_run _ w0 n v Hn Hv).
  rewrite bind_log_run. unfold createElement.
  erewrite (bind_of_run _ _ _ _ _ (createNode_run _ _)). cbv beta.
  change (fresh (dom (nodes _))) with wrapper.
  erewrite bind_of_run; [cbv beta | eapply classList_add_run; lookup_made].
  unfold new_overlay, overlay_classes, overlay_options.
  destruct (JS.truthy_str (currentSrc v)).
  - rewrite bind_ret_run.
    erewrite (bind_of_run _ _ _ _ _ (get_settings_run _)). cbv beta.
    destruct (startHidden _) eqn:Hh.
    + erewrite bind_of_run; [cbv beta | eapply classList_add_run; lookup_made].
      erewrite bind_of_run; [cbv beta | eapply createShadowDOM_run; lookup_made].
      eexists. split; [reflexivity|]. simpl. rewrite !alter_insert_eq.
      decide_closed. split; [reflexivity|]. done.
    + erewrite bind_of_run; [cbv beta | eapply classList_add_run; lookup_made].
      erewrite bind_of_run; [cbv beta | eapply createShadowDOM_run; lookup_made].
      eexists. split; [reflexivity|]. simpl. rewrite !alter_insert_eq.
      decide_closed. split; [reflexivity|]. done.
  - erewrite bind_of_run; [cbv beta | eapply classList_add_run; lookup_made].
    erewrite (bind_of_run _ _ _ _ _ (get_settings_run _)). cbv beta.
    destruct (startHidden _) eqn:Hh.
    + erewrite bind_of_run; [cbv beta | eapply classList_add_run; lookup_made].
      erewrite bind_of_run; [cbv beta | eapply createShadowDOM_run; lookup_made].
      eexists. split; [reflexivity|]. simpl. rewrite !alter_insert_eq.
      decide_closed. split; [reflexivity|]. done.
    + erewrite bind_of_run; [cbv beta | eapply classList_add_run; lookup_made].
      erewrite bind_of_run; [cbv beta | eapply createShadowDOM_run; lookup_made].
      eexists. split; [reflexivity|]. simpl. rewrite !alter_insert_eq.
      decide_closed. split; [reflexivity|]. done.
Qed.

Lemma sped_run (w w3 : world) (target : ref) (n : dom_node) (v : media_el) :
  nodes w !! target = Some n → media n = Some v →
  let s := cfg_settings (cfg w) in
  (if forceLastSavedSpeed s && JS.strict_neq (targetSpeed s v) 1 then
     nodes w3 = nodes w
     ∧ dispatched w3 = (dispatched w ++ [(target, ratechange (targetSpeed s v))])%list
   else
     nodes w3 = alter (on_media (set_playbackRate (targetSpeed s v))) target (nodes w)
     ∧ dispatched w3 = dispatched w) →
  nodes w3 = <[target := set_media (Some (sped s v)) n]> (nodes w)
  ∧ vsc (sped s v) = vsc v ∧ listeners (sped s v) = listeners v
  ∧ currentSrc (sped s v) = currentSrc v ∧ src (sped s v) = src v.
Proof.
  intros Hn Hv s. unfold sped. fold s.
  destruct (forceLastSavedSpeed s && JS.strict_neq (targetSpeed s v) 1);
    intros [-> _]; (split; [|done]).
  - rewrite insert_id; [done|]. rewrite Hn. f_equal. destruct n; simpl in *. by subst.
  - apply map_eq. intros r. destruct (decide (r = target)) as [->|Hne].
    + rewrite lookup_alter_eq, lookup_insert_eq, Hn. simpl. unfold on_media.
      by rewrite Hv.
    + by rewrite lookup_alter_ne, lookup_insert_ne.
Qed.

Lemma sped_fields (s : settings) (v : media_el) :
  vsc (sped s v) = vsc v ∧ listeners (sped s v) = listeners v
  ∧ currentSrc (sped s v) = currentSrc v ∧ src (sped s v) = src v.
Proof. unfold sped. by destruct (forceLastSavedSpeed s && _). Qed.

#[local] Abbreviation dress_kept :=
  (kept (λ n : dom_node, (kind n, classList n, shadow n, has_media n))
        (λ _ : controller, tt) (λ _ : world, tt)).

Lemma construct_rest_from (w3 wB : world) (this target wrapper : ref) :
  initializeControls this w3 = overlay_rest this wrapper wB →
  construct_rest this target w3
  = (overlay_rest this wrapper ≫= λ d,
       update_ctrl this (set_div (Some d));;
       setupEventHandlers this;;
       setupMutationObserver this;;
       update_media target (set_vsc (Some this));;
       log (Msg "VideoController initialized for video element");;
       mret this) wB.
Proof. intros E. unfold construct_rest. by rewrite !bind_run, E. Qed.

(** X7. The overlay that [create] builds for a new element, whether or not
    it can then be placed: a new element with the class vsc-controller,
    then vsc-nosource when the current source is empty, then vsc-hidden
    when start-hidden is set and vcs-show otherwise; its shadow tree gets
    the position the shadow DOM manager computes, the opacity and the
    button size of the settings, and as speed text the playback rate of
    the element at that time to one decimal place, which is the resolved
    target when it was assigned and the rate the element had when the
    target was announced. *)
Theorem create_dresses_overlay (w : world) (target : ref) (p : option ref)
    (n : dom_node) (v : media_el) :
  nodes w !! target = Some n → media n = Some v → vsc v = None →
  let s := cfg_settings (cfg w) in
  let w' := (create target p w).2 in
  ∃ nd, nodes w' !! fresh (dom (nodes w)) = Some nd
    ∧ kind nd = ElementNode ∧ media nd = None
    ∧ classList nd = overlay_classes v s
    ∧ shadow nd = Some (overlay_options target (sped s v) s)
    ∧ playbackRate (sped s v)
      = if forceLastSavedSpeed s && JS.strict_neq (targetSpeed s v) 1
        then playbackRate v else targetSpeed s v.
Proof.
  intros Hn Hv Hvsc s w'.
  destruct (create_new_run w target p n v Hn Hv Hvsc)
    as (w3 & E & C3 & _ & _ & G3 & _ & _ & N3).
  set (this := fresh (dom (ctrls w))) in *.
  destruct (sped_run w w3 target n v Hn Hv N3) as (N3' & _ & _ & Hcur & _).
  fold s in N3', Hcur.
  assert (ctrls w3 !! this = Some (new_controller w target p n)) as Hthis
    by (by rewrite C3, lookup_insert_eq).
  destruct (overlay_dressed w3 this _ (set_media (Some (sped s v)) n) (sped s v) Hthis)
    as (wB & EB & NB & _); [by rewrite N3', lookup_insert_eq | done |].
  assert (dom (nodes w3) = dom (nodes w)) as Hdom.
  { rewrite N3'. apply dom_insert_lookup_L. eauto. }
  rewrite Hdom, G3 in NB. rewrite Hdom in EB. fold s in NB. simpl in NB.
  set (wrapper := fresh (dom (nodes w))) in *.
  assert (dress_kept wB w') as (F & _).
  { unfold w'. rewrite E, (construct_rest_from w3 wB this target wrapper EB).
    assert (keeps dress_kept
              (overlay_rest this wrapper ≫= λ d,
                 update_ctrl this (set_div (Some d));;
                 setupEventHandlers this;;
                 setupMutationObserver this;;
                 update_media target (set_vsc (Some this));;
                 log (Msg "VideoController initialized for video element");;
                 mret this)) as K by (unfold overlay_rest; keeps_auto).
    apply K. }
  destruct (F wrapper _ ltac:(by rewrite NB, lookup_insert_eq)) as (nd & Hnd & Hview).
  exists nd. unfold has_media in Hview. simpl in Hview.
  injection Hview as Hk Hc Hs Hm.
  split; [done|]. split; [done|]. split; [by destruct (media nd)|].
  split; [rewrite Hc; unfold overlay_classes; by rewrite Hcur|].
  split; [done|]. unfold sped. fold s. by destruct (forceLastSavedSpeed s && _).
Qed.

(** *** Placing the overlay *)

Lemma insertBefore_fragment_run (w : world) (p fragment d : ref) (before : option ref)
    (pn fr : dom_node) :
  nodes w !! p = Some pn → nodes w !! fragment = Some fr →
  kind fr = FragmentNode → childNodes fr = [d] →
  (∀ r, before = Some r → r ∈ childNodes pn) →
  insertBefore p fragment before w
  = (Ok tt,
     with_nodes (alter (set_parentNode (Some p)) d)
       (with_nodes (alter (λ pn, set_childNodes
                                   (place_before [d] before (childNodes pn)) pn) p)
          (with_nodes (alter (set_childNodes []) fragment) w))).
Proof.
  intros Hp Hf Hk Hch Hin. unfold insertBefore.
  exec (get_node_run _ _ _ Hp). exec (get_node_run _ _ _ Hf).
  rewrite Hk, Hch.
  assert (match before with
          | Some r => if bool_decide (r ∈ childNodes pn) then mret tt
                      else throw JS.NotFoundError
          | None => mret tt
          end w = (Ok tt, w)) as Hcheck.
  { destruct before as [r|]; [|done]. by rewrite bool_decide_eq_true_2 by auto. }
  exec Hcheck. reflexivity.
Qed.

Lemma place_overlay_run (w : world) (this fragment d pp : ref) (before : option ref)
    (c : controller) (ppn fr : dom_node) :
  ctrls w !! this = Some c →
  insertion (nodes w) (getControllerPosition (parent c) (video c)) = Some (pp, before) →
  nodes w !! pp = Some ppn → nodes w !! fragment = Some fr →
  kind fr = FragmentNode → childNodes fr = [d] →
  (∀ r, before = Some r → r ∈ childNodes ppn) →
  place_overlay this fragment w
  = (Ok tt,
     with_console
       (λ l, (l ++ [MsgStr "Controller inserted using "
                      (insertionMethod (getControllerPosition (parent c) (video c)))])%list)
       (with_nodes (alter (set_parentNode (Some pp)) d)
          (with_nodes (alter (λ pn, set_childNodes
                                      (place_before [d] before (childNodes pn)) pn) pp)
             (with_nodes (alter (set_childNodes []) fragment) w)))).
Proof.
  intros Hc Hins Hpp Hf Hk Hch Hin. unfold place_overlay.
  exec (get_ctrl_run _ _ _ Hc). rewrite bind_get_run.
  set (pos := getControllerPosition (parent c) (video c)) in *.
  unfold insertion in Hins.
  destruct (insertionPoint pos) as [pt|]; [|discriminate]. simpl in Hins.
  destruct (nodes w !! pt) as [pn|] eqn:Hpt; [|discriminate]. simpl in Hins.
  assert (∀ k : ref → M unit, (deref (Some pt) ≫= k) w = k pt w) as Hderef
    by reflexivity.
  pose proof (insertBefore_fragment_run w pp fragment d before ppn fr
                Hpp Hf Hk Hch Hin) as Hrun.
  erewrite bind_of_run; [reflexivity|].
  destruct (decide (insertionMethod pos = "beforeParent")).
  - destruct (parentElement_of (nodes w) pn) as [pe|] eqn:Hpe; [|discriminate].
    injection Hins as -> <-.
    rewrite Hderef. exec (get_node_run _ _ _ Hpt). by rewrite Hpe.
  - destruct (decide (insertionMethod pos = "afterParent")).
    + destruct (parentElement_of (nodes w) pn) as [pe|] eqn:Hpe; [|discriminate].
      injection Hins as -> <-.
      rewrite Hderef. exec (get_node_run _ _ _ Hpt). by rewrite Hpe.
    + injection Hins as -> <-.
      rewrite Hderef. by exec (get_node_run _ _ _ Hpt).
Qed.

(** *** Subscriptions, observer and back-reference *)

Lemma addEventListener_run (w : world) (target : ref) (type : string) (h : handler)
    (n : dom_node) (v : media_el) :
  nodes w !! target = Some n → media n = Some v →
  addEventListener target type h w
  = (Ok tt, with_nodes (alter (on_media (listen type h)) target) w).
Proof.
  intros Hn Hv. unfold addEventListener. by exec (get_media_run _ _ _ _ Hn Hv).
Qed.

Lemma new_MutationObserver_run (this : ref) (w : world) :
  new_MutationObserver this w
  = (Ok (fresh (dom (observers w))),
     with_observers (insert (fresh (dom (observers w)))
                       {| owner := this; observing := [] |}) w).
Proof. reflexivity. Qed.

Lemma construct_tail_run (w : world) (this target d : ref) (c0 : controller)
    (n : dom_node) (v : media_el) :
  ctrls w !! this = Some c0 → video c0 = target →
  nodes w !! target = Some n → media n = Some v →
  let o := fresh (dom (observers w)) in
  ∃ w', (update_ctrl this (set_div (Some d));;
         setupEventHandlers this;;
         setupMutationObserver this;;
         update_media target (set_vsc (Some this));;
         log (Msg "VideoController initialized for video element");;
         mret this) w = (Ok this, w')
    ∧ nodes w'
      = alter (on_media (λ v, set_vsc (Some this)
                                (listen "seeked" (HandleSeek this)
                                   (listen "play" (HandlePlay this) v))))
          target (nodes w)
    ∧ ctrls w'
      = <[this := set_targetObserver (Some o)
                    (set_handlers (Some (HandlePlay this)) (Some (HandleSeek this))
                       (set_div (Some d) c0))]> (ctrls w)
    ∧ observers w'
      = <[o := {| owner := this; observing := [(target, ["src"; "currentSrc"])] |}]>
          (observers w)
    ∧ cfg w' = cfg w ∧ dispatched w' = dispatched w
    ∧ setSpeedCalls w' = setSpeedCalls w.
Proof.
  intros Hc Hvid Hn Hv o. unfold update_ctrl at 1. rewrite bind_modify_run.
  unfold setupEventHandlers.
  erewrite bind_of_run; [cbv beta|].
  2: { erewrite bind_of_run;
         [cbv beta | apply get_ctrl_run; simpl; by rewrite lookup_alter_eq, Hc].
       unfold update_ctrl. rewrite bind_modify_run. simpl video. rewrite Hvid.
       erewrite bind_of_run; [cbv beta|].
       2: { by apply (addEventListener_run _ target "play" _ n v). }
       apply (addEventListener_run _ target "seeked" _ (on_media (listen "play" (HandlePlay this)) n)
                (listen "play" (HandlePlay this) v)).
       - simpl. by rewrite lookup_alter_eq, Hn.
       - unfold on_media. simpl. by rewrite Hv. }
  unfold setupMutationObserver.
  erewrite bind_of_run; [cbv beta|].
  2: { erewrite bind_of_run;
         [cbv beta | apply get_ctrl_run; simpl; by rewrite !lookup_alter_eq, Hc].
       rewrite (bind_of_run _ _ _ _ _ (new_MutationObserver_run this _)). cbv beta.
       unfold update_ctrl. rewrite bind_modify_run. unfold observe. reflexivity. }
  unfold update_media, update_node. rewrite bind_modify_run, bind_log_run.
  eexists. split; [reflexivity|]. simpl. fold o. rewrite Hvid.
  split; [|split; [|split; [|done]]].
  - rewrite !alter_alter_eq. apply alter_ext. intros x _. unfold on_media. simpl.
    by destruct (media x).
  - rewrite !alter_alter_eq. apply map_eq. intros r.
    destruct (decide (r = this)) as [->|Hne].
    + by rewrite lookup_alter_eq, lookup_insert_eq, Hc.
    + by rewrite lookup_alter_ne, lookup_insert_ne.
  - by rewrite alter_insert_eq.
Qed.

(** *** The whole constructor *)

Lemma parentElement_follows (ns ns' : gmap ref dom_node) (pn pn' : dom_node) (pe : ref) :
  follows shape ns ns' → shape pn' = shape pn →
  parentElement_of ns pn = Some pe → parentElement_of ns' pn' = Some pe.
Proof.
  intros F [= _ Hp _]. unfold parentElement_of. rewrite Hp.
  destruct (parentNode pn) as [q|]; [|discriminate]. simpl.
  destruct (ns !! q) as [qn|] eqn:Hq; [|discriminate]. simpl.
  destruct (F q qn Hq) as (qn' & -> & [= Hk _ _]). simpl. by rewrite Hk.
Qed.

Lemma nextSibling_follows (ns ns' : gmap ref dom_node) (pt pe : ref) (pn pn' : dom_node) :
  follows shape ns ns' → shape pn' = shape pn →
  parentElement_of ns pn = Some pe →
  nextSibling_of ns' pt pn' = nextSibling_of ns pt pn.
Proof.
  intros F [= _ Hp _]. unfold parentElement_of, nextSibling_of. rewrite Hp.
  destruct (parentNode pn) as [q|]; [|discriminate]. simpl.
  destruct (ns !! q) as [qn|] eqn:Hq; [|discriminate]. simpl.
  destruct (F q qn Hq) as (qn' & -> & [= _ _ Hc]). simpl. by rewrite Hc.
Qed.

Lemma insertion_follows (ns ns' : gmap ref dom_node) (pos : positioning)
    (x : ref * option ref) :
  follows shape ns ns' → insertion ns pos = Some x → insertion ns' pos = Some x.
Proof.
  intros F. unfold insertion.
  destruct (insertionPoint pos) as [pt|]; [|discriminate]. simpl.
  destruct (ns !! pt) as [pn|] eqn:Hpt; [|discriminate]. simpl.
  destruct (F pt pn Hpt) as (pn' & -> & Hsh). simpl.
  destruct (decide (insertionMethod pos = "beforeParent")).
  { destruct (parentElement_of ns pn) as [pe|] eqn:Hpe; [|discriminate].
    by rewrite (parentElement_follows ns ns' pn pn' pe F Hsh Hpe). }
  destruct (decide (insertionMethod pos = "afterParent")).
  { destruct (parentElement_of ns pn) as [pe|] eqn:Hpe; [|discriminate].
    rewrite (parentElement_follows ns ns' pn pn' pe F Hsh Hpe). simpl.
    by rewrite (nextSibling_follows ns ns' pt pe pn pn' F Hsh Hpe). }
  unfold firstChild_of. injection Hsh as _ _ ->. done.
Qed.

Lemma create_ok_run (w : world) (target pp : ref) (p before : option ref)
    (n ppn : dom_node) (v : media_el) :
  nodes w !! target = Some n → media n = Some v → vsc v = None →
  insertion (nodes w)
    (getControllerPosition (parent (new_controller w target p n)) target)
  = Some (pp, before) →
  nodes w !! pp = Some ppn →
  (∀ r, before = Some r → r ∈ childNodes ppn) →
  let s := cfg_settings (cfg w) in
  let this := fresh (dom (ctrls w)) in
  let d := fresh (dom (nodes w)) in
  let o := fresh (dom (observers w)) in
  let heard := λ v, set_vsc (Some this)
                      (listen "seeked" (HandleSeek this)
                         (listen "play" (HandlePlay this) v)) in
  ∃ w' fragment,
    create target p w = (Ok this, w')
    ∧ (fragment ∉ dom (nodes w)) ∧ fragment ≠ d
    ∧ nodes w'
      = <[fragment := new_node FragmentNode]>
          (<[d := set_parentNode (Some pp) (new_overlay target (sped s v) s)]>
             (alter (λ pn, set_childNodes
                             (place_before [d] before (childNodes pn)) pn) pp
                (<[target := set_media (Some (heard (sped s v))) n]> (nodes w))))
    ∧ ctrls w' = <[this := built_controller w target p n]> (ctrls w)
    ∧ observers w'
      = <[o := {| owner := this; observing := [(target, ["src"; "currentSrc"])] |}]>
          (observers w)
    ∧ cfg_settings (cfg w') = s
    ∧ mediaElements (cfg w') = {[target]} ∪ mediaElements (cfg w)
    ∧ keyBindings (cfg w') = <["reset" := resetBinding w v]> (keyBindings (cfg w))
    ∧ setSpeedCalls w' = setSpeedCalls w
    ∧ dispatched w'
      = if forceLastSavedSpeed s && JS.strict_neq (targetSpeed s v) 1
        then (dispatched w ++ [(target, ratechange (targetSpeed s v))])%list
        else dispatched w.
Proof.
  intros Hn Hv Hvsc Hins Hpp Hin s this d o heard.
  destruct (create_new_run w target p n v Hn Hv Hvsc)
    as (w3 & E & C3 & O3 & S3 & G3 & M3 & K3 & N3).
  fold this in E, C3. fold s in G3, N3.
  destruct (sped_run w w3 target n v Hn Hv N3) as (N3' & _). fold s in N3'.
  assert (dispatched w3
          = if forceLastSavedSpeed s && JS.strict_neq (targetSpeed s v) 1
            then (dispatched w ++ [(target, ratechange (targetSpeed s v))])%list
            else dispatched w) as D3.
  { by destruct (forceLastSavedSpeed s && _); destruct N3. }
  clear N3. set (c0 := new_controller w target p n) in *.
  set (n3 := set_media (Some (sped s v)) n) in *.
  assert (ctrls w3 !! this = Some c0) as Hthis by (by rewrite C3, lookup_insert_eq).
  assert (dom (nodes w3) = dom (nodes w)) as Hdom.
  { rewrite N3'. apply dom_insert_lookup_L. eauto. }
  (* the overlay is built *)
  destruct (overlay_dressed w3 this c0 n3 (sped s v) Hthis)
    as (wB & EB & NB & CB & OB & GB & DB & SB); [by rewrite N3', lookup_insert_eq | done |].
  rewrite Hdom, G3 in NB. rewrite Hdom in EB. fold d in NB, EB. simpl in NB.
  set (X := new_overlay target (sped s v) s) in *.
  (* the fragment holds it *)
  destruct (fragment_ready wB this d X (nodes w3) NB eq_refl)
    as (wF & EF & NF & Hfd & CF & OF & GF & DF & SF & LF).
  set (fragment := fresh (dom (nodes wB))) in *.
  assert (fragment ∉ dom (nodes w)) as Hfw.
  { intros Hf. apply (is_fresh (dom (nodes wB))). fold fragment.
    rewrite NB, dom_insert_L, Hdom. set_solver. }
  assert (d ∉ dom (nodes w)) as Hdw by apply is_fresh.
  assert (∀ r x, nodes w !! r = Some x → r ≠ d ∧ r ≠ fragment) as Hold.
  { intros r x Hr. split; intros ->; [apply Hdw | apply Hfw]; apply elem_of_dom; eauto. }
  destruct (Hold _ _ Hn) as [Htd Htf]. destruct (Hold _ _ Hpp) as [Hpd Hpf].
  (* it is placed *)
  assert (follows shape (nodes w) (nodes wF)) as Fsh.
  { intros r x Hr. destruct (Hold _ _ Hr) as [Hrd Hrf].
    rewrite NF, lookup_insert_ne, lookup_insert_ne, N3' by done.
    destruct (decide (r = target)) as [->|Hrt].
    - rewrite lookup_insert_eq. eexists. split; [done|].
      rewrite Hn in Hr. by injection Hr as <-.
    - rewrite lookup_insert_ne by done. eauto. }
  destruct (Fsh pp ppn Hpp) as (ppn' & Hpp' & [= _ _ Hch]).
  assert (ctrls wF !! this = Some c0) as HthisF by (by rewrite CF, CB).
  pose proof (place_overlay_run wF this fragment d pp before c0 ppn' _ HthisF
                (insertion_follows _ _ _ _ Fsh Hins) Hpp'
                ltac:(by rewrite NF, lookup_insert_eq) eq_refl eq_refl
                ltac:(by rewrite Hch)) as EG.
  set (wG := with_console _ _) in EG.
  (* the rest of the constructor *)
  assert (nodes wG !! target
          = Some (if decide (target = pp)
                  then set_childNodes (place_before [d] before (childNodes n3)) n3
                  else n3)) as HnT.
  { unfold wG. simpl. rewrite lookup_alter_ne by done.
    destruct (decide (target = pp)) as [<-|Hne].
    - rewrite lookup_alter_eq, lookup_alter_ne, NF by done.
      by rewrite lookup_insert_ne, lookup_insert_ne, N3', lookup_insert_eq.
    - rewrite lookup_alter_ne, lookup_alter_ne, NF by done.
      by rewrite lookup_insert_ne, lookup_insert_ne, N3', lookup_insert_eq. }
  destruct (construct_tail_run
              (with_console (λ l, (l ++ [Msg "initializeControls End"])%list) wG)
              this target d c0 _ (sped s v)
              ltac:(done) eq_refl HnT ltac:(by case_decide))
    as (w' & ET & NT & CT & OT & GT & DT & ST).
  exists w', fragment.
  split.
  { rewrite E, (construct_rest_from w3 wB this target d EB).
    unfold overlay_rest. rewrite bind_run, bind_run, EF, EG. cbv iota beta.
    rewrite bind_log_run. exact ET. }
  split; [done|]. split; [done|].
  split.
  { rewrite NT. unfold wG. simpl. rewrite NF, N3'. apply map_eq. intros r.
    destruct (decide (r = fragment)) as [->|Hrf].
    { rewrite lookup_insert_eq, lookup_alter_ne, lookup_alter_ne, lookup_alter_ne by done.
      by rewrite lookup_alter_eq, lookup_insert_eq. }
    rewrite (lookup_insert_ne _ fragment r) by done.
    destruct (decide (r = d)) as [->|Hrd].
    { rewrite lookup_insert_eq, lookup_alter_ne, lookup_alter_eq by done.
      rewrite lookup_alter_ne, lookup_alter_ne, lookup_insert_ne by done.
      by rewrite lookup_insert_eq. }
    rewrite (lookup_insert_ne _ d r) by done.
    destruct (decide (r = target)) as [Hrt|Hrt]; destruct (decide (r = pp)) as [Hrp|Hrp];
      subst.
    - rewrite !lookup_alter_eq, lookup_alter_ne, lookup_alter_eq by done.
      rewrite lookup_alter_ne, lookup_insert_ne, lookup_insert_ne by done.
      rewrite !lookup_insert_eq. simpl. done.
    - rewrite lookup_alter_eq, lookup_alter_ne, lookup_alter_ne, lookup_alter_ne by done.
      rewrite lookup_alter_ne, lookup_insert_ne, lookup_insert_ne by done.
      rewrite !lookup_insert_eq. simpl. done.
    - rewrite lookup_alter_ne, lookup_alter_ne, !lookup_alter_eq by done.
      rewrite lookup_alter_ne, lookup_insert_ne, lookup_insert_ne by done.
      by rewrite !lookup_insert_ne by done.
    - rewrite !lookup_alter_ne, !lookup_insert_ne by done. done. }
  split.
  { rewrite CT. unfold wG. simpl. rewrite CF, CB, C3. rewrite insert_insert_eq.
    by rewrite OF, OB, O3. }
  split; [rewrite OT; unfold wG; simpl; by rewrite OF, OB, O3|].
  rewrite GT, ST, DT. unfold wG. simpl. rewrite GF, GB, SF, SB, DF, DB.
  done.
Qed.

(** *** Where the overlay lands *)

Lemma place_before_None (new l : list ref) : place_before new None l = (l ++ new)%list.
Proof. induction l as [|x l IH]; [done|]. simpl. by rewrite IH. Qed.

Lemma place_before_at (new l1 l2 : list ref) (x : ref) :
  x ∉ l1 →
  place_before new (Some x) (l1 ++ x :: l2) = (l1 ++ new ++ x :: l2)%list.
Proof.
  induction l1 as [|y l1 IH]; intros Hx; simpl.
  - by rewrite bool_decide_eq_true_2.
  - apply not_elem_of_cons in Hx as [Hne Hx].
    rewrite bool_decide_eq_false_2 by congruence. by rewrite IH.
Qed.

Lemma place_before_head (new l : list ref) :
  place_before new (head l) l = (new ++ l)%list.
Proof.
  destruct l as [|x l]; simpl; [by rewrite app_nil_r|].
  by rewrite bool_decide_eq_true_2.
Qed.

Lemma place_before_elem (new l : list ref) (r : option ref) (x : ref) :
  x ∈ new → x ∈ place_before new r l.
Proof.
  intros Hx. induction l as [|y l IH]; simpl; [done|].
  case_bool_decide; [apply elem_of_app; by left | by right].
Qed.

Lemma next_after_at (l1 l2 : list ref) (x : ref) :
  x ∉ l1 → next_after x (l1 ++ x :: l2) = head l2.
Proof.
  induction l1 as [|y l1 IH]; intros Hx; simpl.
  - by rewrite decide_True.
  - apply not_elem_of_cons in Hx as [Hne Hx]. rewrite decide_False by congruence.
    by apply IH.
Qed.

Lemma listen_listeners (type : string) (h : handler) (v : media_el) :
  (type, h) ∈ listeners (listen type h v)
  ∧ ∃ more, listeners (listen type h v) = (listeners v ++ more)%list.
Proof.
  unfold listen. case_bool_decide as Hin; simpl.
  - split; [done|]. exists []. by rewrite app_nil_r.
  - split; [|by eexists]. apply elem_of_app. right. by apply list_elem_of_singleton.
Qed.


Lemma create_tree_run (w : world) (target pp : ref) (p before : option ref)
    (n ppn : dom_node) (v : media_el) :
  nodes w !! target = Some n → media n = Some v → vsc v = None →
  insertion (nodes w)
    (getControllerPosition (parent (new_controller w target p n)) target)
  = Some (pp, before) →
  nodes w !! pp = Some ppn →
  (∀ r, before = Some r → r ∈ childNodes ppn) →
  let this := fresh (dom (ctrls w)) in
  let d := fresh (dom (nodes w)) in
  ∃ w' ppn' nd,
    create target p w = (Ok this, w')
    ∧ nodes w' !! pp = Some ppn'
    ∧ childNodes ppn' = place_before [d] before (childNodes ppn)
    ∧ kind ppn' = kind ppn ∧ parentNode ppn' = parentNode ppn
    ∧ classList ppn' = classList ppn ∧ shadow ppn' = shadow ppn
    ∧ nodes w' !! d = Some nd ∧ parentNode nd = Some pp ∧ childNodes nd = []
    ∧ (∀ r x, nodes w !! r = Some x → r ≠ pp →
         ∃ x', nodes w' !! r = Some x'
               ∧ kind x' = kind x ∧ parentNode x' = parentNode x
               ∧ childNodes x' = childNodes x ∧ classList x' = classList x
               ∧ shadow x' = shadow x ∧ (r ≠ target → x' = x)).
Proof.
  intros Hn Hv Hvsc Hins Hpp Hin this d.
  destruct (create_ok_run w target pp p before n ppn v Hn Hv Hvsc Hins Hpp Hin)
    as (w' & fragment & E & Hfw & Hfd & N & _).
  fold this d in E, N, Hfd.
  assert (d ∉ dom (nodes w)) as Hdw by apply is_fresh.
  assert (∀ r x, nodes w !! r = Some x → r ≠ d ∧ r ≠ fragment) as Hold.
  { intros r x Hr. split; intros ->; [apply Hdw | apply Hfw]; apply elem_of_dom; eauto. }
  destruct (Hold _ _ Hpp) as [Hpd Hpf].
  assert (∃ ppn', nodes w' !! pp = Some ppn'
                  ∧ childNodes ppn' = place_before [d] before (childNodes ppn)
                  ∧ kind ppn' = kind ppn ∧ parentNode ppn' = parentNode ppn
                  ∧ classList ppn' = classList ppn ∧ shadow ppn' = shadow ppn)
    as (ppn' & Hpp' & Hch' & Hrest).
  { rewrite N, lookup_insert_ne, lookup_insert_ne, lookup_alter_eq by done.
    destruct (decide (pp = target)) as [->|Hne].
    - rewrite lookup_insert_eq. simpl. eexists. split; [done|]. simpl.
      rewrite Hn in Hpp. by injection Hpp as <-.
    - rewrite lookup_insert_ne, Hpp by done. simpl. eexists. by repeat split. }
  eexists w', ppn', _.
  split; [done|]. split; [done|]. split; [done|].
  destruct Hrest as (? & ? & ? & ?).
  split; [done|]. split; [done|]. split; [done|]. split; [done|].
  split; [by rewrite N, lookup_insert_ne, lookup_insert_eq|].
  split; [done|]. split; [done|].
  intros r x Hr Hrp. destruct (Hold _ _ Hr) as [Hrd Hrf].
  rewrite N, lookup_insert_ne, lookup_insert_ne, lookup_alter_ne by done.
  destruct (decide (r = target)) as [->|Hrt].
  - rewrite lookup_insert_eq. eexists. split; [done|]. simpl.
    rewrite Hn in Hr. injection Hr as <-. done.
  - rewrite lookup_insert_ne by done. eauto 10.
Qed.


(** X10. The [beforeParent] directive puts the overlay immediately before
    the insertion point among the children of its parent element: when
    the insertion point is a child of an element, [create] on a new element
    succeeds and the children of that element are those before the point,
    the overlay, the point and those after it; the overlay has that element
    as parent; every other node of the document keeps its place. *)
Theorem create_inserts_before_point (w : world) (target pt pe : ref) (p : option ref)
    (n pn pen : dom_node) (v : media_el) (l1 l2 : list ref) :
  nodes w !! target = Some n → media n = Some v → vsc v = None →
  let pos := getControllerPosition (parent (new_controller w target p n)) target in
  insertionMethod pos = "beforeParent" →
  insertionPoint pos = Some pt → nodes w !! pt = Some pn →
  parentNode pn = Some pe → nodes w !! pe = Some pen → kind pen = ElementNode →
  childNodes pen = (l1 ++ pt :: l2)%list → pt ∉ l1 →
  let d := fresh (dom (nodes w)) in
  ∃ w' pen' nd,
    create target p w = (Ok (fresh (dom (ctrls w))), w')
    ∧ nodes w' !! pe = Some pen'
    ∧ childNodes pen' = (l1 ++ d :: pt :: l2)%list
    ∧ nodes w' !! d = Some nd ∧ parentNode nd = Some pe
    ∧ (∀ r x, nodes w !! r = Some x → r ≠ pe →
         ∃ x', nodes w' !! r = Some x'
               ∧ kind x' = kind x ∧ parentNode x' = parentNode x
               ∧ childNodes x' = childNodes x ∧ classList x' = classList x
               ∧ shadow x' = shadow x ∧ (r ≠ target → x' = x)).
Proof.
  intros Hn Hv Hvsc pos Hb Hpt Hpn Hpar Hpe Hk Hch Hnot d.
  destruct (create_tree_run w target pe p (Some pt) n pen v Hn Hv Hvsc)
    as (w' & pen' & nd & E & Hpen' & Hch' & _ & _ & _ & _ & Hnd & Hndp & _ & Hrest).
  { unfold insertion. fold pos. rewrite Hpt. simpl. rewrite Hpn. simpl.
    rewrite decide_True by done. unfold parentElement_of. rewrite Hpar. simpl.
    rewrite Hpe. simpl. by rewrite Hk. }
  { done. }
  { intros r [= <-]. rewrite Hch. apply elem_of_app. right. by left. }
  exists w', pen', nd. rewrite Hch, place_before_at in Hch' by done.
  by repeat split.
Qed.

(** X11. The [afterParent] directive puts the overlay immediately after the
    insertion point among the children of its parent element, at the end
    when the point is the last child: when the insertion point is a child
    of an element whose children are distinct, [create] on a new element
    succeeds and the children of that element are those up to the point,
    the overlay and those after the point; the overlay has that element as
    parent; every other node of the document keeps its place. *)
Theorem create_inserts_after_point (w : world) (target pt pe : ref) (p : option ref)
    (n pn pen : dom_node) (v : media_el) (l1 l2 : list ref) :
  nodes w !! target = Some n → media n = Some v → vsc v = None →
  let pos := getControllerPosition (parent (new_controller w target p n)) target in
  insertionMethod pos = "afterParent" →
  insertionPoint pos = Some pt → nodes w !! pt = Some pn →
  parentNode pn = Some pe → nodes w !! pe = Some pen → kind pen = ElementNode →
  childNodes pen = (l1 ++ pt :: l2)%list → NoDup (childNodes pen) →
  let d := fresh (dom (nodes w)) in
  ∃ w' pen' nd,
    create target p w = (Ok (fresh (dom (ctrls w))), w')
    ∧ nodes w' !! pe = Some pen'
    ∧ childNodes pen' = (l1 ++ pt :: d :: l2)%list
    ∧ nodes w' !! d = Some nd ∧ parentNode nd = Some pe
    ∧ (∀ r x, nodes w !! r = Some x → r ≠ pe →
         ∃ x', nodes w' !! r = Some x'
               ∧ kind x' = kind x ∧ parentNode x' = parentNode x
               ∧ childNodes x' = childNodes x ∧ classList x' = classList x
               ∧ shadow x' = shadow x ∧ (r ≠ target → x' = x)).
Proof.
  intros Hn Hv Hvsc pos Ha Hpt Hpn Hpar Hpe Hk Hch Hnd d.
  rewrite Hch in Hnd. apply NoDup_app in Hnd as (_ & Hl1 & Hnd2).
  apply NoDup_cons in Hnd2 as [Hpt2 Hnd2].
  assert (pt ∉ l1) as Hnot by (intros Hx; by apply (Hl1 pt Hx); left).
  destruct (create_tree_run w target pe p (head l2) n pen v Hn Hv Hvsc)
    as (w' & pen' & nd & E & Hpen' & Hch' & _ & _ & _ & _ & Hnd' & Hndp & _ & Hrest).
  { unfold insertion. fold pos. rewrite Hpt. simpl. rewrite Hpn. simpl.
    rewrite decide_False, decide_True by (rewrite ?Ha; done).
    unfold parentElement_of, nextSibling_of. rewrite Hpar. simpl.
    rewrite Hpe. simpl. by rewrite Hk, Hch, next_after_at. }
  { done. }
  { intros r Hr. rewrite Hch. apply elem_of_app. right. right.
    by apply head_Some_elem_of. }
  exists w', pen', nd. split; [done|]. split; [done|]. split; [|by repeat split].
  rewrite Hch', Hch. destruct l2 as [|y l2]; simpl.
  - rewrite place_before_None. by rewrite <- app_assoc.
  - replace (l1 ++ pt :: y :: l2)%list with ((l1 ++ [pt]) ++ y :: l2)%list
      by (by rewrite <- app_assoc).
    rewrite place_before_at; [by rewrite <- app_assoc|].
    intros [Hy|Hy%list_elem_of_singleton]%elem_of_app.
    + apply (Hl1 y Hy). right. by left.
    + subst. apply Hpt2. by left.
Qed.

End Construction.

(** *** Teardown, exactly *)

Section Removal.

Context `{Externals}.

Lemma overlay_out_exact (w : world) (c : controller) :
  (∀ d, div c = Some d → is_Some (nodes w !! d)) →
  match div c with
  | Some d =>
      n ← get_node d;
      match parentNode n with
      | Some _ => detach d
      | None => mret tt
      end
  | None => mret tt
  end w = (Ok tt, with_nodes (overlay_gone c) w).
Proof.
  intros Hd. unfold with_nodes, overlay_gone.
  destruct (div c) as [d|]; [|by destruct w].
  destruct (Hd d eq_refl) as [nd Hnd]. rewrite Hnd.
  exec (get_node_run _ _ _ Hnd).
  destruct (parentNode nd) as [pp|] eqn:Hp; [|by destruct w].
  unfold detach. exec (get_node_run _ _ _ Hnd). by rewrite Hp.
Qed.

Lemma remove_exact (w : world) (this : ref) (c : controller) :
  live w this c →
  ∃ w1, remove this w = (Ok tt, w1)
    ∧ nodes w1 = alter (on_media (unheard c)) (video c) (overlay_gone c (nodes w))
    ∧ ctrls w1 = ctrls w
    ∧ observers w1 = unobserve (targetObserver c) (observers w)
    ∧ cfg_settings (cfg w1) = cfg_settings (cfg w)
    ∧ keyBindings (cfg w1) = keyBindings (cfg w)
    ∧ mediaElements (cfg w1) = mediaElements (cfg w) ∖ {[video c]}
    ∧ dispatched w1 = dispatched w ∧ setSpeedCalls w1 = setSpeedCalls w
    ∧ console w1 = (console w ++ [Msg "Removing VideoController";
                                  Msg "VideoController removed successfully"])%list.
Proof.
  intros (Hc & (n & v & Hn & Hv) & Hd). unfold remove.
  rewrite bind_log_run. set (w0 := with_console _ w).
  exec (get_ctrl_run this w0 c Hc).
  exec (overlay_out_exact w0 c Hd).
  assert (∃ na, overlay_gone c (nodes w) !! video c = Some na ∧ media na = Some v)
    as (na & Hna & Hva).
  { unfold overlay_gone. destruct (div c) as [d|]; [|eauto].
    destruct (nodes w !! d) as [nd|]; [|eauto].
    destruct (parentNode nd) as [pp|]; [|eauto].
    assert (media <$> alter (set_parentNode None) d
                        (alter (λ pn, set_childNodes (without d (childNodes pn)) pn)
                           pp (nodes w)) !! video c = Some (Some v)) as Hm.
    { rewrite !(alter_view media) by (by intros []). by rewrite Hn; simpl; rewrite Hv. }
    by apply fmap_Some_view in Hm. }
  exec (unlisten_run (with_nodes (overlay_gone c) w0) (video c) "play" (handlePlay c)
          na v Hna Hva).
  erewrite bind_of_run; [cbv beta|].
  2: { apply (unlisten_run _ (video c) "seeked" (handleSeek c)
                (on_media (unlisten "play" (handlePlay c)) na)
                (unlisten "play" (handlePlay c) v)).
       - simpl. by rewrite lookup_alter_eq, Hna.
       - unfold on_media. simpl. by rewrite Hva. }
  erewrite (bind_of_run _ _ _ _ _ (unobserve_run _ (targetObserver c))). cbv beta.
  unfold removeMediaElement. rewrite bind_modify_run.
  unfold update_media, update_node. rewrite bind_modify_run. cbv beta.
  eexists. split; [reflexivity|]. simpl. split; [|by rewrite <- app_assoc].
  rewrite !alter_alter_eq. apply alter_ext. intros x _. unfold on_media, unheard. simpl.
  by destruct (media x).
Qed.

Lemma unlisten_listeners (type : string) (oh : option handler) (v : media_el)
    (l : string * handler) :
  (l ∈ listeners (unlisten type oh v)
   ↔ l ∈ listeners v ∧ ∀ h, oh = Some h → l ≠ (type, h))
  ∧ listeners (unlisten type oh v) `sublist_of` listeners v
  ∧ vsc (unlisten type oh v) = vsc v
  ∧ currentSrc (unlisten type oh v) = currentSrc v
  ∧ src (unlisten type oh v) = src v
  ∧ playbackRate (unlisten type oh v) = playbackRate v.
Proof.
  destruct oh as [h|]; simpl.
  - split; [|split; [|done]].
    + rewrite list_elem_of_In, filter_In, <- list_elem_of_In.
      rewrite negb_true_iff, bool_decide_eq_false. split.
      * intros [Hl Hne]. split; [done|]. by intros h' [= <-].
      * intros [Hl Hne]. split; [done|]. by apply Hne.
    + induction (listeners v) as [|x l' IH]; simpl; [done|].
      destruct (negb _); by constructor.
  - split; [|done]. split; [by intros ?|]. by intros [? _].
Qed.

(** X12. [remove] takes back what the constructor set up, and nothing else.
    On a controller of the world it returns normally; the overlay loses
    its parent and its former parent loses it as a child, the other
    children staying in order; the element loses the back-reference and
    the two handlers of the controller and keeps its other listeners in
    order, its sources and its playback rate; the observer of the
    controller observes nothing any more; the element leaves the registry.
    Every other node, every controller object, the other observers, the
    settings, the key bindings, the dispatched events and the calls to
    [setSpeed] are as they were. *)
Theorem remove_takes_back (w : world) (this : ref) (c : controller)
    (n : dom_node) (v : media_el) :
  live w this c → nodes w !! video c = Some n → media n = Some v →
  ∃ w1 n1 v1,
    remove this w = (Ok tt, w1)
    ∧ nodes w1 !! video c = Some n1 ∧ media n1 = Some v1
    ∧ vsc v1 = None ∧ currentSrc v1 = currentSrc v ∧ src v1 = src v
    ∧ playbackRate v1 = playbackRate v
    ∧ listeners v1 `sublist_of` listeners v
    ∧ (∀ l, l ∈ listeners v1
            ↔ l ∈ listeners v
              ∧ (∀ h, handlePlay c = Some h → l ≠ ("play", h))
              ∧ (∀ h, handleSeek c = Some h → l ≠ ("seeked", h)))
    ∧ (∀ d nd pp ppn, div c = Some d → nodes w !! d = Some nd →
         parentNode nd = Some pp → nodes w !! pp = Some ppn → pp ≠ d →
         ∃ nd1 ppn1, nodes w1 !! d = Some nd1 ∧ parentNode nd1 = None
                     ∧ nodes w1 !! pp = Some ppn1
                     ∧ childNodes ppn1 = without d (childNodes ppn)
                     ∧ d ∉ childNodes ppn1)
    ∧ (∀ r x, nodes w !! r = Some x → r ≠ video c → div c ≠ Some r →
         (∀ d nd, div c = Some d → nodes w !! d = Some nd → parentNode nd ≠ Some r) →
         nodes w1 !! r = Some x)
    ∧ ctrls w1 = ctrls w
    ∧ (∀ o ob, targetObserver c = Some o → observers w !! o = Some ob →
         observers w1 !! o = Some {| owner := owner ob; observing := [] |})
    ∧ (∀ x, targetObserver c ≠ Some x → observers w1 !! x = observers w !! x)
    ∧ mediaElements (cfg w1) = mediaElements (cfg w) ∖ {[video c]}
    ∧ cfg_settings (cfg w1) = cfg_settings (cfg w)
    ∧ keyBindings (cfg w1) = keyBindings (cfg w)
    ∧ dispatched w1 = dispatched w ∧ setSpeedCalls w1 = setSpeedCalls w.
Proof.
  intros L Hn Hv.
  destruct (remove_exact w this c L) as (w1 & E & N & C & O & G & K & M & D & S & _).
  assert (∃ na, overlay_gone c (nodes w) !! video c = Some na ∧ media na = Some v)
    as (na & Hna & Hva).
  { unfold overlay_gone. destruct (div c) as [d|]; [|eauto].
    destruct (nodes w !! d) as [nd|]; [|eauto].
    destruct (parentNode nd) as [pp|]; [|eauto].
    assert (media <$> alter (set_parentNode None) d
                        (alter (λ pn, set_childNodes (without d (childNodes pn)) pn)
                           pp (nodes w)) !! video c = Some (Some v)) as Hm.
    { rewrite !(alter_view media) by (by intros []). by rewrite Hn; simpl; rewrite Hv. }
    by apply fmap_Some_view in Hm. }
  exists w1, (on_media (unheard c) na), (unheard c v).
  split; [done|]. split; [by rewrite N, lookup_alter_eq, Hna|].
  split; [unfold on_media; simpl; by rewrite Hva|].
  set (vp := unlisten "play" (handlePlay c) v).
  destruct (unlisten_listeners "play" (handlePlay c) v ("", HandlePlay 0))
    as (_ & Hsub1 & _ & Hcur1 & Hsrc1 & Hrate1).
  destruct (unlisten_listeners "seeked" (handleSeek c) vp ("", HandlePlay 0))
    as (_ & Hsub2 & _ & Hcur2 & Hsrc2 & Hrate2).
  split; [done|]. unfold unheard. fold vp. simpl.
  split; [unfold vp in *; congruence|].
  split; [unfold vp in *; congruence|].
  split; [unfold vp in *; congruence|].
  split; [by etrans|].
  split.
  { intros l.
    rewrite (proj1 (unlisten_listeners "seeked" (handleSeek c) vp l)).
    unfold vp. rewrite (proj1 (unlisten_listeners "play" (handlePlay c) v l)). tauto. }
  split.
  { intros d nd pp ppn Hd Hnd Hp Hpp Hne. rewrite N.
    unfold overlay_gone. rewrite Hd, Hnd, Hp.
    assert (∀ (f : dom_node → dom_node) (r : ref) (m : gmap ref dom_node) x,
              m !! r = Some x →
              alter (on_media (unheard c)) (video c) (alter f r m) !! r
              = Some (if decide (video c = r) then on_media (unheard c) (f x) else f x))
      as Hlook.
    { intros f r m x Hx. case_decide as Hr.
      - by rewrite Hr, !lookup_alter_eq, Hx.
      - by rewrite lookup_alter_ne, lookup_alter_eq, Hx. }
    eexists _, _. split; [apply Hlook; by rewrite lookup_alter_ne|].
    split; [by case_decide|].
    assert (d ≠ pp) as Hne' by congruence.
    rewrite (alter_alter_ne _ _ _ d pp) by done.
    split; [apply Hlook; by rewrite lookup_alter_ne|].
    assert (d ∉ without d (childNodes ppn)) as Hgone.
    { unfold without. rewrite list_elem_of_In, filter_In, <- list_elem_of_In.
      intros [_ Hb]. by rewrite bool_decide_eq_true_2 in Hb. }
    by case_decide. }
  split.
  { intros r x Hr Hrv Hrd Hrp. rewrite N, lookup_alter_ne by done.
    unfold overlay_gone. destruct (div c) as [d|] eqn:Hd; [|done].
    destruct (nodes w !! d) as [nd|] eqn:Hnd; [|done].
    destruct (parentNode nd) as [pp|] eqn:Hp; [|done].
    rewrite !lookup_alter_ne; [done| |congruence].
    intros ->. by apply (Hrp d nd). }
  split; [done|].
  split.
  { intros o ob Ho Hob. rewrite O, Ho. simpl. by rewrite lookup_alter_eq, Hob. }
  split.
  { intros x Hx. rewrite O. destruct (targetObserver c) as [o|]; [|done]. simpl.
    rewrite lookup_alter_ne; [done | congruence]. }
  done.
Qed.

Lemma without_absent (d : ref) (l : list ref) : d ∉ l → without d l = l.
Proof. apply filter_absent. Qed.

Lemma without_place_before (d : ref) (r : option ref) (l : list ref) :
  d ∉ l → without d (place_before [d] r l) = l.
Proof.
  intros Hd. induction l as [|x l IH]; simpl.
  - by rewrite bool_decide_eq_true_2.
  - apply not_elem_of_cons in Hd as [Hne Hd]. case_bool_decide; simpl.
    + rewrite bool_decide_eq_true_2 by done. simpl.
      rewrite bool_decide_eq_false_2 by congruence. simpl.
      f_equal. by apply without_absent.
    + rewrite bool_decide_eq_false_2 by congruence. simpl. f_equal. by apply IH.
Qed.

Lemma set_childNodes_back (l : list ref) (x : dom_node) :
  set_childNodes (childNodes x) (set_childNodes l x) = x.
Proof. by destruct x. Qed.



(** X15. A removed controller is silent: when the listeners of the element
    are the two handlers of the controller, after [remove] the element has
    no listener left, and a play or a seeked notification delivered at it
    runs nothing and changes nothing. *)
Theorem removed_controller_is_silent (w : world) (this : ref) (c : controller)
    (n : dom_node) (v : media_el) (hp hs : handler) (type : string) :
  live w this c → nodes w !! video c = Some n → media n = Some v →
  handlePlay c = Some hp → handleSeek c = Some hs →
  listeners v = [("play", hp); ("seeked", hs)] →
  ∃ w1 n1 v1, remove this w = (Ok tt, w1)
    ∧ nodes w1 !! video c = Some n1 ∧ media n1 = Some v1 ∧ listeners v1 = []
    ∧ deliver type (video c) w1 = (Ok tt, w1).
Proof.
  intros L Hn Hv Hp Hs Hl.
  destruct (remove_exact w this c L) as (w1 & E & N & _).
  assert (∃ na, overlay_gone c (nodes w) !! video c = Some na ∧ media na = Some v)
    as (na & Hna & Hva).
  { unfold overlay_gone. destruct (div c) as [d|]; [|eauto].
    destruct (nodes w !! d) as [nd|]; [|eauto].
    destruct (parentNode nd) as [pp|]; [|eauto].
    assert (media <$> alter (set_parentNode None) d
                        (alter (λ pn, set_childNodes (without d (childNodes pn)) pn)
                           pp (nodes w)) !! video c = Some (Some v)) as Hm.
    { rewrite !(alter_view media) by (by intros []). by rewrite Hn; simpl; rewrite Hv. }
    by apply fmap_Some_view in Hm. }
  assert (nodes w1 !! video c = Some (on_media (unheard c) na)) as Hn1
    by (by rewrite N, lookup_alter_eq, Hna).
  assert (media (on_media (unheard c) na) = Some (unheard c v)) as Hv1.
  { unfold on_media. simpl. by rewrite Hva. }
  assert (listeners (unheard c v) = []) as Hl1.
  { unfold unheard. rewrite Hp, Hs. simpl. rewrite Hl. simpl.
    rewrite (bool_decide_eq_true_2 (("play", hp) = ("play", hp))) by done. simpl.
    by rewrite bool_decide_eq_true_2. }
  exists w1, (on_media (unheard c) na), (unheard c v).
  split; [done|]. split; [done|]. split; [done|]. split; [done|].
  unfold deliver. rewrite (bind_of_run _ _ _ _ _ (get_media_run _ _ _ _ Hn1 Hv1)).
  by rewrite Hl1.
Qed.

End Removal.

(** *** The registry covers the controlled elements *)

#[local] Instance same_backrefs_preorder : PreOrder same_backrefs.
Proof.
  split.
  - by intros w.
  - intros w1 w2 w3 [B1 M1] [B2 M2]. split; [|congruence].
    intros e. by rewrite B2, B1.
Qed.

Lemma backrefs_update_node (r : ref) (f : dom_node → dom_node) :
  (∀ n, backref (f n) = backref n) → keeps same_backrefs (update_node r f).
Proof.
  intros Hf w. split; [|done]. intros e. unfold controlled. simpl.
  destruct (decide (r = e)) as [->|Hne].
  - rewrite lookup_alter_eq. destruct (nodes w !! e); simpl; [apply Hf | done].
  - by rewrite lookup_alter_ne.
Qed.

Lemma backrefs_createNode (k : node_kind) : keeps same_backrefs (createNode k).
Proof.
  intros w. split; [|done]. intros e. unfold controlled. simpl.
  destruct (decide (fresh (dom (nodes w)) = e)) as [<-|Hne].
  - rewrite lookup_insert_eq. simpl.
    by rewrite (proj1 (not_elem_of_dom _ _) (is_fresh (dom (nodes w)))).
  - by rewrite lookup_insert_ne.
Qed.

Lemma backrefs_elsewhere (f : world → world) :
  (∀ w, nodes (f w) = nodes w) →
  (∀ w, mediaElements (cfg (f w)) = mediaElements (cfg w)) →
  keeps same_backrefs (modify f).
Proof.
  intros Hn Hm w. split; [|apply Hm]. intros e. unfold controlled. simpl.
  by rewrite Hn.
Qed.

Ltac backref_solve :=
  first
    [ intros; reflexivity
    | let n := fresh "n" in
      intro n; destruct n as [? ? ? ? [[]|] ?]; unfold backref, on_media, listen; simpl;
      repeat case_match; reflexivity ].

Ltac backrefs_step :=
  lazymatch goal with
  | |- keeps _ (mret _) => apply keeps_ret; tc_solve
  | |- keeps _ (throw _) => apply keeps_throw; tc_solve
  | |- keeps _ get => apply keeps_get; tc_solve
  | |- keeps _ (deref _) => apply keeps_deref; tc_solve
  | |- keeps _ (createNode _) => apply backrefs_createNode
  | |- keeps _ (update_node _ _) => apply backrefs_update_node; backref_solve
  | |- keeps _ (modify _) => apply backrefs_elsewhere; [backref_solve | backref_solve]
  | |- keeps _ (forEach _ _) => apply keeps_forEach; [tc_solve | intros ?]
  | |- keeps _ (mbind _ _) => apply keeps_bind; [tc_solve | | intros ?]
  | |- keeps _ (let _ := _ in _) => cbv zeta
  | |- keeps _ (match ?x with _ => _ end) => destruct x
  | |- keeps _ (if ?x then _ else _) => destruct x
  | |- keeps _ _ =>
      progress unfold createElement, createDocumentFragment, log, get_media, get_node,
        get_ctrl, get_settings, update_media, update_ctrl, detach, appendChild,
        insertBefore, classList_add, classList_remove, addEventListener,
        removeEventListener, dispatchEvent, observe, disconnect, getKeyBinding,
        setKeyBinding, setSpeed, createShadowDOM, new_MutationObserver,
        initializeSpeed, resolveTargetSpeed, applySpeed, initializeControls,
        insertIntoDOM, setupEventHandlers, setupMutationObserver, mediaEventAction,
        onMutation, observerCallback, deliver
  end.

Section Registry.

Context `{Externals}.

Lemma tracked_by_nodes (w : world) :
  map_Forall (λ e n, backref n = None ∨ e ∈ mediaElements (cfg w)) (nodes w) →
  tracked w.
Proof.
  intros F e c Hc. unfold controlled in Hc.
  destruct (nodes w !! e) as [n|] eqn:Hn; [|discriminate]. simpl in Hc.
  destruct (F e n Hn) as [B|B]; [congruence|exact B].
Qed.

Lemma tracked_same (w w' : world) : same_backrefs w w' → tracked w → tracked w'.
Proof.
  intros [B M] T e c Hc. rewrite M. apply (T e c). by rewrite <- B.
Qed.

Lemma deliver_backrefs (type : string) (e : ref) : keeps same_backrefs (deliver type e).
Proof. repeat backrefs_step. Qed.

Lemma observerCallback_backrefs (this : ref) (mutations : list mutation) :
  keeps same_backrefs (observerCallback this mutations).
Proof. repeat backrefs_step. Qed.

Lemma keeps_prefix {A B} (R : relation world) `{!PreOrder R} (m : M A) (k : A → M B)
    (Q : world → Prop) (w0 w : world) :
  R w0 w → keeps R m →
  (∀ w1, R w0 w1 → Q w1) →
  (∀ a w1, R w0 w1 → Q (k a w1).2) →
  Q ((m ≫= k) w).2.
Proof.
  intros R0 K Hthrow Hok. rewrite bind_run. pose proof (K w) as R1.
  destruct (m w) as [[a|e] w1]; simpl in R1.
  - apply Hok. by etrans.
  - apply Hthrow. by etrans.
Qed.

Lemma construct_rest_backrefs (this target : ref) (w3 : world) :
  let w' := (construct_rest this target w3).2 in
  mediaElements (cfg w') = mediaElements (cfg w3)
  ∧ ∀ e, e ≠ target → controlled w' e = controlled w3 e.
Proof.
  intros w'. subst w'.
  set (Q := λ w', mediaElements (cfg w') = mediaElements (cfg w3)
                  ∧ ∀ e, e ≠ target → controlled w' e = controlled w3 e).
  assert (∀ w1, same_backrefs w3 w1 → Q w1) as Hbase.
  { intros w1 [B M]. split; [done|]. intros e _. apply B. }
  change (Q (construct_rest this target w3).2). unfold construct_rest.
  apply (keeps_prefix same_backrefs _ _ Q w3 w3);
    [reflexivity | repeat backrefs_step | exact Hbase | intros d w4 R4].
  apply (keeps_prefix same_backrefs _ _ Q w3 w4);
    [exact R4 | repeat backrefs_step | exact Hbase | intros [] w5 R5].
  apply (keeps_prefix same_backrefs _ _ Q w3 w5);
    [exact R5 | repeat backrefs_step | exact Hbase | intros [] w6 R6].
  apply (keeps_prefix same_backrefs _ _ Q w3 w6);
    [exact R6 | repeat backrefs_step | exact Hbase | intros [] w7 [B7 M7]].
  unfold update_media, update_node. rewrite bind_modify_run, bind_log_run.
  split; [exact M7|]. intros e He. rewrite <- B7. unfold controlled. simpl.
  by rewrite lookup_alter_ne.
Qed.

Lemma create_tracked (target : ref) (p : option ref) (w : world) :
  tracked w → tracked (create target p w).2.
Proof.
  intros T.
  destruct (nodes w !! target) as [n|] eqn:Hn.
  2: { unfold create, get_media, get_node.
       rewrite bind_run, bind_run, bind_get_run. by rewrite Hn. }
  destruct (media n) as [v|] eqn:Hv.
  2: { unfold create, get_media.
       rewrite bind_run, bind_run, (get_node_run _ _ _ Hn). by rewrite Hv. }
  destruct (vsc v) as [existing|] eqn:Hvsc.
  { unfold create. rewrite bind_run, (get_media_run _ _ _ _ Hn Hv). by rewrite Hvsc. }
  destruct (create_new_run w target p n v Hn Hv Hvsc)
    as (w3 & E & _ & _ & _ & _ & M3 & _ & N3).
  rewrite E.
  destruct (construct_rest_backrefs (fresh (dom (ctrls w))) target w3) as [M' B'].
  assert (∀ e, controlled w3 e = controlled w e) as B3.
  { intros e. unfold controlled.
    destruct (forceLastSavedSpeed _ && _); destruct N3 as [-> _]; [done|].
    destruct (decide (target = e)) as [->|Hne].
    - rewrite lookup_alter_eq, Hn. simpl. unfold backref, on_media. simpl.
      by rewrite Hv.
    - by rewrite lookup_alter_ne. }
  intros e c Hc. rewrite M', M3.
  destruct (decide (e = target)) as [->|Hne]; [set_solver|].
  rewrite B', B3 in Hc by done. apply T in Hc. set_solver.
Qed.

Lemma remove_tracked (this : ref) (w : world) : tracked w → tracked (remove this w).2.
Proof.
  intros T. unfold remove.
  assert (∀ w1, same_backrefs w w1 → tracked w1) as Hbase.
  { intros w1 R1. by apply (tracked_same w). }
  apply (keeps_prefix same_backrefs _ _ tracked w w);
    [reflexivity | repeat backrefs_step | exact Hbase | intros [] w1 R1].
  apply (keeps_prefix same_backrefs _ _ tracked w w1);
    [exact R1 | repeat backrefs_step | exact Hbase | intros c w2 R2].
  apply (keeps_prefix same_backrefs _ _ tracked w w2);
    [exact R2 | repeat backrefs_step | exact Hbase | intros [] w3 R3].
  apply (keeps_prefix same_backrefs _ _ tracked w w3);
    [exact R3 | repeat backrefs_step | exact Hbase | intros [] w4 R4].
  apply (keeps_prefix same_backrefs _ _ tracked w w4);
    [exact R4 | repeat backrefs_step | exact Hbase | intros [] w5 R5].
  apply (keeps_prefix same_backrefs _ _ tracked w w5);
    [exact R5 | repeat backrefs_step | exact Hbase | intros [] w6 [B6 M6]].
  unfold removeMediaElement, update_media, update_node.
  rewrite bind_modify_run, bind_modify_run. unfold log, modify.
  intros e c' Hc. simpl in *. rewrite M6.
  assert (e ≠ video c) as Hne.
  { intros ->. unfold controlled in Hc. simpl in Hc. rewrite lookup_alter_eq in Hc.
    destruct (nodes w6 !! video c) as [[? ? ? ? [[]|] ?]|]; discriminate. }
  unfold controlled in Hc. simpl in Hc. rewrite lookup_alter_ne in Hc by done.
  apply elem_of_difference. split; [|set_solver].
  apply (T e c'). rewrite <- B6. exact Hc.
Qed.

(** X24. The registry covers the controlled elements, whatever happens: if
    every element that refers back to a controller is in the tracked
    registry, this is still so after [create] on any element with any
    hint, after [remove] on any controller, after a play or seeked
    notification and after a callback of a source observer, whether they
    end normally or raise. The notifications and the callbacks change
    neither a back-reference nor the registry. *)
Theorem registry_covers_controlled (w : world) :
  tracked w →
  (∀ target p, tracked (create target p w).2)
  ∧ (∀ this, tracked (remove this w).2)
  ∧ (∀ type e, same_backrefs w (deliver type e w).2)
  ∧ (∀ this mutations, same_backrefs w (observerCallback this mutations w).2).
Proof.
  intros T. split; [intros; by apply create_tracked|].
  split; [intros; by apply remove_tracked|].
  split; [intros type e; apply deliver_backrefs|].
  intros this mutations. apply observerCallback_backrefs.
Qed.

End Registry.

(** *** The further properties at the sample pages *)

Section MoreSamplePages.

#[local] Existing Instance base_site.

Lemma create_without_remembering_witness :
  stored_speed (cfg_settings (cfg forgetful_page)) movie = Some (2 # 1)%Q
  ∧ rate (create 2 None forgetful_page).2 2 = Some 1%Q
  ∧ keyBindings (cfg (create 2 None forgetful_page).2) !! "reset"
    = Some (Some (18 # 10)%Q).
Proof.
  split; [reflexivity|].
  destruct (create_without_remembering forgetful_page 2 None
              (video_node 1 (clip movie movie)) (clip movie movie))
    as (_ & R & _ & K); try (vm_compute; reflexivity).
  split; [exact R | exact K].
Defined.

Lemma create_uses_stored_rate_witness :
  rate (create 2 None stored_pending_page).2 2 = Some (2 # 1)%Q
  ∧ keyBindings (cfg (create 2 None stored_pending_page).2) !! "reset"
    = Some (Some (2 # 1)%Q).
Proof.
  destruct (create_uses_stored_rate stored_pending_page 2 None
              (video_node 1 (clip "" movie)) (clip "" movie) (2 # 1)%Q)
    as (_ & K & R); try (vm_compute; reflexivity).
  split; [exact (proj1 R) | exact K].
Defined.

Lemma handler_when_remembering_witness :
  ∃ w1 w2, deliver "seeked" 2 remembering_page = (Ok tt, w1)
    ∧ deliver "play" 2 w1 = (Ok tt, w2)
    ∧ setSpeedCalls w2 = [(2, (2 # 1)%Q); (2, (2 # 1)%Q)]
    ∧ cfg w2 = cfg remembering_page.
Proof.
  destruct (handler_when_remembering remembering_page 0 2
              (video_node 1 (watched (set_playbackRate (2 # 1)%Q (clip movie movie))))
              (watched (set_playbackRate (2 # 1)%Q (clip movie movie))))
    as (w1 & w2 & E1 & _ & _ & _ & _ & E2 & S2 & G2 & _);
    try (vm_compute; reflexivity).
  exists w1, w2. split; [exact E1|]. split; [exact E2|]. split; [exact S2 | exact G2].
Defined.

Lemma create_prefers_parent_element_witness :
  create 2 (Some 0) pending_page = create 2 None pending_page.
Proof.
  refine (proj1 (create_prefers_parent_element pending_page 2 1
                   (video_node 1 (clip "" movie)) (Some 0) None _ _));
    vm_compute; reflexivity.
Defined.

Lemma observerCallback_skips_other_records_witness :
  observerCallback 0 [child_added; src_changed; child_added] playing_page
  = observerCallback 0 [src_changed] playing_page
  ∧ observerCallback 0 [child_added] playing_page = (Ok tt, playing_page).
Proof.
  split.
  - exact (proj1 (observerCallback_skips_other_records 0
                    [child_added; src_changed; child_added] playing_page)).
  - apply (proj2 (observerCallback_skips_other_records 0 [child_added] playing_page)).
    repeat constructor.
Defined.

Lemma source_mutation_settles_witness :
  ∃ w1 w2, observerCallback 0 [src_changed] playing_page = (Ok tt, w1)
    ∧ observerCallback 0 [src_changed; src_changed] playing_page = (Ok tt, w2)
    ∧ nodes w2 = nodes w1.
Proof.
  destruct (source_mutation_settles playing_page 0 2 3 first_controller
              {| kind := ElementNode; parentNode := Some 1; childNodes := [];
                 classList := ["vsc-controller"; "vcs-show"]; media := None;
                 shadow := Some {| top := "0px"; left := "0px"; speed_text := "1.0";
                                   opacity := (3 # 10)%Q; buttonSize := (14 # 1)%Q |} |}
              (video_node 1 (watched (clip movie movie)))
              (watched (clip movie movie)) src_changed)
    as (w1 & w2 & _ & E1 & E2 & N & _); try (vm_compute; reflexivity).
  - split; [reflexivity|]. split; [by left | reflexivity].
  - exists w1, w2. split; [exact E1|]. split; [exact E2 | exact N].
Defined.

Lemma create_dresses_overlay_witness :
  ∃ nd, nodes (create 2 None pending_page).2 !! 3 = Some nd
    ∧ classList nd = ["vsc-controller"; "vsc-nosource"; "vcs-show"]
    ∧ speed_text <$> shadow nd = Some "1.0".
Proof.
  destruct (create_dresses_overlay pending_page 2 None
              (video_node 1 (clip "" movie)) (clip "" movie))
    as (nd & Hnd & _ & _ & Hc & Hs & _); try (vm_compute; reflexivity).
  exists nd. split; [exact Hnd|]. split; [exact Hc|]. rewrite Hs. reflexivity.
Defined.



Lemma create_inserts_before_point_witness :
  ∃ w' pen', @create before_site 2 None plain_player_page = (Ok 0, w')
    ∧ nodes w' !! 1 = Some pen' ∧ childNodes pen' = [7; 4; 6].
Proof.
  destruct (@create_inserts_before_point before_site plain_player_page 2 4 1 None
              (video_node 4 (clip movie movie)) (element (Some 1) [2])
              (element (Some 0) [4; 6]) (clip movie movie) [] [6])
    as (w' & pen' & nd & E & Hpe & Hch & _); try (vm_compute; reflexivity).
  - apply not_elem_of_nil.
  - exists w', pen'. split; [exact E|]. split; [exact Hpe | exact Hch].
Defined.

Lemma create_inserts_after_point_witness :
  ∃ w' pen', @create after_site 2 None plain_player_page = (Ok 0, w')
    ∧ nodes w' !! 1 = Some pen' ∧ childNodes pen' = [4; 7; 6].
Proof.
  destruct (@create_inserts_after_point after_site plain_player_page 2 4 1 None
              (video_node 4 (clip movie movie)) (element (Some 1) [2])
              (element (Some 0) [4; 6]) (clip movie movie) [] [6])
    as (w' & pen' & nd & E & Hpe & Hch & _); try (vm_compute; reflexivity).
  - apply (bool_decide_unpack _). vm_compute. reflexivity.
  - exists w', pen'. split; [exact E|]. split; [exact Hpe | exact Hch].
Defined.

Lemma remove_takes_back_witness :
  ∃ w1 n1 v1, remove 0 playing_page = (Ok tt, w1)
    ∧ nodes w1 !! 2 = Some n1 ∧ media n1 = Some v1
    ∧ vsc v1 = None
    ∧ mediaElements (cfg w1) = mediaElements (cfg playing_page) ∖ {[2]}.
Proof.
  destruct (remove_takes_back playing_page 0 first_controller
              (video_node 1 (watched (clip movie movie))) (watched (clip movie movie)))
    as (w1 & n1 & v1 & E & Hn & Hv & Hvsc & _ & _ & _ & _ & _ & _ & _ & _ & _ & _
        & M & _); try (vm_compute; reflexivity).
  - split; [vm_compute; reflexivity|]. split.
    + exists (video_node 1 (watched (clip movie movie))), (watched (clip movie movie)).
      split; vm_compute; reflexivity.
    + intros d [= <-]. vm_compute. eauto.
  - exists w1, n1, v1. split; [exact E|]. split; [exact Hn|]. split; [exact Hv|].
    split; [exact Hvsc | exact M].
Defined.



Lemma removed_controller_is_silent_witness :
  ∃ w1, remove 0 playing_page = (Ok tt, w1)
    ∧ deliver "play" 2 w1 = (Ok tt, w1).
Proof.
  destruct (removed_controller_is_silent playing_page 0 first_controller
              (video_node 1 (watched (clip movie movie))) (watched (clip movie movie))
              (HandlePlay 0) (HandleSeek 0) "play")
    as (w1 & n1 & v1 & E & _ & _ & _ & D); try (vm_compute; reflexivity).
  - split; [vm_compute; reflexivity|]. split.
    + exists (video_node 1 (watched (clip movie movie))), (watched (clip movie movie)).
      split; vm_compute; reflexivity.
    + intros d [= <-]. vm_compute. eauto.
  - exists w1. split; [exact E | exact D].
Defined.

Lemma registry_covers_controlled_witness :
  controlled remembering_page 2 = Some 0
  ∧ tracked (remove 0 remembering_page).2
  ∧ tracked (create 2 None remembering_page).2
  ∧ same_backrefs remembering_page (deliver "play" 2 remembering_page).2.
Proof.
  split; [vm_compute; reflexivity|].
  destruct (registry_covers_controlled remembering_page) as (C & R & D & _).
  - apply tracked_by_nodes. apply (bool_decide_unpack _). vm_compute. reflexivity.
  - split; [apply R|]. split; [apply C|apply D].
Defined.

End MoreSamplePages.

End LifecycleProps.

(** ** Properties of the scans and of the validator *)

Module ScanProps.

Import Scan.

#[local] Open Scope list_scope.

Lemma visit_eq (n : node) :
  visit n = n :: (flat_map (λ c, if descend c then visit c else []) (childNodes n)
                  ++ flat_map (λ c, if descend c then visit c else [])
                       (shadowChildren n))%list.
Proof. destruct n as [? ? ? ? ? ? ? ? [[]|] ? ?]; reflexivity. Qed.

Lemma encapsulated_eq (n : node) :
  encapsulated n
  = (flat_map (λ c, if descend c then encapsulated c else []) (childNodes n)
     ++ flat_map (λ c, if descend c then visit c else []) (shadowChildren n))%list.
Proof. destruct n as [? ? ? ? ? ? ? ? [[]|] ? ?]; reflexivity. Qed.

Lemma subtree_eq (n : node) :
  subtree n = n :: (flat_map subtree (childNodes n)
                    ++ flat_map subtree (shadowChildren n))%list.
Proof. destruct n as [? ? ? ? ? ? ? ? [[]|] ? ?]; reflexivity. Qed.

Lemma node_ind' (P : node → Prop) :
  (∀ n, Forall P (childNodes n) → Forall P (shadowChildren n) → P n) →
  ∀ n, P n.
Proof.
  intros H. fix IH 1. intros n. apply H.
  - destruct n as [i nm ty con st rs rc cs sh co doc]. simpl.
    induction cs as [|c cs IHcs]; constructor; [apply IH | exact IHcs].
  - destruct n as [i nm ty con st rs rc cs sh co doc]. unfold shadowChildren. simpl.
    destruct sh as [[r ss]|]; [|constructor].
    induction ss as [|c ss IHss]; constructor; [apply IH | exact IHss].
Qed.

Lemma omap_flat_map {A B C} (f : B → option C) (g : A → list B) (l : list A) :
  omap f (flat_map g l) = flat_map (λ x, omap f (g x)) l.
Proof. induction l as [|x l IH]; [done|]. simpl. by rewrite omap_app, IH. Qed.

Lemma flat_map_ext_Forall {A B} (f g : A → list B) (l : list A) :
  Forall (λ x, f x = g x) l → flat_map f l = flat_map g l.
Proof. induction 1 as [|x l Hx _ IH]; [done|]. simpl. by rewrite Hx, IH. Qed.

Lemma filter_flat_map {A B} (P : B → Prop) `{∀ y, Decision (P y)}
    (g : A → list B) (l : list A) :
  filter P (flat_map g l) = flat_map (λ x, filter P (g x)) l.
Proof. induction l as [|x l IH]; [done|]. simpl. by rewrite filter_app, IH. Qed.

Lemma traverse_eq (names : list string) (n : node) :
  traverse names n
  = ((if bool_decide (nodeName n ∈ names) then [Push n] else [])
     ++ match shadowRoot n with
        | Some (root, _) => [Observe root]
        | None => []
        end
     ++ flat_map (λ c, if descend c then traverse names c else []) (childNodes n)
     ++ flat_map (λ c, if descend c then traverse names c else [])
          (shadowChildren n))%list.
Proof. destruct n as [? ? ? ? ? ? ? ? [[]|] ? ?]; reflexivity. Qed.

Lemma pushed_app (a b : list step) : pushed (a ++ b) = (pushed a ++ pushed b)%list.
Proof. apply omap_app. Qed.

(** [traverse] pushes the visited nodes of a wanted name. *)
Lemma traverse_visit (names : list string) (n : node) :
  pushed (traverse names n) = filter (λ y, nodeName y ∈ names) (visit n).
Proof.
  induction n as [n IHc IHs] using node_ind'.
  assert (∀ l, Forall (λ c, pushed (traverse names c)
                            = filter (λ y, nodeName y ∈ names) (visit c)) l →
          pushed (flat_map (λ c, if descend c then traverse names c else []) l)
          = filter (λ y, nodeName y ∈ names)
              (flat_map (λ c, if descend c then visit c else []) l)) as Heach.
  { intros l Hl. unfold pushed at 1. rewrite omap_flat_map, filter_flat_map.
    apply flat_map_ext_Forall. eapply Forall_impl; [exact Hl|].
    intros c Hc. simpl. destruct (descend c); [exact Hc | done]. }
  rewrite traverse_eq, visit_eq, !pushed_app, (Heach _ IHc), (Heach _ IHs).
  rewrite filter_cons, filter_app.
  assert (pushed match shadowRoot n with
                 | Some (root, _) => [Observe root]
                 | None => []
                 end = []) as -> by (by destruct (shadowRoot n) as [[]|]).
  by case_decide; case_bool_decide.
Qed.

(** *** Deduplication *)

Lemma filter_all {A} (P : A → Prop) `{∀ x, Decision (P x)} (l : list A) :
  Forall P l → filter P l = l.
Proof.
  induction 1 as [|x l Hx _ IH]; [done|]. by rewrite filter_cons_True, IH.
Qed.

Lemma filter_none {A} (P : A → Prop) `{∀ x, Decision (P x)} (l : list A) :
  Forall (λ x, ¬ P x) l → filter P l = [].
Proof.
  induction 1 as [|x l Hx _ IH]; [done|]. by rewrite filter_cons_False.
Qed.

Lemma unique_subset (l : list node) (x : node) : x ∈ unique l → x ∈ l.
Proof.
  revert x. induction l as [|y l IH]; intros x; simpl; [done|].
  rewrite !elem_of_cons, list_elem_of_filter. naive_solver.
Qed.

Lemma unique_covers (l : list node) (x : node) :
  x ∈ l → ∃ y, y ∈ unique l ∧ nid y = nid x.
Proof.
  induction l as [|z l IH]; [by intros ?%elem_of_nil|].
  intros [->|Hx]%elem_of_cons; simpl.
  - exists z. split; [left|done].
  - destruct (IH Hx) as (y & Hy & E).
    destruct (decide (nid y = nid z)) as [Ez|Ez].
    + exists z. split; [left | congruence].
    + exists y. split; [|done]. right. by apply list_elem_of_filter.
Qed.

Lemma NoDup_ids_filter (P : node → Prop) `{∀ y, Decision (P y)} (l : list node) :
  NoDup (nid <$> l) → NoDup (nid <$> filter P l).
Proof.
  intros Hl. eapply sublist_NoDup; [exact Hl|].
  apply fmap_sublist, sublist_filter.
Qed.

Lemma unique_NoDup (l : list node) : NoDup (nid <$> unique l).
Proof.
  induction l as [|x l IH]; simpl; [constructor|].
  constructor; [|by apply NoDup_ids_filter].
  intros (y & E & Hy)%list_elem_of_fmap.
  apply list_elem_of_filter in Hy as [Hne _]. congruence.
Qed.

Lemma unique_id (l : list node) : NoDup (nid <$> l) → unique l = l.
Proof.
  induction l as [|x l IH]; simpl; [done|].
  intros [Hx Hl]%NoDup_cons. rewrite IH by done. f_equal.
  apply filter_all, Forall_forall. intros y Hy E. apply Hx.
  rewrite <- E. apply list_elem_of_fmap. eauto.
Qed.

Lemma unique_app (l1 l2 : list node) :
  unique (l1 ++ l2)
  = (unique l1 ++ filter (λ y, nid y ∉ nid <$> l1) (unique l2))%list.
Proof.
  induction l1 as [|x l1 IH]; simpl.
  - symmetry. apply filter_all, Forall_forall. intros y _. apply not_elem_of_nil.
  - rewrite IH, filter_app, list_filter_filter. f_equal. f_equal.
    apply list_filter_iff. intros y. rewrite not_elem_of_cons. tauto.
Qed.

(** *** The shape of a traversal *)

Lemma flat_map_split {A B} (f g h : A → list B) (l : list A) :
  Forall (λ c, f c ≡ₚ g c ++ h c) l →
  flat_map f l ≡ₚ flat_map g l ++ flat_map h l.
Proof.
  induction 1 as [|c l Hc _ IH]; [done|]. simpl. rewrite Hc, IH.
  rewrite <- !app_assoc. f_equiv. rewrite !app_assoc. f_equiv.
  apply Permutation_app_comm.
Qed.

Lemma flat_map_submseteq {A B} (f h : A → list B) (l : list A) :
  Forall (λ c, f c ⊆+ h c) l → flat_map f l ⊆+ flat_map h l.
Proof.
  induction 1 as [|c l Hc _ IH]; [done|]. simpl. by apply submseteq_app.
Qed.

Lemma flat_map_submseteq2 {A B} (f g h : A → list B) (l : list A) :
  Forall (λ c, f c ++ g c ⊆+ h c) l →
  flat_map f l ++ flat_map g l ⊆+ flat_map h l.
Proof.
  induction 1 as [|c l Hc _ IH]; [done|]. simpl.
  trans ((f c ++ g c) ++ (flat_map f l ++ flat_map g l)).
  - apply Permutation_submseteq.
    rewrite <- !app_assoc. f_equiv. rewrite !app_assoc. f_equiv.
    apply Permutation_app_comm.
  - by apply submseteq_app.
Qed.

Lemma light_eq (n : node) :
  light n = n :: flat_map (λ c, if descend c then light c else []) (childNodes n).
Proof. by destruct n. Qed.

Lemma visit_split (n : node) : visit n ≡ₚ light n ++ encapsulated n.
Proof.
  induction n as [n IHc IHs] using node_ind'.
  rewrite visit_eq, encapsulated_eq, light_eq.
  rewrite <- app_comm_cons. apply Permutation_skip.
  rewrite (flat_map_split _ (λ c, if descend c then light c else [])
             (λ c, if descend c then encapsulated c else [])).
  - by rewrite <- app_assoc.
  - eapply Forall_impl; [exact IHc|]. intros c Hc. simpl.
    by destruct (descend c).
Qed.

Lemma light_in (n y : node) :
  y ∈ light n → y = n ∨ (y ∈ descendants n ∧ nodeType y = ELEMENT_NODE).
Proof.
  revert y. induction n as [n IHc _] using node_ind'. intros y.
  destruct n as [i nm ty con st rs rc cs sh co doc]. simpl in *.
  intros [->|Hy]%elem_of_cons; [by left|]. right.
  apply list_elem_of_In, in_flat_map in Hy as (c & Hc & Hy).
  apply list_elem_of_In in Hc, Hy.
  destruct (descend c) eqn:Ed; [|by apply elem_of_nil in Hy].
  rewrite Forall_forall in IHc.
  destruct (IHc c Hc y Hy) as [->|[Hd Ht]].
  - split.
    + apply list_elem_of_In, in_flat_map. exists c.
      split; [by apply list_elem_of_In | by left].
    + unfold descend in Ed. apply andb_true_iff in Ed as [Ed _].
      by apply bool_decide_eq_true in Ed.
  - split; [|done].
    apply list_elem_of_In, in_flat_map. exists c.
    split; [by apply list_elem_of_In|]. right. by apply list_elem_of_In.
Qed.

Lemma tree_parts (n : node) :
  visit n ⊆+ subtree n ∧ (n :: descendants n) ++ encapsulated n ⊆+ subtree n.
Proof.
  induction n as [n IHc IHs] using node_ind'.
  rewrite visit_eq, encapsulated_eq, subtree_eq.
  assert (∀ l, Forall (λ c, visit c ⊆+ subtree c
                            ∧ (c :: descendants c) ++ encapsulated c ⊆+ subtree c) l →
          flat_map (λ c, if descend c then visit c else []) l ⊆+ flat_map subtree l)
    as Hv.
  { intros l Hl. apply flat_map_submseteq. eapply Forall_impl; [exact Hl|].
    intros c [Hc _]. simpl. destruct (descend c); [done | apply submseteq_nil_l]. }
  split.
  - apply submseteq_skip, submseteq_app; by apply Hv.
  - assert (descendants n = flat_map (λ c, c :: descendants c) (childNodes n)) as ->
      by (by destruct n).
    simpl. apply submseteq_skip. rewrite app_assoc.
    apply submseteq_app; [|by apply Hv].
    apply flat_map_submseteq2. eapply Forall_impl; [exact IHc|].
    intros c [_ Hc]. simpl. destruct (descend c); [done|].
    rewrite app_nil_r.
    etrans; [|exact Hc]. apply submseteq_inserts_r. done.
Qed.

Lemma visit_elements (n y : node) :
  y ∈ visit n → y = n ∨ nodeType y = ELEMENT_NODE.
Proof.
  revert y. induction n as [n IHc IHs] using node_ind'. intros y.
  rewrite visit_eq. intros [->|Hy]%elem_of_cons; [by left|]. right.
  rewrite Forall_forall in IHc, IHs.
  apply elem_of_app in Hy as [Hy|Hy];
    apply list_elem_of_In, in_flat_map in Hy as (c & Hc & Hy);
    apply list_elem_of_In in Hc, Hy;
    (destruct (descend c) eqn:Ed; [|by apply elem_of_nil in Hy]);
    unfold descend in Ed; apply andb_true_iff in Ed as [Ed _];
    apply bool_decide_eq_true in Ed.
  - destruct (IHc c Hc y Hy) as [->|]; done.
  - destruct (IHs c Hc y Hy) as [->|]; done.
Qed.

Lemma encapsulated_elements (n y : node) :
  y ∈ encapsulated n → nodeType y = ELEMENT_NODE.
Proof.
  revert y. induction n as [n IHc _] using node_ind'. intros y.
  rewrite encapsulated_eq. rewrite Forall_forall in IHc.
  intros [Hy|Hy]%elem_of_app;
    apply list_elem_of_In, in_flat_map in Hy as (c & Hc & Hy);
    apply list_elem_of_In in Hc, Hy;
    (destruct (descend c) eqn:Ed; [|by apply elem_of_nil in Hy]).
  - by eapply IHc.
  - unfold descend in Ed. apply andb_true_iff in Ed as [Ed _].
    apply bool_decide_eq_true in Ed.
    by destruct (visit_elements c y Hy) as [->|].
Qed.

(** *** The scans *)

Section Scans.

Context `{Externals}.

Lemma audio_logged (m : log_msg) (s : scanner) :
  audioBoolean (logged m s) = audioBoolean s.
Proof. reflexivity. Qed.

Lemma audio_observed (s : scanner) (roots : list nat) :
  audioBoolean (foldl _observeShadowRoot s roots) = audioBoolean s.
Proof.
  revert s. induction roots as [|r roots IH]; intros s; [done|]. simpl.
  rewrite IH. unfold _observeShadowRoot. by destruct (mutationObserver s).
Qed.

Lemma scanForMedia_audio (d : node) (s : scanner) :
  audioBoolean (scanForMedia d s).2 = audioBoolean s.
Proof. unfold scanForMedia. cbn. apply audio_observed. Qed.

Lemma scanForMedia_result (d : node) (s s' : scanner) :
  audioBoolean s = audioBoolean s' → (scanForMedia d s).1 = (scanForMedia d s').1.
Proof. intros E. unfold scanForMedia. simpl. by rewrite E. Qed.

Lemma scanIframes_fold (l : list node) (acc acc' : list node * scanner) :
  acc.1 = acc'.1 → audioBoolean acc.2 = audioBoolean acc'.2 →
  let step := λ (acc : list node * scanner) frame,
    if crossOrigin frame then
      (acc.1, logged (Debug "Cannot access iframe content (cross-origin)") acc.2)
    else
      match contentDocument frame with
      | Some childDocument =>
          let iframeMedia := scanForMedia childDocument acc.2 in
          (acc.1 ++ iframeMedia.1,
           logged (DebugNum "media elements in iframe" (length iframeMedia.1))
                  iframeMedia.2)
      | None => acc
      end in
  (foldl step acc l).1 = (foldl step acc' l).1
  ∧ audioBoolean (foldl step acc l).2 = audioBoolean acc.2.
Proof.
  intros E1 E2 step. revert acc acc' E1 E2.
  induction l as [|f l IH]; intros acc acc' E1 E2; [done|]. simpl.
  assert ((step acc f).1 = (step acc' f).1
          ∧ audioBoolean (step acc f).2 = audioBoolean acc.2
          ∧ audioBoolean (step acc' f).2 = audioBoolean acc'.2) as (F1 & F2 & F3).
  { unfold step. destruct (crossOrigin f); [done|].
    destruct (contentDocument f) as [cd|]; [|done]. simpl.
    by rewrite !audio_observed, E1, E2. }
  destruct (IH (step acc f) (step acc' f) F1 ltac:(congruence)) as [G1 G2].
  split; [done | congruence].
Qed.

Lemma scanIframes_audio (d : node) (s : scanner) :
  audioBoolean (scanIframes d s).2 = audioBoolean s.
Proof. apply (scanIframes_fold _ ([], s) ([], s)); done. Qed.

Lemma scanIframes_result (d : node) (s s' : scanner) :
  audioBoolean s = audioBoolean s' → (scanIframes d s).1 = (scanIframes d s').1.
Proof. intros E. by apply (scanIframes_fold _ ([], s) ([], s')). Qed.

Lemma scanContainers_fold (d : node) (audio : bool) (l : list string)
    (acc acc' : list node * scanner) :
  acc.1 = acc'.1 → audioBoolean acc.2 = audioBoolean acc'.2 →
  let step := λ (acc : list node * scanner) selector,
    match querySelectorAll d selector with
    | Some containers =>
        (acc.1 ++ flat_map (λ container, findMediaElements container audio) containers,
         acc.2)
    | None => (acc.1, logged (Warn "Invalid selector" selector) acc.2)
    end in
  (foldl step acc l).1 = (foldl step acc' l).1
  ∧ audioBoolean (foldl step acc l).2 = audioBoolean acc.2.
Proof.
  intros E1 E2 step. revert acc acc' E1 E2.
  induction l as [|f l IH]; intros acc acc' E1 E2; [done|]. simpl.
  assert ((step acc f).1 = (step acc' f).1
          ∧ audioBoolean (step acc f).2 = audioBoolean acc.2
          ∧ audioBoolean (step acc' f).2 = audioBoolean acc'.2) as (F1 & F2 & F3).
  { unfold step. destruct (querySelectorAll d f); simpl; by rewrite ?E1. }
  destruct (IH (step acc f) (step acc' f) F1 ltac:(congruence)) as [G1 G2].
  split; [done | congruence].
Qed.

Lemma scanContainers_audio (d : node) (s : scanner) :
  audioBoolean (scanSiteSpecificContainers d s).2 = audioBoolean s.
Proof. apply (scanContainers_fold d _ _ ([], s) ([], s)); done. Qed.

Lemma scanContainers_result (d : node) (s s' : scanner) :
  audioBoolean s = audioBoolean s' →
  (scanSiteSpecificContainers d s).1 = (scanSiteSpecificContainers d s').1.
Proof.
  intros E. unfold scanSiteSpecificContainers. rewrite E.
  by apply (scanContainers_fold d _ _ ([], s) ([], s')).
Qed.

Lemma scanAll_audio (d : node) (s : scanner) :
  audioBoolean (scanAll d s).2 = audioBoolean s.
Proof.
  unfold scanAll. cbv zeta. cbn [fst snd].
  by rewrite audio_logged, scanIframes_audio, scanContainers_audio, scanForMedia_audio.
Qed.

Lemma scanAll_result (d : node) (s s' : scanner) :
  audioBoolean s = audioBoolean s' → (scanAll d s).1 = (scanAll d s').1.
Proof.
  intros E. unfold scanAll. cbv zeta. cbn [fst snd].
  rewrite (scanForMedia_result d s s' E).
  assert (audioBoolean (scanForMedia d s).2 = audioBoolean (scanForMedia d s').2) as E2
    by (by rewrite !scanForMedia_audio).
  rewrite (scanContainers_result d _ _ E2).
  assert (audioBoolean (scanSiteSpecificContainers d (scanForMedia d s).2).2
          = audioBoolean (scanSiteSpecificContainers d (scanForMedia d s').2).2) as E3
    by (by rewrite !scanContainers_audio).
  by rewrite (scanIframes_result d _ _ E3).
Qed.

Lemma perm_of_eq {A} (l k : list A) : l = k → l ≡ₚ k.
Proof. by intros ->. Qed.

Lemma submseteq_NoDup {A} (l k : list A) : l ⊆+ k → NoDup k → NoDup l.
Proof.
  intros (k' & Hk)%submseteq_Permutation Hnd. rewrite Hk in Hnd.
  by apply NoDup_app in Hnd as (? & _ & _).
Qed.

Lemma filter_ext_elem {A} (P Q : A → Prop) `{∀ x, Decision (P x)}
    `{∀ x, Decision (Q x)} (l : list A) :
  (∀ x, x ∈ l → P x ↔ Q x) → filter P l = filter Q l.
Proof.
  induction l as [|x l IH]; intros HPQ; [done|].
  rewrite !filter_cons.
  rewrite IH by (intros y Hy; apply HPQ; by right).
  destruct (decide (P x)) as [HP|HP], (decide (Q x)) as [HQ|HQ]; try done;
    exfalso; apply (HPQ x ltac:(by left)) in HP || apply (HPQ x ltac:(by left)) in HQ;
    done.
Qed.

Lemma not_a_media_name (audio : bool) : "#document" ∉ mediaTagNodeNames audio.
Proof. destruct audio; simpl; set_solver. Qed.

(** What the document scan returns when the adapter adds nothing of its
    own: the media elements of the light tree and, once each, those behind
    the shadow boundaries the traversal crosses. *)
Lemma scanForMedia_parts (d : node) (s : scanner) :
  NoDup (nid <$> subtree d) → nodeName d = "#document" →
  detectSpecialVideos d = [] →
  (scanForMedia d s).1
  ≡ₚ filter (found s) (descendants d) ++ filter (found s) (encapsulated d).
Proof.
  intros Hnd Hdoc Hspecial. unfold scanForMedia. cbv zeta. cbn [fst snd].
  unfold _traverseForShadowRootsAndMedia. cbn [fst snd].
  set (names := mediaTagNodeNames (audioBoolean s)).
  rewrite Hspecial, app_nil_r, traverse_visit.
  set (Q := byTagName names d).
  set (T := filter (λ y, nodeName y ∈ names) (visit d)).
  destruct (tree_parts d) as [Hvisit Hparts].
  assert (NoDup (nid <$> ((d :: descendants d) ++ encapsulated d))) as Hnd2.
  { eapply submseteq_NoDup; [|exact Hnd]. by apply fmap_submseteq. }
  assert (NoDup (nid <$> Q)) as HQ.
  { apply NoDup_ids_filter. rewrite fmap_app, fmap_cons in Hnd2.
    apply NoDup_app in Hnd2 as (Hnd2 & _ & _). by apply NoDup_cons in Hnd2 as []. }
  assert (NoDup (nid <$> T)) as HT.
  { apply NoDup_ids_filter. eapply submseteq_NoDup; [|exact Hnd].
    by apply fmap_submseteq. }
  rewrite unique_app, (unique_id Q HQ), (unique_id T HT), filter_app.
  apply Permutation_app.
  - (* the light tree *)
    unfold Q, byTagName. rewrite list_filter_filter.
    apply perm_of_eq, list_filter_iff. intros y. unfold found. fold names.
    rewrite negb_True, Is_true_false. tauto.
  - (* behind the shadow boundaries *)
    assert (filter (λ y, nid y ∉ nid <$> Q) T
            ≡ₚ filter (λ y, nodeName y ∈ names) (encapsulated d)) as ->.
    { unfold T. rewrite (visit_split d), !filter_app.
      rewrite (filter_none _ (filter _ (light d))), app_nil_l.
      - apply perm_of_eq, filter_all, Forall_forall.
        intros y [Hy Hin]%list_elem_of_filter Hq.
        apply list_elem_of_fmap in Hq as (q & Eq & Hq).
        apply list_elem_of_filter in Hq as [_ Hq].
        rewrite fmap_app in Hnd2. apply NoDup_app in Hnd2 as (_ & Hdisj & _).
        apply (Hdisj (nid y)).
        + rewrite Eq. apply list_elem_of_fmap. exists q. split; [done|]. by right.
        + apply list_elem_of_fmap. eauto.
      - apply Forall_forall. intros y [Hy Hin]%list_elem_of_filter Hq. apply Hq.
        apply list_elem_of_fmap. exists y. split; [done|].
        apply list_elem_of_filter.
        destruct (light_in d y Hin) as [->|[Hdesc Hty]]; [|done].
        exfalso. rewrite Hdoc in Hy. by apply (not_a_media_name (audioBoolean s)). }
    rewrite list_filter_filter. apply perm_of_eq, filter_ext_elem.
    intros y Hy. unfold found. fold names.
    rewrite negb_True, Is_true_false.
    pose proof (encapsulated_elements d y Hy). tauto.
Qed.

Lemma scanContainers_none (d : node) (s : scanner) :
  getVideoContainerSelectors = [] → (scanSiteSpecificContainers d s).1 = [].
Proof. intros E. unfold scanSiteSpecificContainers. by rewrite E. Qed.

Lemma scanIframes_none (d : node) (s : scanner) :
  Forall closed_frame (byTagName ["IFRAME"] d) → (scanIframes d s).1 = [].
Proof.
  unfold scanIframes. generalize (byTagName ["IFRAME"] d). intros l Hl.
  assert (∀ acc : list node * scanner, acc.1 = [] →
          (foldl (λ acc frame,
             if crossOrigin frame then
               (acc.1, logged (Debug "Cannot access iframe content (cross-origin)") acc.2)
             else
               match contentDocument frame with
               | Some childDocument =>
                   let iframeMedia := scanForMedia childDocument acc.2 in
                   (acc.1 ++ iframeMedia.1,
                    logged (DebugNum "media elements in iframe" (length iframeMedia.1))
                           iframeMedia.2)
               | None => acc
               end) acc l).1 = []) as Hfold.
  { induction Hl as [|f l [Hf|Hf] _ IH]; intros acc Hacc; [done|..]; simpl.
    - rewrite Hf. by apply IH.
    - rewrite Hf. destruct (crossOrigin f); by apply IH. }
  by apply Hfold.
Qed.

(** The count of the full scan on a document with no frame to enter and an
    adapter that adds nothing of its own. *)
Lemma scanAll_count (d : node) (s : scanner) :
  NoDup (nid <$> subtree d) → nodeName d = "#document" →
  detectSpecialVideos d = [] → getVideoContainerSelectors = [] →
  Forall closed_frame (byTagName ["IFRAME"] d) →
  length (scanAll d s).1
  = length (filter (found s) (descendants d))
    + length (filter (found s) (encapsulated d)).
Proof.
  intros Hnd Hdoc Hsp Hsel Hfr. unfold scanAll. cbv zeta. cbn [fst snd].
  rewrite (scanContainers_none d _ Hsel), (scanIframes_none d _ Hfr), !app_nil_r.
  rewrite unique_id.
  - by rewrite (scanForMedia_parts d s Hnd Hdoc Hsp), length_app.
  - unfold scanForMedia. cbv zeta. cbn [fst snd].
    apply NoDup_ids_filter, unique_NoDup.
Qed.

(** The full scan is the union of the three scans, each identity once. *)
Lemma scanAll_union (d : node) (s : scanner) :
  let regular := scanForMedia d s in
  let containers := scanSiteSpecificContainers d regular.2 in
  let frames := scanIframes d containers.2 in
  NoDup (nid <$> (scanAll d s).1)
  ∧ (∀ x, x ∈ (scanAll d s).1 → x ∈ regular.1 ++ containers.1 ++ frames.1)
  ∧ (∀ x, x ∈ regular.1 ++ containers.1 ++ frames.1 →
          ∃ y, y ∈ (scanAll d s).1 ∧ nid y = nid x).
Proof.
  intros regular containers frames. unfold scanAll. cbv zeta. cbn [fst snd].
  fold regular. fold containers. fold frames.
  split; [apply unique_NoDup|]. split.
  - intros x. apply unique_subset.
  - intros x. apply unique_covers.
Qed.

End Scans.


(** *** The validator *)

Lemma Qltb_lt (x y : Q) : JS.Qltb x y = true ↔ (x < y)%Q.
Proof.
  unfold JS.Qltb. rewrite negb_true_iff, <- not_true_iff_false, Qle_bool_iff.
  split; [apply Qnot_le_lt | apply Qlt_not_le].
Qed.


(** *** The properties at the sample documents *)




(** *** What the traversal gets to *)

Lemma reaches_trans (a b c : node) : reaches a b → reaches b c → reaches a c.
Proof.
  intros Hab Hbc. induction Hbc as [|n c' _ IH Hc Hd]; [done|].
  by eapply reaches_child.
Qed.

Lemma in_flat_map_descend (f : node → list node) (l : list node) (y : node) :
  y ∈ flat_map (λ c, if descend c then f c else []) l
  ↔ ∃ c, c ∈ l ∧ descend c = true ∧ y ∈ f c.
Proof.
  rewrite list_elem_of_In, in_flat_map. split.
  - intros (c & Hc & Hy). exists c. rewrite list_elem_of_In.
    destruct (descend c); [by rewrite list_elem_of_In | destruct Hy].
  - intros (c & Hc & Hd & Hy). exists c. rewrite <- list_elem_of_In.
    split; [done|]. rewrite Hd. by rewrite <- list_elem_of_In.
Qed.

Lemma visit_reaches (root y : node) : y ∈ visit root ↔ reaches root y.
Proof.
  split.
  - revert y. induction root as [n IHc IHs] using node_ind'. intros y.
    rewrite visit_eq, elem_of_cons, elem_of_app, !in_flat_map_descend.
    intros [->|[(c & Hc & Hd & Hy)|(c & Hc & Hd & Hy)]]; [constructor| |].
    + rewrite Forall_forall in IHc.
      apply (reaches_trans _ c); [|by apply IHc].
      eapply reaches_child; [constructor| |done]. apply elem_of_app. by left.
    + rewrite Forall_forall in IHs.
      apply (reaches_trans _ c); [|by apply IHs].
      eapply reaches_child; [constructor| |done]. apply elem_of_app. by right.
  - induction 1 as [|n c _ IH Hc Hd]; [rewrite visit_eq; by left|].
    assert (∀ r, n ∈ visit r → c ∈ visit r) as Hstep; [|by apply Hstep].
    clear IH. intros r. induction r as [r IHc IHs] using node_ind'.
    rewrite Forall_forall in IHc, IHs.
    rewrite !(visit_eq r), !elem_of_cons, !elem_of_app, !in_flat_map_descend.
    intros [->|[(k & Hk & Hkd & Hn)|(k & Hk & Hkd & Hn)]].
    + right. apply elem_of_app in Hc as [Hc|Hc]; [left | right];
        exists c; (split; [done|]); (split; [done|]); rewrite visit_eq; by left.
    + right. left. exists k. eauto.
    + right. right. exists k. eauto.
Qed.

Lemma traverse_observed (names : list string) (n : node) :
  observed (traverse names n) = roots_of (visit n).
Proof.
  induction n as [n IHc IHs] using node_ind'.
  assert (∀ l, Forall (λ c, observed (traverse names c) = roots_of (visit c)) l →
          observed (flat_map (λ c, if descend c then traverse names c else []) l)
          = roots_of (flat_map (λ c, if descend c then visit c else []) l)) as Heach.
  { intros l Hl. unfold observed at 1, roots_of at 1. rewrite !omap_flat_map.
    apply flat_map_ext_Forall. eapply Forall_impl; [exact Hl|].
    intros c Hc. simpl. destruct (descend c); [exact Hc | done]. }
  rewrite traverse_eq, visit_eq. unfold observed at 1, roots_of at 1.
  rewrite !omap_app. fold (observed (flat_map (λ c, if descend c then traverse names c else [])
                                       (childNodes n))).
  fold (observed (flat_map (λ c, if descend c then traverse names c else [])
                    (shadowChildren n))).
  rewrite (Heach _ IHc), (Heach _ IHs). simpl. unfold roots_of. rewrite omap_app.
  assert (omap (λ s, match s with Push _ => None | Observe r => Some r end)
            (if bool_decide (nodeName n ∈ names) then [Push n] else []) = []) as ->
    by (by case_bool_decide).
  by destruct (shadowRoot n) as [[r kids]|].
Qed.

Lemma roots_of_spec (l : list node) (r : nat) :
  r ∈ roots_of l ↔ ∃ host kids, host ∈ l ∧ shadowRoot host = Some (r, kids).
Proof.
  unfold roots_of. rewrite list_elem_of_omap. split.
  - intros (host & Hh & Hr). destruct (shadowRoot host) as [[r' kids]|] eqn:E;
      [|discriminate]. injection Hr as ->. eauto.
  - intros (host & kids & Hh & Hr). exists host. by rewrite Hr.
Qed.

(** *** Where the shadow roots go *)

Lemma observe_with_observer (roots : list nat) (s : scanner) (calls : list nat) :
  mutationObserver s = Some calls →
  let s' := foldl _observeShadowRoot s roots in
  mutationObserver s' = Some (calls ++ roots)
  ∧ pendingShadowRoots s' = pendingShadowRoots s
  ∧ audioBoolean s' = audioBoolean s
  ∧ ∃ lines, console s' = console s ++ lines ∧ length lines = length roots.
Proof.
  revert s calls. induction roots as [|r roots IH]; intros s calls Hs; simpl.
  { rewrite app_nil_r. repeat split; [done|]. exists []. by rewrite app_nil_r. }
  destruct (IH (_observeShadowRoot s r) (calls ++ [r])) as (Hm & Hp & Ha & lines & Hc & Hl).
  { unfold _observeShadowRoot. by rewrite Hs. }
  rewrite Hm, Hp, Ha, Hc, <- app_assoc. unfold _observeShadowRoot. rewrite Hs. simpl.
  repeat split.
  eexists (_ :: lines). rewrite <- app_assoc. split; [reflexivity|]. simpl. by rewrite Hl.
Qed.

Lemma observe_without_observer (roots : list nat) (s : scanner) :
  mutationObserver s = None →
  let s' := foldl _observeShadowRoot s roots in
  mutationObserver s' = None
  ∧ pending s' = pending s ∪ list_to_set roots
  ∧ (roots = [] → pendingShadowRoots s' = pendingShadowRoots s)
  ∧ audioBoolean s' = audioBoolean s
  ∧ ∃ lines, console s' = console s ++ lines ∧ length lines = length roots.
Proof.
  revert s. induction roots as [|r roots IH]; intros s Hs; simpl.
  { split; [done|]. split; [set_solver|]. split; [done|]. split; [done|].
    exists []. by rewrite app_nil_r. }
  destruct (IH (_observeShadowRoot s r)) as (Hm & Hp & _ & Ha & lines & Hc & Hl).
  { unfold _observeShadowRoot. by rewrite Hs. }
  rewrite Hm, Hp, Ha, Hc. unfold _observeShadowRoot, pending. rewrite Hs. simpl.
  split; [done|]. split; [set_solver|]. split; [done|]. split; [done|].
  eexists (_ :: lines). rewrite <- app_assoc. split; [reflexivity|]. simpl. by rewrite Hl.
Qed.

#[local] Instance continues_preorder : PreOrder continues.
Proof.
  split.
  - intros s. split; [done|]. split; [done|].
    destruct (mutationObserver s) as [calls|]; [|done].
    split; [|done]. exists []. by rewrite app_nil_r.
  - intros s1 s2 s3 (A1 & C1 & M1) (A2 & C2 & M2).
    split; [congruence|]. split; [by etrans|].
    destruct (mutationObserver s1) as [calls|].
    + destruct M1 as [[more E1] P1]. rewrite E1 in M2.
      destruct M2 as [[more' E2] P2]. split; [|congruence].
      exists (more ++ more'). by rewrite E2, app_assoc.
    + destruct M1 as [E1 P1]. rewrite E1 in M2. destruct M2 as [E2 P2].
      split; [done|]. by etrans.
Qed.

Lemma logged_continues (m : log_msg) (s : scanner) : continues s (logged m s).
Proof.
  split; [done|]. split; [by apply prefix_app_r|]. simpl.
  destruct (mutationObserver s) as [calls|]; [|done].
  split; [|done]. exists []. by rewrite app_nil_r.
Qed.

Lemma observed_continues (roots : list nat) (s : scanner) :
  continues s (foldl _observeShadowRoot s roots).
Proof.
  destruct (mutationObserver s) as [calls|] eqn:Hs.
  - destruct (observe_with_observer roots s calls Hs) as (Hm & Hp & Ha & lines & Hc & _).
    split; [done|]. split; [rewrite Hc; by apply prefix_app_r|]. rewrite Hs. eauto.
  - destruct (observe_without_observer roots s Hs) as (Hm & Hp & _ & Ha & lines & Hc & _).
    split; [done|]. split; [rewrite Hc; by apply prefix_app_r|]. rewrite Hs.
    split; [done|]. rewrite Hp. set_solver.
Qed.

(** X16. The traversal returns exactly the wanted media elements it gets to:
    an element is in the list that [_traverseForShadowRootsAndMedia]
    returns if and only if its name is one of the wanted tags (VIDEO, and
    AUDIO when audio is enabled) and a path of children, light or shadow,
    that are elements and are neither text, STYLE nor SCRIPT leads from
    the root to it. With audio disabled every element returned is a
    VIDEO. *)
Theorem traversal_finds_reachable_media (root : node) (audioEnabled : bool)
    (s : scanner) (x : node) :
  (x ∈ (_traverseForShadowRootsAndMedia root audioEnabled s).1
   ↔ reaches root x ∧ nodeName x ∈ mediaTagNodeNames audioEnabled)
  ∧ (x ∈ (_traverseForShadowRootsAndMedia root false s).1 → nodeName x = "VIDEO").
Proof.
  unfold _traverseForShadowRootsAndMedia. simpl. rewrite !traverse_visit.
  rewrite !list_elem_of_filter, !visit_reaches. split; [tauto|].
  intros [Hn _]. simpl in Hn. by apply list_elem_of_singleton in Hn.
Qed.

(** X17. The traversal hands the shadow root of every host it gets to, and
    no other, to [_observeShadowRoot], once per host and in the order of
    the visit. With an observer installed these are calls to the observer
    and the kept set stays as it is; with none, no call is made and the
    roots join the set kept for later (which is made only when there is a
    root to keep). Each root leaves one line in the log; the audio setting
    is not touched. *)
Theorem traversal_registers_boundaries (root : node) (audioEnabled : bool)
    (s : scanner) :
  let s' := (_traverseForShadowRootsAndMedia root audioEnabled s).2 in
  let roots := roots_of (visit root) in
  (∀ r, r ∈ roots ↔ ∃ host kids, reaches root host ∧ shadowRoot host = Some (r, kids))
  ∧ audioBoolean s' = audioBoolean s
  ∧ length (console s') = length (console s) + length roots
  ∧ match mutationObserver s with
    | Some calls =>
        mutationObserver s' = Some (calls ++ roots)
        ∧ pendingShadowRoots s' = pendingShadowRoots s
    | None =>
        mutationObserver s' = None
        ∧ pending s' = pending s ∪ list_to_set roots
        ∧ (roots = [] → pendingShadowRoots s' = pendingShadowRoots s)
    end.
Proof.
  intros s' roots. subst s' roots. unfold _traverseForShadowRootsAndMedia. simpl.
  rewrite traverse_observed. split.
  { intros r. rewrite roots_of_spec. by setoid_rewrite visit_reaches. }
  destruct (mutationObserver s) as [calls|] eqn:Hs.
  - destruct (observe_with_observer (roots_of (visit root)) s calls Hs)
      as (Hm & Hp & Ha & lines & Hc & Hl).
    split; [done|]. split; [|done]. by rewrite Hc, length_app, Hl.
  - destruct (observe_without_observer (roots_of (visit root)) s Hs)
      as (Hm & Hp & Hn & Ha & lines & Hc & Hl).
    split; [done|]. split; [|done]. by rewrite Hc, length_app, Hl.
Qed.

Lemma setMutationObserver_run (s : scanner) :
  mutationObserver (setMutationObserver s) = Some (elements (pending s))
  ∧ pending (setMutationObserver s) = ∅
  ∧ audioBoolean (setMutationObserver s) = audioBoolean s.
Proof.
  unfold setMutationObserver, pending.
  destruct (pendingShadowRoots s) as [p|]; simpl; by rewrite ?elements_empty.
Qed.

(** X18. Installing the observer flushes the kept shadow roots:
    [setMutationObserver] hands each root kept so far to the new observer
    exactly once and leaves none kept; the audio setting stays. A
    traversal after it hands its shadow roots to the observer, after the
    flushed ones, and keeps none. *)
Theorem setMutationObserver_flushes_pending (s : scanner) :
  let s' := setMutationObserver s in
  ∃ calls, mutationObserver s' = Some calls
    ∧ NoDup calls
    ∧ (∀ r, r ∈ calls ↔ r ∈ pending s)
    ∧ pending s' = ∅
    ∧ audioBoolean s' = audioBoolean s
    ∧ ∀ root audioEnabled,
        let s'' := (_traverseForShadowRootsAndMedia root audioEnabled s').2 in
        mutationObserver s'' = Some (calls ++ roots_of (visit root))
        ∧ pending s'' = ∅.
Proof.
  intros s'. subst s'. destruct (setMutationObserver_run s) as (Hm & Hp & Ha).
  exists (elements (pending s)). split; [done|]. split; [apply NoDup_elements|].
  split; [intros r; apply elem_of_elements|]. split; [done|]. split; [done|].
  intros root audioEnabled. simpl. rewrite traverse_observed.
  destruct (observe_with_observer (roots_of (visit root)) _ _ Hm) as (Hm' & Hp' & _).
  split; [done|]. unfold pending in *. by rewrite Hp'.
Qed.

(** *** Each scan on its own *)

Section Isolation.

Context `{Externals}.

Lemma scanForMedia_continues (d : node) (s : scanner) :
  continues s (scanForMedia d s).2.
Proof.
  unfold scanForMedia, _traverseForShadowRootsAndMedia. simpl.
  etrans; [apply observed_continues | apply logged_continues].
Qed.

Lemma scanForMedia_members (d : node) (s : scanner) :
  NoDup (nid <$> (scanForMedia d s).1)
  ∧ (∀ x, x ∈ (scanForMedia d s).1 → shouldIgnoreVideo x = false ∧ candidate d s x)
  ∧ (∀ x, candidate d s x →
       ∃ y, nid y = nid x ∧ (y ∈ (scanForMedia d s).1 ∨ shouldIgnoreVideo y = true)).
Proof.
  unfold scanForMedia, _traverseForShadowRootsAndMedia, candidate. simpl.
  assert (∀ x, x ∈ byTagName (mediaTagNodeNames (audioBoolean s)) d
                     ++ pushed (traverse (mediaTagNodeNames (audioBoolean s)) d)
                     ++ detectSpecialVideos d
               ↔ x ∈ byTagName (mediaTagNodeNames (audioBoolean s)) d
                 ∨ (reaches d x ∧ nodeName x ∈ mediaTagNodeNames (audioBoolean s))
                 ∨ x ∈ detectSpecialVideos d) as Hin.
  { intros x. rewrite !elem_of_app, traverse_visit, list_elem_of_filter, visit_reaches.
    tauto. }
  split; [apply NoDup_ids_filter, unique_NoDup|]. split.
  - intros x [Hi Hx]%list_elem_of_filter. apply unique_subset, Hin in Hx.
    split; [|done]. by destruct (shouldIgnoreVideo x).
  - intros x Hx. apply Hin, unique_covers in Hx as (y & Hy & Hid).
    exists y. split; [done|]. rewrite list_elem_of_filter.
    destruct (shouldIgnoreVideo y); [by right | left; by split].
Qed.

Lemma scanIframes_each (frames : list node) (s0 : scanner) (acc : list node * scanner) :
  audioBoolean acc.2 = audioBoolean s0 →
  let step := λ (acc : list node * scanner) frame,
    if crossOrigin frame then
      (acc.1, logged (Debug "Cannot access iframe content (cross-origin)") acc.2)
    else
      match contentDocument frame with
      | Some childDocument =>
          let iframeMedia := scanForMedia childDocument acc.2 in
          (acc.1 ++ iframeMedia.1,
           logged (DebugNum "media elements in iframe" (length iframeMedia.1))
                  iframeMedia.2)
      | None => acc
      end in
  (foldl step acc frames).1 = acc.1 ++ flat_map (frame_media s0) frames
  ∧ continues acc.2 (foldl step acc frames).2.
Proof.
  intros Ha step. revert acc Ha.
  induction frames as [|f frames IH]; intros acc Ha; simpl.
  { by rewrite app_nil_r. }
  assert (audioBoolean (step acc f).2 = audioBoolean s0
          ∧ (step acc f).1 = acc.1 ++ frame_media s0 f
          ∧ continues acc.2 (step acc f).2) as (Ha' & Hr & Hc).
  { unfold step, frame_media. destruct (crossOrigin f); cbn [fst snd].
    - rewrite app_nil_r. split; [done|]. split; [done|]. apply logged_continues.
    - destruct (contentDocument f) as [cd|]; cbv zeta; cbn [fst snd].
      + rewrite audio_logged, scanForMedia_audio, (scanForMedia_result cd _ s0 Ha).
        split; [done|]. split; [done|].
        etrans; [apply scanForMedia_continues | apply logged_continues].
      + by rewrite app_nil_r. }
  destruct (IH _ Ha') as [Hr' Hc']. rewrite Hr', Hr, <- app_assoc.
  split; [done|]. by etrans.
Qed.

Lemma scanIframes_frames (d : node) (s : scanner) :
  (scanIframes d s).1 = flat_map (frame_media s) (byTagName ["IFRAME"] d)
  ∧ continues s (scanIframes d s).2.
Proof. by apply (scanIframes_each _ s ([], s)). Qed.

Lemma scanContainers_each (d : node) (audio : bool) (selectors : list string)
    (acc : list node * scanner) :
  let step := λ (acc : list node * scanner) selector,
    match querySelectorAll d selector with
    | Some containers =>
        (acc.1 ++ flat_map (λ container, findMediaElements container audio) containers,
         acc.2)
    | None => (acc.1, logged (Warn "Invalid selector" selector) acc.2)
    end in
  let s' := (foldl step acc selectors).2 in
  (foldl step acc selectors).1 = acc.1 ++ flat_map (selector_media d audio) selectors
  ∧ console s' = console acc.2 ++ selector_warnings d selectors
  ∧ audioBoolean s' = audioBoolean acc.2
  ∧ mutationObserver s' = mutationObserver acc.2
  ∧ pendingShadowRoots s' = pendingShadowRoots acc.2.
Proof.
  intros step. revert acc.
  induction selectors as [|sel selectors IH]; intros acc; simpl.
  { by rewrite !app_nil_r. }
  destruct (IH (step acc sel)) as (Hr & Hc & Ha & Hm & Hp).
  rewrite Hr, Hc, Ha, Hm, Hp. clear IH Hr Hc Ha Hm Hp.
  unfold step, selector_media at 2.
  destruct (querySelectorAll d sel) as [containers|]; cbn [fst snd].
  - by rewrite <- app_assoc.
  - simpl. by rewrite <- app_assoc.
Qed.

Lemma scanContainers_continues (d : node) (s : scanner) :
  continues s (scanSiteSpecificContainers d s).2.
Proof.
  destruct (scanContainers_each d (audioBoolean s) getVideoContainerSelectors ([], s))
    as (_ & Hc & Ha & Hm & Hp).
  unfold scanSiteSpecificContainers. simpl in *.
  split; [done|]. split; [rewrite Hc; by apply prefix_app_r|].
  rewrite Hm. destruct (mutationObserver s) as [calls|].
  - split; [|done]. exists []. by rewrite app_nil_r.
  - split; [done|]. unfold pending. by rewrite Hp.
Qed.

Lemma scanAll_continues (d : node) (s : scanner) :
  continues s (scanAll d s).2 ∧ continues (scanForMedia d s).2 (scanAll d s).2.
Proof.
  assert (continues (scanForMedia d s).2 (scanAll d s).2) as Hc.
  { unfold scanAll. cbv zeta. cbn [fst snd].
    etrans; [apply scanContainers_continues|].
    etrans; [apply scanIframes_frames | apply logged_continues]. }
  split; [|done]. etrans; [apply scanForMedia_continues | done].
Qed.

Lemma scanForMedia_boundaries (d : node) (s : scanner) :
  match mutationObserver s with
  | Some calls =>
      mutationObserver (scanForMedia d s).2 = Some (calls ++ roots_of (visit d))
  | None =>
      mutationObserver (scanForMedia d s).2 = None
      ∧ pending (scanForMedia d s).2 = pending s ∪ list_to_set (roots_of (visit d))
  end.
Proof.
  unfold scanForMedia, _traverseForShadowRootsAndMedia. cbv zeta. cbn [fst snd].
  rewrite traverse_observed. destruct (mutationObserver s) as [calls|] eqn:Hs.
  - by destruct (observe_with_observer (roots_of (visit d)) s calls Hs) as (Hm & _).
  - by destruct (observe_without_observer (roots_of (visit d)) s Hs) as (Hm & Hp & _).
Qed.

Lemma scanAll_prefix (d : node) (s : scanner) :
  (scanAll d s).1
  = (scanForMedia d s).1
    ++ filter (λ y, nid y ∉ nid <$> (scanForMedia d s).1)
         (unique ((scanSiteSpecificContainers d (scanForMedia d s).2).1
                  ++ (scanIframes d (scanSiteSpecificContainers d (scanForMedia d s).2).2).1)).
Proof.
  unfold scanAll. simpl. rewrite unique_app. f_equal.
  apply unique_id, scanForMedia_members.
Qed.

End Isolation.


(** X20. A frame that cannot be read costs nothing but its own media: the
    frame scan returns, frame by frame in document order, the document
    scan of the content document of each frame that can be read and has
    one, and nothing for a frame whose content throws (cross-origin) or
    is missing; what a frame gives does not depend on the frames before
    it. No element it returns is excluded by the adapter. *)
Theorem scanIframes_isolates_denied_frames `{Externals} (d : node) (s : scanner) :
  (scanIframes d s).1 = flat_map (frame_media s) (byTagName ["IFRAME"] d)
  ∧ (∀ x, x ∈ (scanIframes d s).1 →
       shouldIgnoreVideo x = false
       ∧ ∃ frame doc, frame ∈ byTagName ["IFRAME"] d ∧ crossOrigin frame = false
                      ∧ contentDocument frame = Some doc
                      ∧ x ∈ (scanForMedia doc s).1).
Proof.
  destruct (scanIframes_frames d s) as [E _]. split; [done|].
  intros x. rewrite E, list_elem_of_In, in_flat_map.
  intros (f & Hf%list_elem_of_In & Hx%list_elem_of_In). unfold frame_media in Hx.
  destruct (crossOrigin f) eqn:Hc; [by apply not_elem_of_nil in Hx|].
  destruct (contentDocument f) as [doc|] eqn:Hd; [|by apply not_elem_of_nil in Hx].
  split; [by apply (scanForMedia_members doc s)|]. by exists f, doc.
Qed.

(** X21. A malformed selector is skipped and reported, never fatal: the
    container scan returns, selector by selector in order, what
    [findMediaElements] finds in the containers of each selector that
    [querySelectorAll] accepts, and nothing for one it rejects; it logs
    one warning for each rejected selector, in order, and leaves the rest
    of the scanner (audio setting, observer, kept shadow roots) as it
    was. *)
Theorem scanSiteSpecificContainers_skips_malformed `{Externals} (d : node) (s : scanner) :
  let s' := (scanSiteSpecificContainers d s).2 in
  (scanSiteSpecificContainers d s).1
  = flat_map (selector_media d (audioBoolean s)) getVideoContainerSelectors
  ∧ console s' = console s ++ selector_warnings d getVideoContainerSelectors
  ∧ audioBoolean s' = audioBoolean s
  ∧ mutationObserver s' = mutationObserver s
  ∧ pendingShadowRoots s' = pendingShadowRoots s.
Proof.
  apply (scanContainers_each d (audioBoolean s) getVideoContainerSelectors ([], s)).
Qed.

(** X22. The handles of the document scan come first in the result of
    [scanAll], in the order of the document scan; the handles that follow
    are those of the container scan and of the frame scan whose identity
    the document scan did not give, each once. *)
Theorem scanAll_document_handles_first `{Externals} (d : node) (s : scanner) :
  let regular := scanForMedia d s in
  let containers := scanSiteSpecificContainers d regular.2 in
  let frames := scanIframes d containers.2 in
  ∃ others, (scanAll d s).1 = regular.1 ++ others
    ∧ (∀ y, y ∈ others → nid y ∉ nid <$> regular.1)
    ∧ (∀ y, y ∈ others → y ∈ containers.1 ++ frames.1)
    ∧ (∀ x, x ∈ containers.1 ++ frames.1 →
         nid x ∈ nid <$> regular.1 ∨ ∃ y, y ∈ others ∧ nid y = nid x).
Proof.
  intros regular containers frames. eexists. split; [apply scanAll_prefix|].
  fold regular. fold containers. fold frames. split; [|split].
  - by intros y [Hn _]%list_elem_of_filter.
  - intros y [_ Hy]%list_elem_of_filter. by apply unique_subset.
  - intros x Hx. destruct (decide (nid x ∈ nid <$> regular.1)) as [|Hn]; [by left|].
    right. apply unique_covers in Hx as (y & Hy & Hid). exists y. split; [|done].
    apply list_elem_of_filter. split; [by rewrite Hid | done].
Qed.

(** X23. A full scan never drops a shadow root nor touches the settings:
    after [scanAll] the audio setting is the same and the log has grown at
    its end. With no observer installed, none gets installed, and the set
    kept for later holds every root kept before and the shadow root of
    every host the traversal of the document gets to. With an observer
    installed, the calls made before are still the first ones, the next
    are the roots of the document in the order of the visit, and the kept
    set is the same. *)
Theorem scanAll_keeps_boundaries `{Externals} (d : node) (s : scanner) :
  let s' := (scanAll d s).2 in
  audioBoolean s' = audioBoolean s
  ∧ console s `prefix_of` console s'
  ∧ match mutationObserver s with
    | Some calls =>
        (∃ more, mutationObserver s' = Some (calls ++ roots_of (visit d) ++ more))
        ∧ pendingShadowRoots s' = pendingShadowRoots s
    | None =>
        mutationObserver s' = None
        ∧ pending s ∪ list_to_set (roots_of (visit d)) ⊆ pending s'
    end.
Proof.
  intros s'. subst s'.
  destruct (scanAll_continues d s) as [(Ha & Hc & Hm) (_ & _ & Hm')].
  split; [done|]. split; [done|]. pose proof (scanForMedia_boundaries d s) as Hb.
  destruct (mutationObserver s) as [calls|].
  - rewrite Hb in Hm'. destruct Hm' as [[more E] _]. split; [|apply Hm].
    exists more. by rewrite E, app_assoc.
  - destruct Hb as [Hb Hp]. rewrite Hb in Hm'. destruct Hm' as [E Hsub].
    split; [done|]. by rewrite <- Hp.
Qed.

(** *** The further properties at the sample documents *)

Lemma traversal_finds_reachable_media_witness :
  shadow_video ∈ (_traverseForShadowRootsAndMedia player_document false new_scanner).1.
Proof.
  apply (proj1 (traversal_finds_reachable_media player_document false new_scanner
                  shadow_video)).
  split; [|by left].
  apply (reaches_child _ shadow_host); [|by left | reflexivity].
  apply (reaches_child _ player_body); [|right; by left | reflexivity].
  apply (reaches_child _ player_html); [|by left | reflexivity].
  apply (reaches_child _ player_document); [apply reaches_root | by left | reflexivity].
Defined.

Lemma traversal_registers_boundaries_witness :
  pending (_traverseForShadowRootsAndMedia player_document false new_scanner).2 = {[10]}
  ∧ mutationObserver
      (_traverseForShadowRootsAndMedia player_document false new_scanner).2 = None.
Proof.
  destruct (traversal_registers_boundaries player_document false new_scanner)
    as (_ & _ & _ & Hm & Hp & _).
  split; [|exact Hm]. rewrite Hp. vm_compute. reflexivity.
Defined.

Lemma setMutationObserver_flushes_pending_witness :
  ∃ calls,
    mutationObserver
      (setMutationObserver
         (_traverseForShadowRootsAndMedia player_document false new_scanner).2)
    = Some calls
    ∧ (∀ r, r ∈ calls ↔ r = 10).
Proof.
  destruct (setMutationObserver_flushes_pending
              (_traverseForShadowRootsAndMedia player_document false new_scanner).2)
    as (calls & Hm & _ & Hin & _).
  exists calls. split; [exact Hm|]. intros r. rewrite Hin.
  assert (pending (_traverseForShadowRootsAndMedia player_document false new_scanner).2
          = {[10]}) as -> by (vm_compute; reflexivity).
  apply elem_of_singleton.
Defined.

Lemma scanAll_document_handles_first_witness :
  ∃ others, (@scanAll quiet_site framed_page new_scanner).1
            = (@scanForMedia quiet_site framed_page new_scanner).1 ++ others
    ∧ others = [framed_video].
Proof.
  destruct (@scanAll_document_handles_first quiet_site framed_page new_scanner)
    as (others & E & _).
  exists others. split; [exact E|].
  assert ((@scanForMedia quiet_site framed_page new_scanner).1 ++ others
          = (@scanForMedia quiet_site framed_page new_scanner).1 ++ [framed_video]) as Happ.
  { rewrite <- E. vm_compute. reflexivity. }
  by apply app_inv_head in Happ.
Defined.

Lemma scanIframes_isolates_denied_frames_witness :
  (@scanIframes quiet_site framed_page new_scanner).1 = [framed_video].
Proof.
  rewrite (proj1 (@scanIframes_isolates_denied_frames quiet_site framed_page new_scanner)).
  vm_compute. reflexivity.
Defined.

Lemma scanSiteSpecificContainers_skips_malformed_witness :
  length (@scanSiteSpecificContainers selective_site player_document new_scanner).1 = 1
  ∧ console (@scanSiteSpecificContainers selective_site player_document new_scanner).2
    = [Warn "Invalid selector" "[["].
Proof.
  destruct (@scanSiteSpecificContainers_skips_malformed selective_site player_document
              new_scanner) as (Hr & Hc & _).
  split; [rewrite Hr | rewrite Hc]; vm_compute; reflexivity.
Defined.

End ScanProps.
